(** * resolve_paralogs: deep-paralog cutting and monophyletic-outgroup pruning

    A shallow embedding of [yang_and_smith/prune_paralogs_mo.py] and
    [yang_and_smith/cut_deep_paralogs.py], and of the file names, the
    batches and the selection of sequences of [paragone/fasta_from_tree.py].

    The Python code works on a mutable, parent-linked tree of [phylo3.Node]
    objects.  Objects are modelled as cells of an arena ([heap]): a node
    reference is an index into the arena, and every attribute write is an
    update of the cell.  Two Python variables that hold the same object are
    two copies of the same index, so in-place mutation is seen through both.

    Branch lengths are Python floats, modelled as binary64 [float].
    Exceptions are modelled by the [result] monad. *)

From Stdlib Require Import Floats.
From stdpp Require Import gmap strings list pretty.

Set Default Proof Using "Type".
Set Warnings "-clear-no-such-hyp,-register-all".

(** ** Exceptions and the [result] monad *)

Inductive exn : Type :=
  | AttributeError   (* attribute access on [None] *)
  | IndexError       (* [children[i]] out of range *)
  | AssertionError   (* [remove_child] of a node that is not a child *)
  | KeyError
  | ValueError       (* 'More than one clade with outgroup sequences!' *)
  | RecursionError   (* a recursive traversal that does not bottom out *)
  | DanglingRef      (* an index outside the arena; no Python counterpart *)
  | Diverges         (* a loop whose state no longer changes *)
  | OutOfFuel.       (* the iteration bound given to a loop was too small *)

Inductive result (A : Type) : Type :=
  | Ok (a : A)
  | Raise (e : exn).
Arguments Ok {A} a.
Arguments Raise {A} e.

#[global] Instance result_ret : MRet result := @Ok.
#[global] Instance result_bind : MBind result := λ A B f m,
  match m with Ok a => f a | Raise e => Raise e end.
#[global] Instance result_fmap : FMap result := λ A B f m,
  match m with Ok a => Ok (f a) | Raise e => Raise e end.

Definition from_option {A} (e : exn) (o : option A) : result A :=
  match o with Some a => Ok a | None => Raise e end.

Fixpoint flat_mapM {A B} (f : A → result (list B)) (l : list A) : result (list B) :=
  match l with
  | [] => Ok []
  | x :: xs => ys ← f x; zs ← flat_mapM f xs; Ok (ys ++ zs)
  end.

Fixpoint mapM_result {A B} (f : A → result B) (l : list A) : result (list B) :=
  match l with
  | [] => Ok []
  | x :: xs => y ← f x; ys ← mapM_result f xs; Ok (y :: ys)
  end.

(** ** Nodes and the arena *)

Module Node.
Record t : Type := mk {
  label : option string;   (* [None] when the newick node is unlabelled *)
  length : float;
  children : list nat;
  parent : option nat;
}.

Definition set_length (x : float) (nd : t) : t :=
  mk (label nd) x (children nd) (parent nd).
Definition set_children (cs : list nat) (nd : t) : t :=
  mk (label nd) (length nd) cs (parent nd).
Definition set_parent (p : option nat) (nd : t) : t :=
  mk (label nd) (length nd) (children nd) p.

(** Modelled from the spec: [phylo3.Node.istip] and [phylo3.Node.nchildren]
    are not under src/; section 3 gives them as derived predicates,
    [is_tip := children is empty] and [nchildren := |children|]. *)
Definition istip (nd : t) : bool := bool_decide (children nd = []).
Definition nchildren (nd : t) : nat := Datatypes.length (children nd).
End Node.

Abbreviation heap := (list Node.t).

Definition deref (h : heap) (n : nat) : result Node.t :=
  from_option DanglingRef (h !! n).

(** An attribute write: the cell of [n] is replaced, all others are kept. *)
Definition modify (h : heap) (n : nat) (f : Node.t → Node.t) : result heap :=
  nd ← deref h n; Ok (alter f n h).

(** Python's [list.remove]: the first occurrence only. *)
Fixpoint remove_first (x : nat) (l : list nat) : list nat :=
  match l with
  | [] => []
  | y :: l' => if decide (x = y) then l' else y :: remove_first x l'
  end.

(** ** phylo3: the tree primitives *)

Module phylo3.

(** Modelled from the spec: [phylo3.Node.remove_child] is not under src/.
    Section 4.1: detaches child from parent's child list; fails (programmer
    error) if child not present.  The parent link of the child is cleared,
    as the data model keeps [parent] and [children] consistent. *)
Definition remove_child (h : heap) (p child : nat) : result heap :=
  nd ← deref h p;
  if bool_decide (child ∈ Node.children nd) then
    h1 ← modify h p (Node.set_children (remove_first child (Node.children nd)));
    modify h1 child (Node.set_parent None)
  else Raise AssertionError.

(** Modelled from the spec: [phylo3.Node.add_child] is not under src/.
    Section 4.1: appends child, sets child's parent to parent. *)
Definition add_child (h : heap) (p child : nat) : result heap :=
  nd ← deref h p;
  h1 ← modify h p (Node.set_children (Node.children nd ++ [child]));
  modify h1 child (Node.set_parent (Some p)).

(** Modelled from the spec: [phylo3.Node.prune] is not under src/.
    Section 4.1: detaches node from its parent; the structure above the
    prune point is left intact and may need kink removal by the caller.
    The value handed back is the former parent, the node that
    [cut_long_internal_branches] passes on to [remove_kink] (section 4.3,
    step 4: collapse any resulting kink); a node without a parent is left
    as it is. *)
Definition prune (h : heap) (n : nat) : result (heap * option nat) :=
  nd ← deref h n;
  match Node.parent nd with
  | Some p => h1 ← remove_child h p n; Ok (h1, Some p)
  | None => Ok (h, None)
  end.

(** Modelled from the spec: [phylo3.Node.leaves] is not under src/.
    Section 4.1: the tip nodes under node, inclusive, in child order.  The
    recursion depth is bounded by [fuel]; [leaves] takes the size of the
    arena, which no path of a tree stored in it exceeds. *)
Fixpoint leaves_aux (fuel : nat) (h : heap) (n : nat) : result (list nat) :=
  match fuel with
  | 0 => Raise RecursionError
  | S fuel =>
      nd ← deref h n;
      if Node.istip nd then Ok [n]
      else flat_mapM (leaves_aux fuel h) (Node.children nd)
  end.
Definition leaves (h : heap) (n : nat) : result (list nat) :=
  leaves_aux (Datatypes.length h) h n.

(** Modelled from the spec: [phylo3.Node.iternodes] is not under src/.
    Section 4.1: all nodes under node, inclusive, in pre-order (parent
    before children), the default order.  The callers stop consuming the
    sequence at the first mutation, so the lazy sequence is the list. *)
Fixpoint iternodes_aux (fuel : nat) (h : heap) (n : nat) : result (list nat) :=
  match fuel with
  | 0 => Raise RecursionError
  | S fuel =>
      nd ← deref h n;
      rest ← flat_mapM (iternodes_aux fuel h) (Node.children nd);
      Ok (n :: rest)
  end.
Definition iternodes (h : heap) (n : nat) : result (list nat) :=
  iternodes_aux (Datatypes.length h) h n.

(** The path from a node up to the parentless node above it, the node
    first.  A path longer than the arena repeats a node, and the walk
    never ends. *)
Fixpoint rootpath_aux (fuel : nat) (h : heap) (n : nat) : result (list nat) :=
  match fuel with
  | 0 => Raise Diverges
  | S fuel =>
      nd ← deref h n;
      match Node.parent nd with
      | None => Ok [n]
      | Some p => v ← rootpath_aux fuel h p; Ok (n :: v)
      end
  end.

(** One edge of the path at a time, from the old root down: the current
    parent [cp] becomes a child of [node] and takes over the length of the
    edge between them. *)
Fixpoint reroot_loop (h : heap) (v : list nat) : result heap :=
  match v with
  | cp :: ((node :: _) as rest) =>
      h1 ← remove_child h cp node;
      h2 ← add_child h1 node cp;
      nd ← deref h2 node;
      h3 ← modify h2 cp (Node.set_length (Node.length nd));
      reroot_loop h3 rest
  | _ => Ok h
  end.

(** Modelled from the spec: [phylo3.reroot] is not under src/.
    Section 4.1: reverses the parent/child relationship along the path from
    the old root to the target, the length of each edge kept and only its
    direction flipped; nothing changes when the target is the root already.
    The target is handed back as the new root; a target of [None] has no
    attributes. *)
Definition reroot (h : heap) (oldroot : nat) (newroot : option nat)
    : result (heap * nat) :=
  match newroot with
  | None => Raise AttributeError
  | Some newroot =>
      v ← rootpath_aux (S (Datatypes.length h)) h newroot;
      h' ← reroot_loop h (rev v);
      Ok (h', newroot)
  end.

End phylo3.

(** ** prune_paralogs_mo.py: names and tip labels *)

Definition period : Ascii.ascii := Ascii.ascii_of_nat 46.

(** [label.split(".")[0]]: the text before the first period. *)
Fixpoint split_first_field (s : string) : string :=
  match s with
  | EmptyString => EmptyString
  | String c s' =>
      if Ascii.eqb c period then EmptyString else String c (split_first_field s')
  end.

(** A label of [None] has no [split]. *)
Definition get_name (label : option string) : result string :=
  match label with
  | Some s => Ok (split_first_field s)
  | None => Raise AttributeError
  end.

Definition get_front_labels (h : heap) (node : nat) : result (list (option string)) :=
  leaves ← phylo3.leaves h node;
  mapM_result (λ i, Node.label <$> deref h i) leaves.

Definition get_back_labels (h : heap) (node root : nat) : result (gset (option string)) :=
  all_labels ← get_front_labels h root;
  front_labels ← get_front_labels h node;
  Ok (list_to_set all_labels ∖ list_to_set front_labels).

Definition get_front_names (h : heap) (node : nat) : result (list string) :=
  labels ← get_front_labels h node;
  mapM_result get_name labels.

Definition get_front_outgroup_names (h : heap) (node : nat) (outgroups : list string)
    : result (list string) :=
  names ← get_front_names h node;
  Ok (filter (λ i, i ∈ outgroups) names).

(** The names come in the iteration order of the label set, which the
    callers only count over. *)
Definition get_back_names (h : heap) (node root : nat) : result (list string) :=
  back_labels ← get_back_labels h node root;
  mapM_result get_name (elements back_labels).

(** [set(names)] *)
Definition name_set (names : list string) : gset string := list_to_set names.

(** cut_deep_paralogs.py *)
Definition count_taxa (h : heap) (node : nat) : result nat :=
  names ← get_front_names h node;
  Ok (size (name_set names)).

(** ** remove_kink *)

(** The child the root is moved to, [curroot.children[1]] if
    [curroot.children[0].istip] and [curroot.children[0]] otherwise. *)
Definition root_move_target (h : heap) (rt : Node.t) : result nat :=
  c0 ← from_option IndexError (Node.children rt !! 0);
  nd0 ← deref h c0;
  if Node.istip nd0 then (* the other child is not tip *)
    from_option IndexError (Node.children rt !! 1)
  else Ok c0.

(** Lines 134-139: move the root away to an adjacent none-tip. *)
Definition move_root_away (h : heap) (node curroot : nat) : result (heap * nat) :=
  if bool_decide (node = curroot) then
    rt ← deref h curroot;
    if bool_decide (Node.nchildren rt = 2) then
      target ← root_move_target h rt;
      phylo3.reroot h curroot (Some target)
    else Ok (h, curroot)
  else Ok (h, curroot).

Definition remove_kink (h : heap) (node curroot : nat) : result (heap * nat * nat) :=
  '(h, curroot) ← move_root_away h node curroot;
  (* ---node---< all nodes should have one child only now *)
  nd ← deref h node;
  child ← from_option IndexError (Node.children nd !! 0);
  cd ← deref h child;
  let length := (Node.length nd + Node.length cd)%float in
  let par := Node.parent nd in
  let kink := node in
  let node := child in
  (* parent--kink---node< *)
  p ← from_option AttributeError par;
  h ← phylo3.remove_child h p kink;
  h ← phylo3.add_child h p node;
  h ← modify h node (Node.set_length length);
  Ok (h, node, curroot).

(** ** reroot_with_monophyletic_outgroups *)

(** The first loop: the labels of the tips whose name is an outgroup name,
    and the tip each label belongs to. *)
Fixpoint outgroup_tips (h : heap) (outgroups : list string) (leaves : list nat)
    (outgroup_matches : gmap string nat) (outgroup_labels : list string)
    : result (gmap string nat * list string) :=
  match leaves with
  | [] => Ok (outgroup_matches, outgroup_labels)
  | leaf :: leaves =>
      nd ← deref h leaf;
      name ← get_name (Node.label nd);
      match Node.label nd with
      | Some label =>
          if bool_decide (name ∈ outgroups) then
            outgroup_tips h outgroups leaves
              (<[label := leaf]> outgroup_matches) (outgroup_labels ++ [label])
          else outgroup_tips h outgroups leaves outgroup_matches outgroup_labels
      | None => Raise AttributeError
      end
  end.

(** The counters of ingroup and outgroup names of one side of a node. *)
Definition count_in_out (outgroups : list string) (names : list string) : nat * nat :=
  foldl (λ '(n_in, n_out) i,
           if bool_decide (i ∈ outgroups) then (n_in, n_out + 1) else (n_in + 1, n_out))
        (0, 0) names.

(** The second loop, over [root.iternodes()]: the value of [newroot] when
    the loop is left. *)
Fixpoint find_newroot (h : heap) (root : nat) (outgroups : list string)
    (nodes : list nat) : result (option nat) :=
  match nodes with
  | [] => Ok None
  | node :: nodes =>
      if bool_decide (node = root) then find_newroot h root outgroups nodes
      else
        front_names ← get_front_names h node;
        back_names ← get_back_names h node root;
        let '(front_in_names, front_out_names) := count_in_out outgroups front_names in
        let '(back_in_names, back_out_names) := count_in_out outgroups back_names in
        if bool_decide (front_in_names = 0) && bool_decide (0 < front_out_names)
           && bool_decide (0 < back_in_names) && bool_decide (back_out_names = 0)
        then nd ← deref h node; Ok (Node.parent nd)
        else
        if bool_decide (0 < front_in_names) && bool_decide (front_out_names = 0)
           && bool_decide (back_in_names = 0) && bool_decide (0 < back_out_names)
        then nd ← deref h node; Ok (Node.parent nd)
        else find_newroot h root outgroups nodes
  end.

(** [None] is Python's [None]: the outgroup is not monophyletic. *)
Definition reroot_with_monophyletic_outgroups (h : heap) (root : nat)
    (outgroups : list string) : result (option (heap * nat)) :=
  leaves ← phylo3.leaves h root;
  '(outgroup_matches, outgroup_labels) ← outgroup_tips h outgroups leaves ∅ [];
  if bool_decide (Datatypes.length outgroup_labels = 1) then
    l0 ← from_option IndexError (outgroup_labels !! 0);
    tip ← from_option KeyError (outgroup_matches !! l0);
    nd ← deref h tip;
    Some <$> phylo3.reroot h root (Node.parent nd)
  else
    nodes ← phylo3.iternodes h root;
    newroot ← find_newroot h root outgroups nodes;
    match newroot with
    | Some _ => Some <$> phylo3.reroot h root newroot
    | None => Ok None
    end.

(** ** prune_paralogs_from_rerooted_homotree *)

(** [if len(name_set_a) > len(name_set_b)]: cut the side with fewer taxa,
    the first-listed side otherwise.  The calls of the logger are left out. *)
Definition cut_fewer (h : heap) (par a b : nat) (name_set_a name_set_b : gset string)
    : result heap :=
  if bool_decide (size name_set_b < size name_set_a) then
    h ← phylo3.remove_child h par b;
    '(h, _) ← phylo3.prune h b;
    Ok h
  else
    h ← phylo3.remove_child h par a;
    '(h, _) ← phylo3.prune h a;
    Ok h.

(** The two ingroup clades at the root: check for names overlap. *)
Definition cut_root_pair (h : heap) (root a b : nat) : result heap :=
  names_a ← get_front_names h a;
  names_b ← get_front_names h b;
  let name_set_a := name_set names_a in
  let name_set_b := name_set names_b in
  if bool_decide (0 < size (name_set_a ∩ name_set_b)) then
    cut_fewer h root a b name_set_a name_set_b
  else Ok h.

Definition has_duplicates (names : list string) : bool :=
  bool_decide (size (name_set names) < Datatypes.length names).

(** The body of the [for] loop of the pruning pass over the pre-order
    sequence of nodes: [Some] is the state at the [break], [None] a loop
    that ran to its end. *)
Fixpoint prune_scan (h : heap) (root : nat) (nodes : list nat)
    : result (option (heap * nat)) :=
  match nodes with
  | [] => Ok None
  | node :: nodes =>
      nd ← deref h node;
      if Node.istip nd then prune_scan h root nodes
      else if bool_decide (node = root) then prune_scan h root nodes
      else
        child0 ← from_option IndexError (Node.children nd !! 0);
        child1 ← from_option IndexError (Node.children nd !! 1);
        names0 ← get_front_names h child0;
        names1 ← get_front_names h child1;
        let name_set0 := name_set names0 in
        let name_set1 := name_set names1 in
        if bool_decide (0 < size (name_set0 ∩ name_set1)) then
          h ← cut_fewer h node child0 child1 name_set0 name_set1;
          '(h, node, root) ← remove_kink h node root;  (* no re-rooting here *)
          Ok (Some (h, root))
        else prune_scan h root nodes
  end.

(** The [while] loop.  A pass that ends without a [break] leaves the tree as
    it was, with the loop condition still true: the loop never ends.
    [fuel] bounds the number of passes. *)
Fixpoint prune_loop (fuel : nat) (h : heap) (root : nat) : result (heap * nat) :=
  names ← get_front_names h root;
  if has_duplicates names then
    match fuel with
    | 0 => Raise OutOfFuel
    | S fuel =>
        nodes ← phylo3.iternodes h root;
        r ← prune_scan h root nodes;
        match r with
        | Some (h, root) => prune_loop fuel h root
        | None => Raise Diverges
        end
    end
  else Ok (h, root).

(** Check for duplications at the root first. *)
Definition prune_root_level (h : heap) (root : nat) (outgroups : list string)
    : result heap :=
  rt ← deref h root;
  node0 ← from_option IndexError (Node.children rt !! 0);
  node1 ← from_option IndexError (Node.children rt !! 1);
  node2 ← from_option IndexError (Node.children rt !! 2);
  out0 ← Datatypes.length <$> get_front_outgroup_names h node0 outgroups;
  out1 ← Datatypes.length <$> get_front_outgroup_names h node1 outgroups;
  out2 ← Datatypes.length <$> get_front_outgroup_names h node2 outgroups;
  (* Identify the ingroup clades and check for names overlap *)
  if bool_decide (out0 = 0) && bool_decide (out1 = 0) then
    cut_root_pair h root node0 node1
  else if bool_decide (out1 = 0) && bool_decide (out2 = 0) then
    cut_root_pair h root node1 node2
  else if bool_decide (out0 = 0) && bool_decide (out2 = 0) then
    cut_root_pair h root node0 node2
  else Raise ValueError.

Definition prune_paralogs_from_rerooted_homotree (fuel : nat) (h : heap) (root : nat)
    (outgroups : list string) : result (heap * nat) :=
  names ← get_front_names h root;
  if bool_decide (Datatypes.length names = size (name_set names)) then
    Ok (h, root)  (* no pruning needed *)
  else
    h ← prune_root_level h root outgroups;
    (* If there are still taxon duplications in the ingroup clade, keep pruning *)
    prune_loop fuel h root.

(** ** prune_paralogs_mo.main: what is done with one tree file *)

(** The report dictionary a tree ends up in.  The files that are written
    for the tree are given with [mo_tree_files]. *)
Inductive mo_outcome : Type :=
  | unrecognised_taxon_names (names : list string)
  | fewer_than_minimum_taxa
  | one_to_one_orthologs (copied : bool)
  | no_outgroup_taxa
  | duplicate_taxa_in_outgroup
  | non_monophyletic_outgroups
  (* [.ortho.tre] is written from [ortho] in the heap [h] *)
  | mo_output_file_above_minimum_taxa (h : heap) (ortho : nat)
  (* no [.ortho.tre] is written *)
  | mo_output_file_below_minimum_taxa (h : heap) (curroot : nat).

(** Lines 576-582: fix a bifurcating root, then look for the monophyletic
    outgroup. *)
Definition mo_reroot (h : heap) (curroot : nat) (outgroups : list string)
    : result (option (heap * nat)) :=
  rt ← deref h curroot;
  '(h, curroot) ←
    (if bool_decide (Node.nchildren rt = 2) then  (* need to reroot *)
       '(h, temp, curroot) ← remove_kink h curroot curroot; Ok (h, curroot)
     else Ok (h, curroot));
  reroot_with_monophyletic_outgroups h curroot outgroups.

(** Lines 593-609: prune the re-rooted tree, then filter on the minimum
    number of taxa.  [curroot] is the variable that held the re-rooted tree
    before the call; the count is read through it after the call. *)
Definition mo_prune_and_filter (fuel : nat) (h : heap) (curroot : nat)
    (outgroups : list string) (minimum_taxa : nat) : result mo_outcome :=
  '(h, ortho) ← prune_paralogs_from_rerooted_homotree fuel h curroot outgroups;
  names ← get_front_names h curroot;
  if bool_decide (minimum_taxa ≤ size (name_set names)) then
    Ok (mo_output_file_above_minimum_taxa h ortho)
  else
    Ok (mo_output_file_below_minimum_taxa h curroot).

(** Lines 519-612, the body of the loop over the tree files: the report
    dictionary the tree is put into.  The [.reroot] file of lines 589-591
    and the other files written on the way are left to [mo_tree_files]. *)
Definition mo_tree (fuel : nat) (h : heap) (intree : nat)
    (ingroups outgroups : list string) (minimum_taxa : nat)
    (ignore_1to1_orthologs : bool) : result mo_outcome :=
  let curroot := intree in
  names ← get_front_names h curroot;
  let num_tips := Datatypes.length names in
  let num_taxa := size (name_set names) in
  let unrecognised :=
    filter (λ name, (name ∉ ingroups) ∧ (name ∉ outgroups)) names in
  if bool_decide (unrecognised ≠ []) then
    Ok (unrecognised_taxon_names unrecognised)
  else if bool_decide (num_taxa < minimum_taxa) then
    Ok fewer_than_minimum_taxa
  else if bool_decide (num_tips = num_taxa) then
    Ok (one_to_one_orthologs (negb ignore_1to1_orthologs))
  else
    outgroup_names ← get_front_outgroup_names h curroot outgroups;
    if bool_decide (Datatypes.length outgroup_names = 0) then
      Ok no_outgroup_taxa
    else if bool_decide (size (name_set outgroup_names) < Datatypes.length outgroup_names) then
      Ok duplicate_taxa_in_outgroup
    else
      r ← mo_reroot h curroot outgroups;
      match r with
      | Some (h, curroot) =>
          mo_prune_and_filter fuel h curroot outgroups minimum_taxa
      | None => Ok non_monophyletic_outgroups
      end.

(** * Properties *)

(** ** The [result] monad *)

Lemma bind_Ok {A B} (m : result A) (k : A → result B) (b : B) :
  m ≫= k = Ok b ↔ ∃ a, m = Ok a ∧ k a = Ok b.
Proof.
  destruct m as [a|e]; simpl.
  - split; [intros H; exists a; done | intros (a' & [= <-] & H); done].
  - split; [done | intros (a' & [=] & _)].
Qed.

Lemma fmap_Ok {A B} (f : A → B) (m : result A) (b : B) :
  f <$> m = Ok b ↔ ∃ a, m = Ok a ∧ b = f a.
Proof.
  destruct m as [a|e]; simpl.
  - split; [intros [= <-]; eauto | intros (a' & [= <-] & ->); done].
  - split; [done | intros (a' & [=] & _)].
Qed.

Lemma from_option_Ok {A} (e : exn) (o : option A) (a : A) :
  from_option e o = Ok a ↔ o = Some a.
Proof. destruct o; simpl; split; congruence. Qed.

Lemma deref_Ok (h : heap) (n : nat) (nd : Node.t) :
  deref h n = Ok nd ↔ h !! n = Some nd.
Proof. apply from_option_Ok. Qed.

Lemma deref_Some (h : heap) (n : nat) (nd : Node.t) :
  h !! n = Some nd → deref h n = Ok nd.
Proof. apply deref_Ok. Qed.

(** Breaks a run that returned into the runs of its steps. *)
Ltac inv_ok :=
  repeat match goal with
  | H : Ok _ = Ok _ |- _ => injection H as H; try subst
  | H : Raise _ = Ok _ |- _ => discriminate H
  | H : (_ ≫= _) = Ok _ |- _ =>
      let a := fresh "a" in let E := fresh "E" in
      apply bind_Ok in H as (a & E & H)
  | H : (_ <$> _) = Ok _ |- _ =>
      let a := fresh "a" in let E := fresh "E" in
      apply fmap_Ok in H as (a & E & H)
  | H : from_option _ _ = Ok _ |- _ => apply from_option_Ok in H
  | H : deref _ _ = Ok _ |- _ => apply deref_Ok in H
  | H : (let '(_, _) := ?p in _) = Ok _ |- _ => is_var p; destruct p
  end.

(** ** Attribute writes *)

Lemma modify_Ok (h : heap) (n : nat) (f : Node.t → Node.t) (nd : Node.t) :
  h !! n = Some nd → modify h n f = Ok (alter f n h).
Proof. intros H. unfold modify, deref. by rewrite H. Qed.

Lemma modify_inv (h h' : heap) (n : nat) (f : Node.t → Node.t) :
  modify h n f = Ok h' → h' = alter f n h ∧ is_Some (h !! n).
Proof. unfold modify. intros H. inv_ok. eauto. Qed.

(** A write that keeps an attribute [g] is not seen through [g], whichever
    cell it goes to. *)
Lemma lookup_alter_keep {B} (g : Node.t → B) (f : Node.t → Node.t)
    (h : heap) (i j : nat) :
  (∀ nd, g (f nd) = g nd) →
  g <$> alter f i h !! j = g <$> h !! j.
Proof.
  intros Hg. destruct (decide (i = j)) as [->|Hne].
  - rewrite list_lookup_alter_eq. destruct (h !! j) as [nd|]; simpl.
    + f_equal. apply Hg.
    + reflexivity.
  - by rewrite list_lookup_alter_ne.
Qed.

Lemma lookup_alter_set {B} (g : Node.t → B) (f : Node.t → Node.t)
    (h : heap) (i : nat) :
  g <$> alter f i h !! i = (g ∘ f) <$> h !! i.
Proof. rewrite list_lookup_alter_eq. by destruct (h !! i). Qed.

Lemma is_Some_alter (f : Node.t → Node.t) (h : heap) (i j : nat) :
  is_Some (alter f i h !! j) ↔ is_Some (h !! j).
Proof.
  destruct (decide (i = j)) as [->|Hne].
  - by rewrite list_lookup_alter_eq, fmap_is_Some.
  - by rewrite list_lookup_alter_ne.
Qed.

Lemma modify_is_Some (h : heap) (n : nat) (f : Node.t → Node.t) :
  is_Some (h !! n) → modify h n f = Ok (alter f n h).
Proof. intros [nd H]. by eapply modify_Ok. Qed.

Lemma remove_child_Ok (h : heap) (p child : nat) (pd : Node.t) :
  h !! p = Some pd → child ∈ Node.children pd → is_Some (h !! child) →
  phylo3.remove_child h p child =
    Ok (alter (Node.set_parent None) child
         (alter (Node.set_children (remove_first child (Node.children pd))) p h)).
Proof.
  intros Hp Hin Hc. unfold phylo3.remove_child, deref. rewrite Hp. simpl.
  rewrite bool_decide_eq_true_2 by done.
  rewrite (modify_Ok _ _ _ pd) by done. simpl.
  apply modify_is_Some. by apply is_Some_alter.
Qed.

Lemma add_child_Ok (h : heap) (p child : nat) (pd : Node.t) :
  h !! p = Some pd → is_Some (h !! child) →
  phylo3.add_child h p child =
    Ok (alter (Node.set_parent (Some p)) child
         (alter (Node.set_children (Node.children pd ++ [child])) p h)).
Proof.
  intros Hp Hc. unfold phylo3.add_child, deref. rewrite Hp. simpl.
  rewrite (modify_Ok _ _ _ pd) by done. simpl.
  apply modify_is_Some. by apply is_Some_alter.
Qed.

(** Reads of one attribute of one cell. *)
Definition children_of (h : heap) (n : nat) : option (list nat) :=
  Node.children <$> h !! n.
Definition parent_of (h : heap) (n : nat) : option (option nat) :=
  Node.parent <$> h !! n.
Definition length_of (h : heap) (n : nat) : option float :=
  Node.length <$> h !! n.

Lemma children_of_set_parent h i j p :
  children_of (alter (Node.set_parent p) i h) j = children_of h j.
Proof. by apply lookup_alter_keep. Qed.
Lemma children_of_set_length h i j x :
  children_of (alter (Node.set_length x) i h) j = children_of h j.
Proof. by apply lookup_alter_keep. Qed.
Lemma children_of_set_children h i cs :
  children_of (alter (Node.set_children cs) i h) i = (λ _, cs) <$> h !! i.
Proof. unfold children_of. by rewrite lookup_alter_set. Qed.
Lemma children_of_set_children_ne h i j cs :
  i ≠ j → children_of (alter (Node.set_children cs) i h) j = children_of h j.
Proof. intros. unfold children_of. by rewrite list_lookup_alter_ne. Qed.
Lemma parent_of_set_children h i j cs :
  parent_of (alter (Node.set_children cs) i h) j = parent_of h j.
Proof. by apply lookup_alter_keep. Qed.
Lemma parent_of_set_length h i j x :
  parent_of (alter (Node.set_length x) i h) j = parent_of h j.
Proof. by apply lookup_alter_keep. Qed.
Lemma parent_of_set_parent h i p :
  parent_of (alter (Node.set_parent p) i h) i = (λ _, p) <$> h !! i.
Proof. unfold parent_of. by rewrite lookup_alter_set. Qed.
Lemma parent_of_set_parent_ne h i j p :
  i ≠ j → parent_of (alter (Node.set_parent p) i h) j = parent_of h j.
Proof. intros. unfold parent_of. by rewrite list_lookup_alter_ne. Qed.
Lemma length_of_set_children h i j cs :
  length_of (alter (Node.set_children cs) i h) j = length_of h j.
Proof. by apply lookup_alter_keep. Qed.
Lemma length_of_set_parent h i j p :
  length_of (alter (Node.set_parent p) i h) j = length_of h j.
Proof. by apply lookup_alter_keep. Qed.
Lemma length_of_set_length h i x :
  length_of (alter (Node.set_length x) i h) i = (λ _, x) <$> h !! i.
Proof. unfold length_of. by rewrite lookup_alter_set. Qed.
Lemma length_of_set_length_ne h i j x :
  i ≠ j → length_of (alter (Node.set_length x) i h) j = length_of h j.
Proof. intros. unfold length_of. by rewrite list_lookup_alter_ne. Qed.

Lemma children_of_Some h n nd :
  h !! n = Some nd → children_of h n = Some (Node.children nd).
Proof. unfold children_of. by intros ->. Qed.
Lemma children_of_inv h n cs :
  children_of h n = Some cs → ∃ nd, h !! n = Some nd ∧ Node.children nd = cs.
Proof. unfold children_of. destruct (h !! n); intros [= <-]; eauto. Qed.

(** ** remove_kink on a node with one child *)

(** The run of [remove_kink] on a kink below a parent: no re-rooting, the
    kink is taken off its parent and its child appended there. *)
Lemma remove_kink_below_parent (h : heap) (node curroot child p : nat)
    (nd cd pd : Node.t) :
  h !! node = Some nd → Node.children nd = [child] → Node.parent nd = Some p →
  h !! child = Some cd → h !! p = Some pd → node ∈ Node.children pd →
  remove_kink h node curroot =
    Ok (alter (Node.set_length (Node.length nd + Node.length cd)) child
         (alter (Node.set_parent (Some p)) child
           (alter (Node.set_children (remove_first node (Node.children pd) ++ [child])) p
             (alter (Node.set_parent None) node
               (alter (Node.set_children (remove_first node (Node.children pd))) p h)))),
        child, curroot).
Proof.
  intros Hnode Hcs Hpar Hchild Hp Hin. unfold remove_kink.
  assert (Hskip : move_root_away h node curroot = Ok (h, curroot)).
  { unfold move_root_away. case_bool_decide as Heq; [|done]. subst curroot.
    rewrite (deref_Some _ _ _ Hnode). simpl.
    unfold Node.nchildren. rewrite Hcs. simpl. done. }
  rewrite Hskip. simpl.
  rewrite (deref_Some _ _ _ Hnode). simpl. rewrite Hcs. simpl.
  rewrite (deref_Some _ _ _ Hchild). simpl. rewrite Hpar. simpl.
  rewrite (remove_child_Ok h p node pd) by eauto. simpl.
  set (h1 := alter (Node.set_parent None) node _).
  assert (Hp1 : children_of h1 p = Some (remove_first node (Node.children pd))).
  { unfold h1. rewrite children_of_set_parent, children_of_set_children.
    by rewrite Hp. }
  apply children_of_inv in Hp1 as (pd1 & Hp1 & Hcs1).
  rewrite (add_child_Ok h1 p child pd1); [|done|].
  2:{ unfold h1. rewrite !is_Some_alter. eauto. }
  simpl. rewrite Hcs1.
  rewrite modify_is_Some; [done|].
  unfold h1. rewrite !is_Some_alter. eauto.
Qed.

Lemma fmap_const_is_Some {A B} (o : option A) (b : B) :
  is_Some o → (λ _, b) <$> o = Some b.
Proof. by intros [a ->]. Qed.

(** What the spec says of every call on a node with exactly one child. *)
Definition kink_removed_with_summed_length (h : heap) (node curroot : nat) : Prop :=
  ∀ nd child cd,
    h !! node = Some nd → Node.children nd = [child] → h !! child = Some cd →
    ∃ h' root',
      remove_kink h node curroot = Ok (h', child, root') ∧
      length_of h' child = Some (Node.length nd + Node.length cd)%float.

(** A root with a single child, [(A.1:0.5):0.25;]. *)
Definition root_kink : heap :=
  [ Node.mk None 0.25%float [1] None;
    Node.mk (Some "A.1") 0.5%float [] (Some 0) ].

(** C7, as stated, fails on a kink that has no parent: the call raises at
    [par.remove_child(kink)] and the length of the child is never written. *)
Lemma remove_kink_root_kink_raises :
  remove_kink root_kink 0 0 = Raise AttributeError ∧
  ¬ kink_removed_with_summed_length root_kink 0 0.
Proof.
  split; [reflexivity|].
  intros H. destruct (H _ 1 _ eq_refl eq_refl eq_refl) as (h' & r' & Hrun & _).
  discriminate Hrun.
Qed.

(** C7 (amended): for every call of [remove_kink] on a node with exactly
    one child and with a parent that lists it, the call returns the child,
    the child's length is exactly the sum of the kink's length and the
    child's original length, the child's parent is the kink's parent, and
    the parent's children are its former children without the kink, with the
    child appended. *)
Theorem remove_kink_sums_lengths_and_splices (h : heap) (node curroot child p : nat)
    (nd cd pd : Node.t) :
  h !! node = Some nd → Node.children nd = [child] → Node.parent nd = Some p →
  h !! child = Some cd → h !! p = Some pd → node ∈ Node.children pd →
  ∃ h',
    remove_kink h node curroot = Ok (h', child, curroot) ∧
    length_of h' child = Some (Node.length nd + Node.length cd)%float ∧
    parent_of h' child = Some (Some p) ∧
    children_of h' p = Some (remove_first node (Node.children pd) ++ [child]).
Proof.
  intros Hnode Hcs Hpar Hchild Hp Hin.
  eexists. split; [by eapply remove_kink_below_parent|].
  split; [|split].
  - rewrite length_of_set_length. apply fmap_const_is_Some.
    rewrite !is_Some_alter. eauto.
  - rewrite parent_of_set_length, parent_of_set_parent.
    apply fmap_const_is_Some. rewrite !is_Some_alter. eauto.
  - rewrite children_of_set_length, children_of_set_parent, children_of_set_children.
    apply fmap_const_is_Some. rewrite !is_Some_alter. eauto.
Qed.

(** [((A.1:0.5):0.25,B.1:0.5,C.1:0.5);]: node 1 is a kink below the root. *)
Definition kink_below_root : heap :=
  [ Node.mk None 0%float [1; 2; 3] None;
    Node.mk None 0.25%float [4] (Some 0);
    Node.mk (Some "B.1") 0.5%float [] (Some 0);
    Node.mk (Some "C.1") 0.5%float [] (Some 0);
    Node.mk (Some "A.1") 0.5%float [] (Some 1) ].

Lemma remove_kink_sums_lengths_and_splices_witness :
  ∃ h',
    remove_kink kink_below_root 1 0 = Ok (h', 4, 0) ∧
    length_of h' 4 = Some 0.75%float ∧
    parent_of h' 4 = Some (Some 0) ∧
    children_of h' 0 = Some [2; 3; 4].
Proof.
  apply (remove_kink_sums_lengths_and_splices kink_below_root 1 0 4 0
           (Node.mk None 0.25%float [4] (Some 0))
           (Node.mk (Some "A.1") 0.5%float [] (Some 1))
           (Node.mk None 0%float [1; 2; 3] None));
    try reflexivity.
  apply list_elem_of_here.
Defined.

(** ** remove_kink on a root with two children *)

(** What the spec says of the root with exactly two children: the child the
    root is moved to is not a tip. *)
Definition reroot_target_is_not_a_tip (h : heap) (curroot : nat) : Prop :=
  ∀ rt, h !! curroot = Some rt → Node.nchildren rt = 2 →
    ∃ target td,
      root_move_target h rt = Ok target ∧
      h !! target = Some td ∧ Node.istip td = false.

(** [(A.1:0.5,A.2:0.5);]: the two children of the root are tips. *)
Definition two_tips : heap :=
  [ Node.mk None 0%float [1; 2] None;
    Node.mk (Some "A.1") 0.5%float [] (Some 0);
    Node.mk (Some "A.2") 0.5%float [] (Some 0) ].

(** C9, as stated, fails on a root whose two children are both tips: the
    first child is a tip, so the second is taken, and it is a tip too. *)
Lemma root_move_target_two_tips :
  root_move_target two_tips (Node.mk None 0%float [1; 2] None) = Ok 2 ∧
  (Node.istip <$> two_tips !! 2) = Some true ∧
  ¬ reroot_target_is_not_a_tip two_tips 0.
Proof.
  split; [reflexivity|]. split; [reflexivity|].
  intros H. destruct (H _ eq_refl eq_refl) as (t & td & Ht & Htd & Htip).
  injection Ht as <-. injection Htd as <-. discriminate Htip.
Qed.

(** C9 (amended): for every call of [remove_kink] where node is the current
    root and the root has exactly two children that are not both tips, the
    tree is first rerooted onto the second child if the first is a tip and
    onto the first child otherwise, and this target is not a tip. *)
Theorem remove_kink_moves_root_to_non_tip (h : heap) (curroot c0 c1 : nat)
    (rt nd0 nd1 : Node.t) :
  h !! curroot = Some rt → Node.children rt = [c0; c1] →
  h !! c0 = Some nd0 → h !! c1 = Some nd1 →
  ¬ (Node.istip nd0 = true ∧ Node.istip nd1 = true) →
  ∃ target td,
    target = (if Node.istip nd0 then c1 else c0) ∧
    h !! target = Some td ∧ Node.istip td = false ∧
    move_root_away h curroot curroot = phylo3.reroot h curroot (Some target).
Proof.
  intros Hrt Hcs H0 H1 Hnot.
  exists (if Node.istip nd0 then c1 else c0),
         (if Node.istip nd0 then nd1 else nd0).
  split; [done|].
  assert (Htarget : root_move_target h rt =
                    Ok (if Node.istip nd0 then c1 else c0)).
  { unfold root_move_target. rewrite Hcs. simpl.
    rewrite (deref_Some _ _ _ H0). simpl. by destruct (Node.istip nd0). }
  split; [by destruct (Node.istip nd0)|]. split.
  - destruct (Node.istip nd0) eqn:E0; [|done].
    destruct (Node.istip nd1) eqn:E1; [|done]. by destruct Hnot.
  - unfold move_root_away. rewrite bool_decide_eq_true_2 by done.
    rewrite (deref_Some _ _ _ Hrt). simpl.
    unfold Node.nchildren. rewrite Hcs. simpl.
    by rewrite Htarget.
Qed.

(** [(A.1:0.5,(B.1:0.5,C.1:0.5):0.25);]: the first child of the root is a
    tip, the second is not. *)
Definition tip_and_clade : heap :=
  [ Node.mk None 0%float [1; 2] None;
    Node.mk (Some "A.1") 0.5%float [] (Some 0);
    Node.mk None 0.25%float [3; 4] (Some 0);
    Node.mk (Some "B.1") 0.5%float [] (Some 2);
    Node.mk (Some "C.1") 0.5%float [] (Some 2) ].

Lemma remove_kink_moves_root_to_non_tip_witness :
  ∃ target td,
    target = 2 ∧
    tip_and_clade !! target = Some td ∧ Node.istip td = false ∧
    move_root_away tip_and_clade 0 0 = phylo3.reroot tip_and_clade 0 (Some target).
Proof.
  apply (remove_kink_moves_root_to_non_tip tip_and_clade 0 1 2
           (Node.mk None 0%float [1; 2] None)
           (Node.mk (Some "A.1") 0.5%float [] (Some 0))
           (Node.mk None 0.25%float [3; 4] (Some 0)));
    try reflexivity.
  intros [_ H]. discriminate H.
Defined.

(** ** Name sets *)

Lemma name_set_cons (x : string) (l : list string) :
  name_set (x :: l) = {[x]} ∪ name_set l.
Proof. reflexivity. Qed.

Lemma elem_of_name_set (x : string) (l : list string) :
  x ∈ name_set l ↔ x ∈ l.
Proof. unfold name_set. apply elem_of_list_to_set. Qed.

Lemma size_name_set_cons (x : string) (l : list string) :
  size (name_set (x :: l)) =
    if decide (x ∈ l) then size (name_set l) else S (size (name_set l)).
Proof.
  rewrite name_set_cons. case_decide as Hin.
  - f_equal. apply elem_of_name_set in Hin. set_solver.
  - rewrite size_union by (rewrite <-elem_of_name_set in Hin; set_solver).
    by rewrite size_singleton.
Qed.

Lemma size_name_set_le (l : list string) :
  size (name_set l) ≤ Datatypes.length l.
Proof.
  induction l as [|x l IH]; [done|].
  rewrite size_name_set_cons. simpl. case_decide; lia.
Qed.

Lemma size_name_set_NoDup (l : list string) :
  size (name_set l) = Datatypes.length l ↔ NoDup l.
Proof.
  induction l as [|x l IH].
  - split; [constructor|done].
  - rewrite size_name_set_cons, NoDup_cons. simpl.
    pose proof (size_name_set_le l). case_decide as Hin.
    + split; [lia|]. intros [? _]. done.
    + rewrite <-IH. split; [intros ?; split; [done|lia] | intros [_ ->]; done].
Qed.

Lemma has_duplicates_false (l : list string) :
  has_duplicates l = false ↔ NoDup l.
Proof.
  unfold has_duplicates. rewrite bool_decide_eq_false, <-size_name_set_NoDup.
  pose proof (size_name_set_le l). lia.
Qed.

(** ** The root object does not change during pruning *)

Lemma move_root_away_other (h : heap) (node curroot : nat) :
  node ≠ curroot → move_root_away h node curroot = Ok (h, curroot).
Proof. intros Hne. unfold move_root_away. by rewrite bool_decide_eq_false_2. Qed.

Lemma remove_kink_keeps_root (h h' : heap) (node curroot node' root' : nat) :
  node ≠ curroot →
  remove_kink h node curroot = Ok (h', node', root') → root' = curroot.
Proof.
  intros Hne H. unfold remove_kink in H.
  rewrite move_root_away_other in H by done. simpl in H.
  inv_ok. done.
Qed.

Lemma prune_scan_keeps_root (h h' : heap) (root root' : nat) (nodes : list nat) :
  prune_scan h root nodes = Ok (Some (h', root')) → root' = root.
Proof.
  induction nodes as [|node nodes IH]; simpl; [done|].
  intros H. inv_ok.
  destruct (Node.istip a); [by apply IH|].
  case_bool_decide as Hroot; [by apply IH|].
  inv_ok.
  case_bool_decide; [|by apply IH].
  inv_ok. eapply remove_kink_keeps_root; [|done]. done.
Qed.

(** When the [while] loop is left, the names of the tips of the root have no
    duplicate, and the root is the object it was. *)
Lemma prune_loop_Ok (fuel : nat) (h h' : heap) (root root' : nat) :
  prune_loop fuel h root = Ok (h', root') →
  root' = root ∧
  ∃ names, get_front_names h' root' = Ok names ∧ NoDup names.
Proof.
  revert h root. induction fuel as [|fuel IH]; intros h root H; simpl in H.
  - inv_ok. destruct (has_duplicates a) eqn:Hdup; [done|].
    inv_ok. split; [done|]. exists a. split; [done|].
    by apply has_duplicates_false.
  - inv_ok. destruct (has_duplicates a) eqn:Hdup.
    + inv_ok. destruct a1 as [[h1 root1]|]; [|done].
      apply prune_scan_keeps_root in E1 as ->.
      by apply IH in H.
    + inv_ok. split; [done|]. exists a. split; [done|].
      by apply has_duplicates_false.
Qed.

Lemma prune_paralogs_Ok (fuel : nat) (h h' : heap) (root root' : nat)
    (outgroups : list string) :
  prune_paralogs_from_rerooted_homotree fuel h root outgroups = Ok (h', root') →
  root' = root ∧
  ∃ names, get_front_names h' root' = Ok names ∧ NoDup names.
Proof.
  unfold prune_paralogs_from_rerooted_homotree. intros H. inv_ok.
  case_bool_decide as Hlen.
  - inv_ok. split; [done|]. exists a. split; [done|].
    by apply size_name_set_NoDup.
  - inv_ok. by apply prune_loop_Ok in H.
Qed.

(** ** The pruned tree and the minimum-taxa filter *)

(** [((A.1:0.5,B.1:0.5):0.5,(A.2:0.5,C.1:0.5):0.5,OUT.1:0.5);], a tree with
    one outgroup tip below a trifurcating root: re-rooting leaves it as it
    is. *)
Definition two_ingroup_clades : heap :=
  [ Node.mk None 0%float [1; 2; 3] None;
    Node.mk None 0.5%float [4; 5] (Some 0);
    Node.mk None 0.5%float [6; 7] (Some 0);
    Node.mk (Some "OUT.1") 0.5%float [] (Some 0);
    Node.mk (Some "A.1") 0.5%float [] (Some 1);
    Node.mk (Some "B.1") 0.5%float [] (Some 1);
    Node.mk (Some "A.2") 0.5%float [] (Some 2);
    Node.mk (Some "C.1") 0.5%float [] (Some 2) ].

(** The heap after pruning: the clade of A.1 and B.1 is cut off the root. *)
Definition two_ingroup_clades_pruned : heap :=
  [ Node.mk None 0%float [2; 3] None;
    Node.mk None 0.5%float [4; 5] None;
    Node.mk None 0.5%float [6; 7] (Some 0);
    Node.mk (Some "OUT.1") 0.5%float [] (Some 0);
    Node.mk (Some "A.1") 0.5%float [] (Some 1);
    Node.mk (Some "B.1") 0.5%float [] (Some 1);
    Node.mk (Some "A.2") 0.5%float [] (Some 2);
    Node.mk (Some "C.1") 0.5%float [] (Some 2) ].

Lemma two_ingroup_clades_run :
  mo_reroot two_ingroup_clades 0 ["OUT"] = Ok (Some (two_ingroup_clades, 0)) ∧
  prune_paralogs_from_rerooted_homotree 10 two_ingroup_clades 0 ["OUT"] =
    Ok (two_ingroup_clades_pruned, 0).
Proof. split; vm_compute; reflexivity. Qed.

(** What the spec says of the filter: the pruned tree is written if and only
    if the count of the re-rooted tree before pruning reaches the minimum. *)
Definition written_iff_count_before_pruning (fuel : nat) (h : heap) (curroot : nat)
    (outgroups : list string) (minimum_taxa : nat) : Prop :=
  ∀ n, count_taxa h curroot = Ok n →
    (∃ h' ortho, mo_prune_and_filter fuel h curroot outgroups minimum_taxa =
                   Ok (mo_output_file_above_minimum_taxa h' ortho))
    ↔ minimum_taxa ≤ n.

(** C1, as stated, fails: the re-rooted tree has the four taxa A, B, C and
    OUT, the minimum is four, and no tree is written, as the pruned tree has
    three. *)
Lemma filter_counts_after_pruning_example :
  count_taxa two_ingroup_clades 0 = Ok 4 ∧
  mo_tree 10 two_ingroup_clades 0 ["A"; "B"; "C"] ["OUT"] 4 false =
    Ok (mo_output_file_below_minimum_taxa two_ingroup_clades_pruned 0) ∧
  ¬ written_iff_count_before_pruning 10 two_ingroup_clades 0 ["OUT"] 4.
Proof.
  split; [vm_compute; reflexivity|]. split; [vm_compute; reflexivity|].
  intros H. destruct (H 4) as [_ Hw]; [vm_compute; reflexivity|].
  destruct Hw as (h' & ortho & Hrun); [lia|].
  vm_compute in Hrun. discriminate Hrun.
Qed.

(** C1 (amended): after a successful re-rooting and pruning, the tree
    handed back by [prune_paralogs_from_rerooted_homotree] is the re-rooted
    tree object itself, pruned in place, and the decision compares the
    unique-taxon count of this pruned tree against the minimum: the pruned
    tree is written if and only if its own count is >= the minimum. *)
Theorem mo_filter_counts_pruned_tree (fuel : nat) (h h' : heap) (curroot ortho : nat)
    (outgroups : list string) (minimum_taxa : nat) :
  prune_paralogs_from_rerooted_homotree fuel h curroot outgroups = Ok (h', ortho) →
  ortho = curroot ∧
  ∃ n, count_taxa h' ortho = Ok n ∧
    mo_prune_and_filter fuel h curroot outgroups minimum_taxa =
      Ok (if bool_decide (minimum_taxa ≤ n)
          then mo_output_file_above_minimum_taxa h' ortho
          else mo_output_file_below_minimum_taxa h' curroot).
Proof.
  intros Hrun. destruct (prune_paralogs_Ok _ _ _ _ _ _ Hrun) as (-> & names & Hn & _).
  split; [done|]. exists (size (name_set names)).
  unfold count_taxa, mo_prune_and_filter. rewrite Hrun. simpl.
  rewrite Hn. simpl. split; [done|]. by case_bool_decide.
Qed.

Lemma mo_filter_counts_pruned_tree_witness :
  0 = 0 ∧
  ∃ n, count_taxa two_ingroup_clades_pruned 0 = Ok n ∧
    mo_prune_and_filter 10 two_ingroup_clades 0 ["OUT"] 3 =
      Ok (if bool_decide (3 ≤ n)
          then mo_output_file_above_minimum_taxa two_ingroup_clades_pruned 0
          else mo_output_file_below_minimum_taxa two_ingroup_clades_pruned 0).
Proof.
  apply (mo_filter_counts_pruned_tree 10 two_ingroup_clades
           two_ingroup_clades_pruned 0 0 ["OUT"] 3).
  vm_compute. reflexivity.
Defined.

(** C5: whenever [prune_paralogs_from_rerooted_homotree] returns, the names
    of the tips of the returned tree have no duplicate at all, so no ingroup
    taxon appears more than once. *)
Theorem pruned_tree_is_single_copy (fuel : nat) (h h' : heap) (root root' : nat)
    (outgroups : list string) :
  prune_paralogs_from_rerooted_homotree fuel h root outgroups = Ok (h', root') →
  ∃ names, get_front_names h' root' = Ok names ∧
    NoDup names ∧ NoDup (filter (λ i, i ∉ outgroups) names).
Proof.
  intros Hrun. destruct (prune_paralogs_Ok _ _ _ _ _ _ Hrun) as (_ & names & Hn & Hnd).
  exists names. split; [done|]. split; [done|]. by apply NoDup_filter.
Qed.

Lemma pruned_tree_is_single_copy_witness :
  ∃ names, get_front_names two_ingroup_clades_pruned 0 = Ok names ∧
    NoDup names ∧ NoDup (filter (λ i, i ∉ ["OUT"]) names).
Proof.
  apply (pruned_tree_is_single_copy 10 two_ingroup_clades
           two_ingroup_clades_pruned 0 0 ["OUT"]).
  vm_compute. reflexivity.
Defined.

(** ** Which clade of an intersecting pair is cut *)

(** The heap after [par.remove_child(child)], [cs] the children of [par]. *)
Definition detach (h : heap) (par child : nat) (cs : list nat) : heap :=
  alter (Node.set_parent None) child
    (alter (Node.set_children (remove_first child cs)) par h).

Lemma parent_of_inv h n p :
  parent_of h n = Some p → ∃ nd, h !! n = Some nd ∧ Node.parent nd = p.
Proof. unfold parent_of. destruct (h !! n); intros [= <-]; eauto. Qed.

(** [prune] of a node that has no parent does nothing. *)
Lemma prune_detached (h : heap) (n : nat) :
  parent_of h n = Some None → phylo3.prune h n = Ok (h, None).
Proof.
  intros (nd & Hn & Hp)%parent_of_inv. unfold phylo3.prune.
  rewrite (deref_Some _ _ _ Hn). simpl. by rewrite Hp.
Qed.

Lemma parent_of_detach (h : heap) (par child : nat) (cs : list nat) :
  is_Some (h !! child) → parent_of (detach h par child cs) child = Some None.
Proof.
  intros Hc. unfold detach. rewrite parent_of_set_parent.
  apply fmap_const_is_Some. by rewrite is_Some_alter.
Qed.

Lemma children_of_detach (h : heap) (par child : nat) (cs : list nat) :
  is_Some (h !! par) →
  children_of (detach h par child cs) par = Some (remove_first child cs).
Proof.
  intros Hp. unfold detach.
  rewrite children_of_set_parent, children_of_set_children.
  by apply fmap_const_is_Some.
Qed.

Lemma remove_then_prune (h : heap) (par child : nat) (pd : Node.t) :
  h !! par = Some pd → child ∈ Node.children pd → is_Some (h !! child) →
  (h1 ← phylo3.remove_child h par child;
   '(h2, _) ← phylo3.prune h1 child; Ok h2) =
  Ok (detach h par child (Node.children pd)).
Proof.
  intros Hp Hin Hc. rewrite (remove_child_Ok h par child pd) by done. simpl.
  fold (detach h par child (Node.children pd)).
  rewrite prune_detached by (by apply parent_of_detach). done.
Qed.

(** The clade that is cut: the second-listed one if the first has strictly
    more names, the first-listed one otherwise. *)
Definition fewer_taxa (a b : nat) (name_set_a name_set_b : gset string) : nat :=
  if bool_decide (size name_set_b < size name_set_a) then b else a.

Lemma cut_fewer_Ok (h : heap) (par a b : nat) (pd : Node.t)
    (name_set_a name_set_b : gset string) :
  h !! par = Some pd → a ∈ Node.children pd → b ∈ Node.children pd →
  is_Some (h !! a) → is_Some (h !! b) →
  cut_fewer h par a b name_set_a name_set_b =
    Ok (detach h par (fewer_taxa a b name_set_a name_set_b) (Node.children pd)).
Proof.
  intros Hp Ha Hb Hsa Hsb. unfold cut_fewer, fewer_taxa.
  case_bool_decide; by apply remove_then_prune.
Qed.

Definition names_intersect (names_a names_b : list string) : Prop :=
  ∃ x, x ∈ names_a ∧ x ∈ names_b.

Lemma size_intersection_pos (names_a names_b : list string) :
  0 < size (name_set names_a ∩ name_set names_b) ↔ names_intersect names_a names_b.
Proof.
  unfold names_intersect. split.
  - intros [x Hx]%size_pos_elem_of. exists x.
    apply elem_of_intersection in Hx. by rewrite <-!elem_of_name_set.
  - intros (x & Ha & Hb).
    destruct (size (name_set names_a ∩ name_set names_b)) eqn:Hsz; [|lia].
    apply size_empty_iff in Hsz. rewrite <-!elem_of_name_set in *. set_solver.
Qed.

Lemma leaves_aux_is_Some (fuel : nat) (h : heap) (n : nat) (l : list nat) :
  phylo3.leaves_aux fuel h n = Ok l → is_Some (h !! n).
Proof. destruct fuel; simpl; intros H; inv_ok. eauto. Qed.

Lemma get_front_names_is_Some (h : heap) (n : nat) (names : list string) :
  get_front_names h n = Ok names → is_Some (h !! n).
Proof.
  unfold get_front_names, get_front_labels, phylo3.leaves. intros H. inv_ok.
  by eapply leaves_aux_is_Some.
Qed.

(** C10: every comparison of two intersecting clades cuts the first-listed
    clade unless its name set is strictly larger than the second's, in
    which case the second-listed clade is cut; on a tie the first-listed one
    is cut.  (1) The pair compared at the root is always taken in child
    order.  (2) At the root, the clade that is cut is taken off the children
    of the root and loses its parent.  (3) In the pruning pass, the child
    that is cut is taken off the node before the kink is removed. *)
Theorem ties_cut_the_first_listed_clade :
  (∀ h root outgroups rt node0 node1 node2 rest,
     h !! root = Some rt → Node.children rt = node0 :: node1 :: node2 :: rest →
     prune_root_level h root outgroups = cut_root_pair h root node0 node1 ∨
     prune_root_level h root outgroups = cut_root_pair h root node1 node2 ∨
     prune_root_level h root outgroups = cut_root_pair h root node0 node2 ∨
     ∃ e, prune_root_level h root outgroups = Raise e) ∧
  (∀ h root rt a b names_a names_b,
     h !! root = Some rt → a ∈ Node.children rt → b ∈ Node.children rt →
     get_front_names h a = Ok names_a → get_front_names h b = Ok names_b →
     names_intersect names_a names_b →
     let cut := if bool_decide (size (name_set names_b) < size (name_set names_a))
                then b else a in
     ∃ h', cut_root_pair h root a b = Ok h' ∧
       children_of h' root = Some (remove_first cut (Node.children rt)) ∧
       parent_of h' cut = Some None) ∧
  (∀ h root node nodes nd child0 child1 rest names0 names1,
     h !! node = Some nd → node ≠ root →
     Node.children nd = child0 :: child1 :: rest →
     get_front_names h child0 = Ok names0 → get_front_names h child1 = Ok names1 →
     names_intersect names0 names1 →
     let cut := if bool_decide (size (name_set names1) < size (name_set names0))
                then child1 else child0 in
     prune_scan h root (node :: nodes) =
       '(h', _, root') ← remove_kink (detach h node cut (Node.children nd)) node root;
       Ok (Some (h', root'))).
Proof.
  split; [|split].
  - intros h root outgroups rt node0 node1 node2 rest Hrt Hcs.
    unfold prune_root_level. rewrite (deref_Some _ _ _ Hrt). simpl.
    rewrite Hcs. simpl.
    destruct (get_front_outgroup_names h node0 outgroups) as [o0|e];
      simpl; [|eauto 10].
    destruct (get_front_outgroup_names h node1 outgroups) as [o1|e];
      simpl; [|eauto 10].
    destruct (get_front_outgroup_names h node2 outgroups) as [o2|e];
      simpl; [|eauto 10].
    repeat case_bool_decide; simpl; eauto 10.
  - intros h root rt a b names_a names_b Hrt Ha Hb Hna Hnb Hint cut.
    exists (detach h root cut (Node.children rt)).
    split; [|split].
    + unfold cut_root_pair. rewrite Hna, Hnb. simpl.
      rewrite bool_decide_eq_true_2 by (by apply size_intersection_pos).
      eapply cut_fewer_Ok; eauto using get_front_names_is_Some.
    + apply children_of_detach. eauto.
    + apply parent_of_detach. unfold cut.
      case_bool_decide; eauto using get_front_names_is_Some.
  - intros h root node nodes nd child0 child1 rest names0 names1
      Hnode Hne Hcs Hn0 Hn1 Hint cut. simpl.
    rewrite (deref_Some _ _ _ Hnode). simpl.
    assert (Htip : Node.istip nd = false).
    { unfold Node.istip. rewrite Hcs. done. }
    rewrite Htip. rewrite bool_decide_eq_false_2 by done.
    rewrite Hcs. simpl. rewrite Hn0, Hn1. simpl.
    rewrite bool_decide_eq_true_2 by (by apply size_intersection_pos).
    rewrite (cut_fewer_Ok h node child0 child1 nd);
      [|done|rewrite Hcs; set_solver|rewrite Hcs; set_solver
       |eauto using get_front_names_is_Some..].
    simpl. rewrite Hcs. reflexivity.
Qed.

(** At the root of [two_ingroup_clades] the clades {A, B} and {A, C} tie:
    the first-listed one is cut. *)
Lemma ties_cut_the_first_listed_clade_witness :
  ∃ h', cut_root_pair two_ingroup_clades 0 1 2 = Ok h' ∧
    children_of h' 0 = Some [2; 3] ∧
    parent_of h' 1 = Some None.
Proof.
  apply (proj1 (proj2 ties_cut_the_first_listed_clade)
           two_ingroup_clades 0 (Node.mk None 0%float [1; 2; 3] None) 1 2
           ["A"; "B"] ["A"; "C"]).
  - reflexivity.
  - apply list_elem_of_here.
  - apply list_elem_of_further, list_elem_of_here.
  - vm_compute. reflexivity.
  - vm_compute. reflexivity.
  - exists "A". split; apply list_elem_of_here.
Defined.

(** ** Where the fatal error can come from *)

(** Only the root-level check raises [ValueError]; no other step of the
    pruning does. *)
Definition no_ValueError {A} (m : result A) : Prop := m ≠ Raise ValueError.

Lemma nve_Ok {A} (a : A) : no_ValueError (Ok a).
Proof. done. Qed.

Lemma nve_Raise {A} (e : exn) : e ≠ ValueError → no_ValueError (@Raise A e).
Proof. intros He [= ->]. done. Qed.

Lemma nve_bind {A B} (m : result A) (k : A → result B) :
  no_ValueError m → (∀ a, no_ValueError (k a)) → no_ValueError (m ≫= k).
Proof. destruct m as [a|e]; simpl; [auto|]. intros Hm _ [= ->]. by apply Hm. Qed.

Lemma nve_fmap {A B} (f : A → B) (m : result A) :
  no_ValueError m → no_ValueError (f <$> m).
Proof. destruct m as [a|e]; simpl; [done|]. intros Hm [= ->]. by apply Hm. Qed.

Lemma nve_from_option {A} (e : exn) (o : option A) :
  e ≠ ValueError → no_ValueError (from_option e o).
Proof. destruct o; simpl; [done|]. apply nve_Raise. Qed.

Lemma nve_deref (h : heap) (n : nat) : no_ValueError (deref h n).
Proof. by apply nve_from_option. Qed.

Create HintDb nve discriminated.
#[local] Hint Resolve nve_Ok nve_deref : nve.

(** One step through a run: a bind, a branch, or a leaf. *)
Ltac nve_step :=
  first
    [ solve [auto with nve]
    | apply nve_Raise; discriminate
    | apply nve_from_option; discriminate
    | apply nve_bind; [|intros ?]
    | apply nve_fmap
    | progress cbv zeta
    | case_bool_decide
    | case_match ].
Ltac nve := intros; repeat nve_step.

Lemma nve_modify h n f : no_ValueError (modify h n f).
Proof. unfold modify. nve. Qed.
#[local] Hint Resolve nve_modify : nve.

Lemma nve_flat_mapM {A B} (f : A → result (list B)) (l : list A) :
  (∀ x, no_ValueError (f x)) → no_ValueError (flat_mapM f l).
Proof. intros Hf. induction l; simpl; nve. Qed.

Lemma nve_mapM_result {A B} (f : A → result B) (l : list A) :
  (∀ x, no_ValueError (f x)) → no_ValueError (mapM_result f l).
Proof. intros Hf. induction l; simpl; nve. Qed.

Lemma nve_remove_child h p c : no_ValueError (phylo3.remove_child h p c).
Proof. unfold phylo3.remove_child. nve. Qed.
Lemma nve_add_child h p c : no_ValueError (phylo3.add_child h p c).
Proof. unfold phylo3.add_child. nve. Qed.
#[local] Hint Resolve nve_remove_child nve_add_child : nve.

Lemma nve_prune h n : no_ValueError (phylo3.prune h n).
Proof. unfold phylo3.prune. nve. Qed.

Lemma nve_leaves_aux fuel h n : no_ValueError (phylo3.leaves_aux fuel h n).
Proof.
  revert n. induction fuel as [|fuel IH]; intros n; simpl; nve.
  by apply nve_flat_mapM.
Qed.

Lemma nve_iternodes_aux fuel h n : no_ValueError (phylo3.iternodes_aux fuel h n).
Proof.
  revert n. induction fuel as [|fuel IH]; intros n; simpl; nve.
  by apply nve_flat_mapM.
Qed.

Lemma nve_rootpath_aux fuel h n : no_ValueError (phylo3.rootpath_aux fuel h n).
Proof. revert n. induction fuel as [|fuel IH]; intros n; simpl; nve. Qed.

Lemma nve_reroot_loop h v : no_ValueError (phylo3.reroot_loop h v).
Proof.
  revert h. induction v as [|cp v IH]; intros h; [apply nve_Ok|].
  destruct v as [|node v]; [apply nve_Ok|].
  change (no_ValueError (
    h1 ← phylo3.remove_child h cp node;
    h2 ← phylo3.add_child h1 node cp;
    nd ← deref h2 node;
    h3 ← modify h2 cp (Node.set_length (Node.length nd));
    phylo3.reroot_loop h3 (node :: v))).
  nve.
Qed.
#[local] Hint Resolve nve_prune nve_leaves_aux nve_iternodes_aux
  nve_rootpath_aux nve_reroot_loop : nve.

Lemma nve_reroot h r n : no_ValueError (phylo3.reroot h r n).
Proof. unfold phylo3.reroot. nve. Qed.
#[local] Hint Resolve nve_reroot : nve.

Lemma nve_get_front_names h n : no_ValueError (get_front_names h n).
Proof.
  unfold get_front_names, get_front_labels, phylo3.leaves. nve.
  - apply nve_mapM_result. nve.
  - apply nve_mapM_result. intros []; simpl; nve.
Qed.
#[local] Hint Resolve nve_get_front_names : nve.

Lemma nve_remove_kink h node root : no_ValueError (remove_kink h node root).
Proof. unfold remove_kink, move_root_away, root_move_target. nve. Qed.

Lemma nve_cut_fewer h par a b sa sb : no_ValueError (cut_fewer h par a b sa sb).
Proof. unfold cut_fewer. nve. Qed.
#[local] Hint Resolve nve_remove_kink nve_cut_fewer : nve.

Lemma nve_cut_root_pair h root a b : no_ValueError (cut_root_pair h root a b).
Proof. unfold cut_root_pair. nve. Qed.

Lemma nve_prune_scan h root nodes : no_ValueError (prune_scan h root nodes).
Proof. induction nodes as [|node nodes IH]; simpl; nve. Qed.
#[local] Hint Resolve nve_cut_root_pair nve_prune_scan : nve.

Lemma nve_prune_loop fuel h root : no_ValueError (prune_loop fuel h root).
Proof.
  revert h root. induction fuel as [|fuel IH]; intros h root; simpl; nve.
  unfold phylo3.iternodes. nve.
Qed.

(** C4: on a tree with duplicate taxa and a trifurcating root, the call
    raises the fatal [ValueError] if and only if more than one of the three
    root children has outgroup tips; with at most one such child no step of
    the call raises it. *)
Theorem fatal_error_iff_two_outgroup_clades (fuel : nat) (h : heap) (root : nat)
    (outgroups : list string) (rt : Node.t) (node0 node1 node2 : nat)
    (names out0 out1 out2 : list string) :
  h !! root = Some rt → Node.children rt = [node0; node1; node2] →
  get_front_names h root = Ok names → ¬ NoDup names →
  get_front_outgroup_names h node0 outgroups = Ok out0 →
  get_front_outgroup_names h node1 outgroups = Ok out1 →
  get_front_outgroup_names h node2 outgroups = Ok out2 →
  prune_paralogs_from_rerooted_homotree fuel h root outgroups = Raise ValueError
  ↔ (out0 ≠ [] ∧ out1 ≠ []) ∨ (out1 ≠ [] ∧ out2 ≠ []) ∨ (out0 ≠ [] ∧ out2 ≠ []).
Proof.
  intros Hrt Hcs Hnames Hdup H0 H1 H2.
  unfold prune_paralogs_from_rerooted_homotree. rewrite Hnames. simpl.
  rewrite bool_decide_eq_false_2
    by (intros Heq; by apply Hdup, size_name_set_NoDup).
  unfold prune_root_level. rewrite (deref_Some _ _ _ Hrt). simpl.
  rewrite Hcs. simpl. rewrite H0, H1, H2. simpl.
  assert (Hgo : ∀ a b,
    (h' ← cut_root_pair h root a b; prune_loop fuel h' root) ≠ Raise ValueError).
  { intros a b. apply nve_bind; [apply nve_cut_root_pair|].
    intros h'. apply nve_prune_loop. }
  destruct out0 as [|x0 out0], out1 as [|x1 out1], out2 as [|x2 out2]; simpl;
    (split; [intros Hraise; try (by apply Hgo in Hraise); auto 10
            | intros Hmany; try reflexivity; exfalso; naive_solver]).
Qed.

Lemma fatal_error_iff_two_outgroup_clades_witness :
  prune_paralogs_from_rerooted_homotree 10 two_ingroup_clades 0 ["OUT"]
    = Raise ValueError
  ↔ (@nil string ≠ [] ∧ @nil string ≠ []) ∨ (@nil string ≠ [] ∧ ["OUT"] ≠ [])
    ∨ (@nil string ≠ [] ∧ ["OUT"] ≠ []).
Proof.
  apply (fatal_error_iff_two_outgroup_clades 10 two_ingroup_clades 0 ["OUT"]
           (Node.mk None 0%float [1; 2; 3] None) 1 2 3
           ["A"; "B"; "A"; "C"; "OUT"] [] [] ["OUT"]);
    try (vm_compute; reflexivity).
  intros Hnd. apply NoDup_cons in Hnd as [Hin _]. apply Hin.
  apply list_elem_of_further, list_elem_of_here.
Defined.

(** [(OUT1.1:0.5,OUT2.1:0.5,(A.1:0.5,A.2:0.5):0.5);]: two root children
    with outgroup tips. *)
Definition two_outgroup_children : heap :=
  [ Node.mk None 0%float [1; 2; 3] None;
    Node.mk (Some "OUT1.1") 0.5%float [] (Some 0);
    Node.mk (Some "OUT2.1") 0.5%float [] (Some 0);
    Node.mk None 0.5%float [4; 5] (Some 0);
    Node.mk (Some "A.1") 0.5%float [] (Some 3);
    Node.mk (Some "A.2") 0.5%float [] (Some 3) ].

Example two_outgroup_children_raise :
  prune_paralogs_from_rerooted_homotree 10 two_outgroup_children 0 ["OUT1"; "OUT2"]
    = Raise ValueError.
Proof. vm_compute. reflexivity. Qed.

(** * cut_deep_paralogs.py *)

(** The reasons recorded in [subtrees_discarded], with the values the
    message is formatted from.  Both child messages print the length of
    [child0_node] for either child. *)
Inductive discard_reason : Type :=
  | child0_node_has_fewer_than_4_taxa (node_length cutoff child0_length : float)
  | child1_node_has_fewer_than_4_taxa (node_length cutoff child0_length : float)
  | remaining_tree_has_fewer_than_4_taxa.

Section cut_deep_paralogs.

(** [newick3.tostring], which is not under src/: the key of a discarded
    subtree. *)
Variable tostring : heap → nat → string.

Variable internal_branch_length_cutoff : float.

(** Lines 74-94: both children of the long branch are clades of their own. *)
Definition cut_split (h : heap) (nd : Node.t) (child0_node child1_node : nat)
    (c0 : Node.t) (subtrees : list nat) (subtrees_discarded : gmap string discard_reason)
    : result (list nat * gmap string discard_reason) :=
  n0 ← count_taxa h child0_node;
  let '(subtrees, subtrees_discarded) :=
    if bool_decide (4 ≤ n0) then (subtrees ++ [child0_node], subtrees_discarded)
    else (subtrees,
          <[tostring h child0_node :=
              child0_node_has_fewer_than_4_taxa (Node.length nd)
                internal_branch_length_cutoff (Node.length c0)]> subtrees_discarded) in
  n1 ← count_taxa h child1_node;
  if bool_decide (4 ≤ n1) then Ok (subtrees ++ [child1_node], subtrees_discarded)
  else Ok (subtrees,
           <[tostring h child1_node :=
               child1_node_has_fewer_than_4_taxa (Node.length nd)
                 internal_branch_length_cutoff (Node.length c0)]> subtrees_discarded).

(** Lines 63-107, the body of [if node.length > internal_branch_length_cutoff].
    The last component is [going]. *)
Definition cut_branch (h : heap) (curroot node : nat) (nd : Node.t)
    (child0_node child1_node : nat)
    (subtrees : list nat) (subtrees_discarded : gmap string discard_reason)
    : result (heap * nat * list nat * gmap string discard_reason * bool) :=
  c0 ← deref h child0_node;
  c1 ← deref h child1_node;
  '(subtrees, subtrees_discarded) ←
    (if negb (Node.istip c0) && negb (Node.istip c1)
        && (internal_branch_length_cutoff <? Node.length c0 + Node.length c1)%float
     then cut_split h nd child0_node child1_node c0 subtrees subtrees_discarded
     else (* recover entire child clade of node as a subtree *)
       Ok (subtrees ++ [node], subtrees_discarded));
  '(h, node) ← phylo3.prune h node;  (* prune off node from curroot tree *)
  leaves ← phylo3.leaves h curroot;
  if bool_decide (2 < Datatypes.length leaves) then  (* no kink if only two left *)
    node ← from_option AttributeError node;
    '(h, node, curroot) ← remove_kink h node curroot;
    Ok (h, curroot, subtrees, subtrees_discarded, true)
  else Ok (h, curroot, subtrees, subtrees_discarded, false).

(** The [for] loop over [curroot.iternodes()]: [Some] is the state at the
    [break], [None] a loop that ran to its end. *)
Fixpoint cut_scan (h : heap) (curroot : nat) (nodes : list nat)
    (subtrees : list nat) (subtrees_discarded : gmap string discard_reason)
    : result (option (heap * nat * list nat * gmap string discard_reason * bool)) :=
  match nodes with
  | [] => Ok None
  | node :: nodes =>
      nd ← deref h node;
      if Node.istip nd || bool_decide (node = curroot) then
        cut_scan h curroot nodes subtrees subtrees_discarded  (* skip tips and root node *)
      else if bool_decide (Node.nchildren nd = 1) then
        '(h, node, curroot) ← remove_kink h node curroot;
        Ok (Some (h, curroot, subtrees, subtrees_discarded, true))
      else
        child0_node ← from_option IndexError (Node.children nd !! 0);
        child1_node ← from_option IndexError (Node.children nd !! 1);
        if (internal_branch_length_cutoff <? Node.length nd)%float then
          Some <$> cut_branch h curroot node nd child0_node child1_node
                     subtrees subtrees_discarded
        else cut_scan h curroot nodes subtrees subtrees_discarded
  end.

(** The [while going] loop; [fuel] bounds the number of passes. *)
Fixpoint cut_loop (fuel : nat) (h : heap) (curroot : nat)
    (subtrees : list nat) (subtrees_discarded : gmap string discard_reason)
    : result (heap * nat * list nat * gmap string discard_reason) :=
  match fuel with
  | 0 => Raise OutOfFuel
  | S fuel =>
      nodes ← phylo3.iternodes h curroot;
      r ← cut_scan h curroot nodes subtrees subtrees_discarded;
      match r with
      | Some (h, curroot, subtrees, subtrees_discarded, true) =>
          cut_loop fuel h curroot subtrees subtrees_discarded
      | Some (h, curroot, subtrees, subtrees_discarded, false) =>
          Ok (h, curroot, subtrees, subtrees_discarded)
      | None => Ok (h, curroot, subtrees, subtrees_discarded)
      end
  end.

(** Lines 109-113: write out the residue after cutting. *)
Definition cut_residue (h : heap) (curroot : nat)
    (subtrees : list nat) (subtrees_discarded : gmap string discard_reason)
    : result (list nat * gmap string discard_reason) :=
  n ← count_taxa h curroot;
  if bool_decide (4 ≤ n) then Ok (subtrees ++ [curroot], subtrees_discarded)
  else Ok (subtrees,
           <[tostring h curroot := remaining_tree_has_fewer_than_4_taxa]>
             subtrees_discarded).

(** The subtrees are references into the heap the function leaves behind,
    which is handed back with them. *)
Definition cut_long_internal_branches (fuel : nat) (h : heap) (curroot : nat)
    : result (heap * list nat * gmap string discard_reason) :=
  '(h, curroot, subtrees, subtrees_discarded) ← cut_loop fuel h curroot [] ∅;
  '(subtrees, subtrees_discarded) ← cut_residue h curroot subtrees subtrees_discarded;
  Ok (h, subtrees, subtrees_discarded).

(** cut_deep_paralogs.main, lines 218-232: the tree is skipped ([None]) when
    it has fewer unique taxon names than [minimum_number_taxa], and cut
    otherwise.  The minimum is not passed on. *)
Definition cut_tree (fuel : nat) (h : heap) (intree : nat) (minimum_number_taxa : nat)
    : result (option (heap * list nat * gmap string discard_reason)) :=
  num_taxa ← count_taxa h intree;
  if bool_decide (num_taxa < minimum_number_taxa) then Ok None
  else Some <$> cut_long_internal_branches fuel h intree.

End cut_deep_paralogs.

(** ** The comparison with the cutoff *)

Lemma SFcompare_refl (f : spec_float) :
  SFcompare f f = Some Eq ∨ SFcompare f f = None.
Proof.
  destruct f as [s|s| |s m e]; simpl; auto.
  - left. by destruct s.
  - left. rewrite Z.compare_refl, Pos.compare_cont_refl. by destruct s.
Qed.


(** [(A.1:0.5,B.1:0.5,((C.1:0.5,D.1:0.5):0.5,(E.1:0.5,(F.1:0.5,G.1:0.5):0.5):0.5):5.0);]:
    node 3 is an internal branch of length 5. *)
Definition long_branch_tree : heap :=
  [ Node.mk None 0%float [1; 2; 3] None;
    Node.mk (Some "A.1") 0.5%float [] (Some 0);
    Node.mk (Some "B.1") 0.5%float [] (Some 0);
    Node.mk None 5%float [4; 5] (Some 0);
    Node.mk None 0.5%float [6; 7] (Some 3);
    Node.mk None 0.5%float [8; 9] (Some 3);
    Node.mk (Some "C.1") 0.5%float [] (Some 4);
    Node.mk (Some "D.1") 0.5%float [] (Some 4);
    Node.mk (Some "E.1") 0.5%float [] (Some 5);
    Node.mk None 0.5%float [10; 11] (Some 5);
    Node.mk (Some "F.1") 0.5%float [] (Some 9);
    Node.mk (Some "G.1") 0.5%float [] (Some 9) ].

(** A stand-in for the newick serialiser in the examples: the index of the
    node in decimal. *)
Definition node_index (h : heap) (n : nat) : string := pretty n.

(** With a cutoff of 2 the branch of length 5 is cut off whole (its
    children add up to 1 only) and the residue of two taxa is discarded;
    with a cutoff of 5 nothing is cut. *)
Example long_branch_tree_cut :
  (cut_long_internal_branches node_index 2%float 10 long_branch_tree 0
     ≫= λ '(_, subtrees, discarded), Ok (subtrees, map_to_list discarded)) =
    Ok ([3], [("0", remaining_tree_has_fewer_than_4_taxa)]) ∧
  (cut_long_internal_branches node_index 5%float 10 long_branch_tree 0
     ≫= λ '(_, subtrees, discarded), Ok (subtrees, map_to_list discarded)) =
    Ok ([0], []).
Proof. split; vm_compute; reflexivity. Qed.

(** ** The minimum number of taxa of a kept subtree *)



(** * Well-formed trees in the arena *)

(** The shape of a tree stored in the arena: the index of a node and the
    shapes below its children, in child order. *)
Inductive tree : Type := T (n : nat) (ts : list tree).

Definition tid (t : tree) : nat := match t with T n _ => n end.
Definition subtrees (t : tree) : list tree := match t with T _ ts => ts end.

(** The nodes in pre-order, and the tips in child order. *)
Fixpoint ids (t : tree) : list nat :=
  match t with T n ts => n :: concat (map ids ts) end.
Fixpoint tips (t : tree) : list nat :=
  match t with
  | T n [] => [n]
  | T n ts => concat (map tips ts)
  end.

(** [repr h p t]: the cells of [h] hold the tree [t] below the parent [p],
    with parent and children links consistent, and every tip labelled. *)
Inductive repr (h : heap) : option nat → tree → Prop :=
  | repr_T p n ts nd :
      h !! n = Some nd →
      Node.parent nd = p →
      Node.children nd = map tid ts →
      (ts = [] → is_Some (Node.label nd)) →
      Forall (repr h (Some n)) ts →
      repr h p (T n ts).

(** Induction over a tree and the trees below it. *)
Lemma tree_ind' (P : tree → Prop) :
  (∀ n ts, Forall P ts → P (T n ts)) → ∀ t, P t.
Proof.
  intros HT. fix IH 1. intros [n ts]. apply HT.
  induction ts as [|t ts IHts]; constructor; [apply IH | apply IHts].
Qed.

Lemma repr_ind' (h : heap) (P : option nat → tree → Prop) :
  (∀ p n ts nd,
     h !! n = Some nd → Node.parent nd = p → Node.children nd = map tid ts →
     (ts = [] → is_Some (Node.label nd)) →
     Forall (repr h (Some n)) ts → Forall (P (Some n)) ts → P p (T n ts)) →
  ∀ p t, repr h p t → P p t.
Proof.
  intros HT. fix IH 3. intros p t [p' n ts nd Hn Hp Hcs Hl Hts].
  apply (HT p' n ts nd Hn Hp Hcs Hl Hts).
  clear Hcs Hl. revert ts Hts. fix IHts 2.
  intros ts [|t' ts' Ht' Hts']; constructor; [apply IH, Ht' | apply IHts, Hts'].
Qed.

Lemma elem_of_concat_map {A B} (f : A → list B) (x : B) (l : list A) :
  x ∈ concat (map f l) ↔ ∃ a, a ∈ l ∧ x ∈ f a.
Proof.
  induction l as [|a l IH]; simpl.
  - split; [by intros ?%elem_of_nil | by intros (a & ?%elem_of_nil & _)].
  - rewrite elem_of_app, IH. split.
    + intros [Hx | (a' & Hin & Hx)]; [exists a | exists a'];
        (split; [|done]); [apply list_elem_of_here | by apply list_elem_of_further].
    + intros (a' & [->|Hin]%elem_of_cons & Hx); [by left | right; eauto].
Qed.

Lemma tid_in_ids (t : tree) : tid t ∈ ids t.
Proof. destruct t. simpl. apply list_elem_of_here. Qed.

Lemma ids_length_pos (t : tree) : 0 < Datatypes.length (ids t).
Proof. destruct t. simpl. lia. Qed.


(** ** The traversals of a well-formed tree *)

Lemma flat_mapM_map_Ok {A B C} (f : A → result (list B)) (g : C → A)
    (r : C → list B) (l : list C) :
  Forall (λ c, f (g c) = Ok (r c)) l →
  flat_mapM f (map g l) = Ok (concat (map r l)).
Proof.
  induction 1 as [|c l Hc Hl IH]; simpl; [done|].
  by rewrite Hc, IH.
Qed.

Lemma mapM_result_map_Ok {A B C} (f : A → result B) (g : C → A)
    (r : C → B) (l : list C) :
  Forall (λ c, f (g c) = Ok (r c)) l →
  mapM_result f (map g l) = Ok (map r l).
Proof.
  induction 1 as [|c l Hc Hl IH]; simpl; [done|].
  by rewrite Hc, IH.
Qed.

Lemma ids_length_child (t : tree) (ts : list tree) :
  t ∈ ts → Datatypes.length (ids t) ≤ Datatypes.length (concat (map ids ts)).
Proof.
  induction ts as [|t' ts IH]; [by intros ?%elem_of_nil|].
  simpl. rewrite length_app. intros [->|Hin]%elem_of_cons; [lia|].
  specialize (IH Hin). lia.
Qed.

Lemma leaves_aux_repr (h : heap) (p : option nat) (t : tree) :
  repr h p t → ∀ fuel, Datatypes.length (ids t) ≤ fuel →
  phylo3.leaves_aux fuel h (tid t) = Ok (tips t).
Proof.
  induction 1 as [p n ts nd Hn Hp Hcs Hl Hts IH] using repr_ind'.
  intros [|fuel] Hfuel; simpl in Hfuel; [lia|]. simpl.
  rewrite (deref_Some _ _ _ Hn). simpl. unfold Node.istip. rewrite Hcs.
  destruct ts as [|t ts]; [done|].
  rewrite bool_decide_eq_false_2 by done.
  apply flat_mapM_map_Ok.
  rewrite Forall_forall in IH. apply Forall_forall. intros t' Hin.
  apply IH; [done|]. pose proof (ids_length_child t' _ Hin). lia.
Qed.

Lemma iternodes_aux_repr (h : heap) (p : option nat) (t : tree) :
  repr h p t → ∀ fuel, Datatypes.length (ids t) ≤ fuel →
  phylo3.iternodes_aux fuel h (tid t) = Ok (ids t).
Proof.
  induction 1 as [p n ts nd Hn Hp Hcs Hl Hts IH] using repr_ind'.
  intros [|fuel] Hfuel; simpl in Hfuel; [lia|]. simpl.
  rewrite (deref_Some _ _ _ Hn). simpl. rewrite Hcs.
  rewrite (flat_mapM_map_Ok _ _ ids); [done|].
  rewrite Forall_forall in IH. apply Forall_forall. intros t' Hin.
  apply IH; [done|]. pose proof (ids_length_child t' _ Hin). lia.
Qed.

Lemma repr_ids_lookup (h : heap) (p : option nat) (t : tree) :
  repr h p t → ∀ n, n ∈ ids t → is_Some (h !! n).
Proof.
  induction 1 as [p n ts nd Hn Hp Hcs Hl Hts IH] using repr_ind'.
  intros m. simpl. intros [->|Hin]%elem_of_cons; [eauto|].
  apply elem_of_concat_map in Hin as (t' & Hin & Hm).
  rewrite Forall_forall in IH. by eapply IH.
Qed.

(** The nodes of a tree without sharing fit into the arena. *)
Lemma repr_ids_length (h : heap) (p : option nat) (t : tree) :
  repr h p t → NoDup (ids t) → Datatypes.length (ids t) ≤ Datatypes.length h.
Proof.
  intros Hrepr Hnd.
  transitivity (Datatypes.length (seq 0 (Datatypes.length h)));
    [|by rewrite length_seq].
  apply submseteq_length, NoDup_submseteq; [done|].
  intros n Hn. apply elem_of_seq.
  apply (repr_ids_lookup _ _ _ Hrepr) in Hn. apply lookup_lt_is_Some in Hn. lia.
Qed.

(** ** Labels and names of a well-formed tree *)

Definition label_at (h : heap) (n : nat) : option string :=
  h !! n ≫= Node.label.
Definition name_at (h : heap) (n : nat) : string :=
  default EmptyString (split_first_field <$> label_at h n).
(** The names of the tips, in child order. *)
Definition names (h : heap) (t : tree) : list string :=
  map (name_at h) (tips t).

Lemma repr_tips_labelled (h : heap) (p : option nat) (t : tree) :
  repr h p t → ∀ n, n ∈ tips t →
  ∃ nd s, h !! n = Some nd ∧ Node.label nd = Some s.
Proof.
  induction 1 as [p n ts nd Hn Hp Hcs Hl Hts IH] using repr_ind'.
  intros m Hm. destruct ts as [|t ts].
  - apply list_elem_of_singleton in Hm as ->. destruct (Hl eq_refl) as [s Hs]. eauto.
  - change (tips (T n (t :: ts))) with (concat (map tips (t :: ts))) in Hm.
    apply elem_of_concat_map in Hm as (t' & Hin & Hm).
    rewrite Forall_forall in IH. by eapply IH.
Qed.

Lemma get_front_labels_repr (h : heap) (p : option nat) (t : tree) :
  repr h p t → Datatypes.length (ids t) ≤ Datatypes.length h →
  get_front_labels h (tid t) = Ok (map (label_at h) (tips t)).
Proof.
  intros Hrepr Hlen. unfold get_front_labels, phylo3.leaves.
  rewrite (leaves_aux_repr _ _ _ Hrepr) by done. simpl.
  rewrite <-(map_id (tips t)) at 1. apply mapM_result_map_Ok.
  apply Forall_forall. intros n Hn.
  destruct (repr_tips_labelled _ _ _ Hrepr n Hn) as (nd & s & Hnd & Hs).
  unfold label_at. rewrite (deref_Some _ _ _ Hnd), Hnd. simpl. done.
Qed.

Lemma get_front_names_repr (h : heap) (p : option nat) (t : tree) :
  repr h p t → Datatypes.length (ids t) ≤ Datatypes.length h →
  get_front_names h (tid t) = Ok (names h t).
Proof.
  intros Hrepr Hlen. unfold get_front_names.
  rewrite (get_front_labels_repr _ _ _ Hrepr) by done. simpl.
  unfold names. apply mapM_result_map_Ok.
  apply Forall_forall. intros n Hn.
  destruct (repr_tips_labelled _ _ _ Hrepr n Hn) as (nd & s & Hnd & Hs).
  unfold name_at, label_at. rewrite Hnd. simpl. rewrite Hs. done.
Qed.

(** ** The trees below a tree *)

Inductive subtree : tree → tree → Prop :=
  | subtree_refl t : subtree t t
  | subtree_child s t n ts : t ∈ ts → subtree s t → subtree s (T n ts).

Lemma ids_subtree (t : tree) (n : nat) :
  n ∈ ids t → ∃ s, subtree s t ∧ tid s = n.
Proof.
  induction t as [m ts IH] using tree_ind'. simpl.
  intros [->|Hin]%elem_of_cons.
  - exists (T m ts). split; [constructor|done].
  - apply elem_of_concat_map in Hin as (t' & Hin & Hn).
    rewrite Forall_forall in IH. destruct (IH _ Hin Hn) as (s & Hs & <-).
    exists s. split; [|done]. by eapply subtree_child.
Qed.


Lemma subtree_ids_length (s t : tree) :
  subtree s t → Datatypes.length (ids s) ≤ Datatypes.length (ids t).
Proof.
  induction 1 as [|s t n ts Hin Hsub IH]; [done|].
  simpl. pose proof (ids_length_child t ts Hin). lia.
Qed.

(** A tree below the root hangs from a node of the tree. *)
Lemma repr_subtree (h : heap) (p : option nat) (s t : tree) :
  subtree s t → repr h p t →
  ∃ q, repr h q s ∧ ((s = t ∧ q = p) ∨ ∃ q', q = Some q' ∧ q' ∈ ids t).
Proof.
  intros Hsub. revert p. induction Hsub as [|s t n ts Hin Hsub IH]; intros p Hrepr.
  - exists p. split; [done|]. by left.
  - inversion Hrepr as [p' n' ts' nd Hn Hp Hcs Hl Hts]; subst.
    rewrite Forall_forall in Hts.
    destruct (IH _ (Hts _ Hin)) as (q & Hq & Hcase).
    exists q. split; [done|]. right.
    destruct Hcase as [[-> ->] | (q' & -> & Hq')].
    + exists n. split; [done|]. apply list_elem_of_here.
    + exists q'. split; [done|]. simpl. apply list_elem_of_further.
      apply elem_of_concat_map. eauto.
Qed.

(** ** Purely outgroup and purely ingroup sides *)

(** The words of the spec: purely outgroup (ingroup) and non-empty. *)
Definition purely_outgroup (outgroups : list string) (l : list string) : Prop :=
  l ≠ [] ∧ Forall (λ i, i ∈ outgroups) l.
Definition purely_ingroup (outgroups : list string) (l : list string) : Prop :=
  l ≠ [] ∧ Forall (λ i, i ∉ outgroups) l.

(** A node qualifies as the new rooting point. *)
Definition qualifies (h : heap) (root : nat) (outgroups : list string) (node : nat)
    : Prop :=
  ∃ front back,
    get_front_names h node = Ok front ∧ get_back_names h node root = Ok back ∧
    ((purely_outgroup outgroups front ∧ purely_ingroup outgroups back) ∨
     (purely_ingroup outgroups front ∧ purely_outgroup outgroups back)).

Lemma count_in_out_acc (outgroups l : list string) (n_in n_out : nat) :
  foldl (λ '(n_in, n_out) i,
           if bool_decide (i ∈ outgroups) then (n_in, n_out + 1) else (n_in + 1, n_out))
        (n_in, n_out) l =
  (n_in + Datatypes.length (filter (λ i, i ∉ outgroups) l),
   n_out + Datatypes.length (filter (λ i, i ∈ outgroups) l)).
Proof.
  revert n_in n_out. induction l as [|x l IH]; intros n_in n_out; simpl.
  - f_equal; lia.
  - rewrite !filter_cons. case_bool_decide as Hx.
    + rewrite IH. rewrite decide_False by (intros Hn; by apply Hn).
      rewrite decide_True by done. simpl. f_equal; lia.
    + rewrite IH. rewrite decide_True by done.
      rewrite decide_False by done. simpl. f_equal; lia.
Qed.

Lemma count_in_out_filter (outgroups l : list string) :
  count_in_out outgroups l =
  (Datatypes.length (filter (λ i, i ∉ outgroups) l),
   Datatypes.length (filter (λ i, i ∈ outgroups) l)).
Proof. unfold count_in_out. by rewrite count_in_out_acc. Qed.

Lemma filter_length_0 {A} (P : A → Prop) `{∀ x, Decision (P x)} (l : list A) :
  Datatypes.length (filter P l) = 0 ↔ Forall (λ x, ¬ P x) l.
Proof.
  induction l as [|x l IH]; simpl.
  - split; [constructor|done].
  - rewrite filter_cons, Forall_cons. case_decide as Hx; simpl.
    + split; [lia|]. by intros [? _].
    + rewrite IH. naive_solver.
Qed.

Lemma filter_length_pos (outgroups l : list string) :
  (Datatypes.length (filter (λ i, i ∉ outgroups) l) = 0 ∧
   0 < Datatypes.length (filter (λ i, i ∈ outgroups) l))
  ↔ purely_outgroup outgroups l.
Proof.
  unfold purely_outgroup. rewrite filter_length_0. split.
  - intros [Hall Hpos]. split.
    + intros ->. simpl in Hpos. lia.
    + eapply Forall_impl; [done|]. intros x Hx. simpl in Hx.
      destruct (decide (x ∈ outgroups)); [done|]. by destruct Hx.
  - intros [Hne Hall]. split.
    + eapply Forall_impl; [done|]. simpl. intros x Hx Hn. by apply Hn.
    + destruct l as [|x l]; [done|]. apply Forall_cons in Hall as [Hx _].
      rewrite filter_cons, decide_True by done. simpl. lia.
Qed.

Lemma filter_length_pos_in (outgroups l : list string) :
  (0 < Datatypes.length (filter (λ i, i ∉ outgroups) l) ∧
   Datatypes.length (filter (λ i, i ∈ outgroups) l) = 0)
  ↔ purely_ingroup outgroups l.
Proof.
  unfold purely_ingroup. rewrite filter_length_0. split.
  - intros [Hpos Hall]. split; [|done].
    intros ->. simpl in Hpos. lia.
  - intros [Hne Hall]. split; [|done].
    destruct l as [|x l]; [done|]. apply Forall_cons in Hall as [Hx _].
    rewrite filter_cons, decide_True by done. simpl. lia.
Qed.

#[local] Instance purely_outgroup_dec og l : Decision (purely_outgroup og l).
Proof. unfold purely_outgroup. apply _. Defined.
#[local] Instance purely_ingroup_dec og l : Decision (purely_ingroup og l).
Proof. unfold purely_ingroup. apply _. Defined.

(** The sides of a node qualify, in the words of the spec. *)
Definition sides_qualify (outgroups front back : list string) : Prop :=
  (purely_outgroup outgroups front ∧ purely_ingroup outgroups back) ∨
  (purely_ingroup outgroups front ∧ purely_outgroup outgroups back).

(** One round of the second loop of [reroot_with_monophyletic_outgroups],
    at a node other than the root whose sides can be read: the counters
    decide as the words of the spec do. *)
Lemma find_newroot_cons (h : heap) (root : nat) (outgroups : list string)
    (node : nat) (nodes : list nat) (front back : list string) (nd : Node.t) :
  node ≠ root →
  get_front_names h node = Ok front → get_back_names h node root = Ok back →
  h !! node = Some nd →
  find_newroot h root outgroups (node :: nodes) =
    if decide (sides_qualify outgroups front back) then Ok (Node.parent nd)
    else find_newroot h root outgroups nodes.
Proof.
  intros Hne Hf Hb Hnd. simpl. rewrite bool_decide_eq_false_2 by done.
  rewrite Hf, Hb. simpl. rewrite !count_in_out_filter.
  rewrite (deref_Some _ _ _ Hnd). simpl.
  pose proof (filter_length_pos outgroups front) as Hof.
  pose proof (filter_length_pos_in outgroups front) as Hif.
  pose proof (filter_length_pos outgroups back) as Hob.
  pose proof (filter_length_pos_in outgroups back) as Hib.
  unfold sides_qualify.
  repeat case_bool_decide; simpl; case_decide as Hq; try reflexivity;
    exfalso; (try (apply Hq; clear Hq)); tauto.
Qed.

Lemma qualifies_iff (h : heap) (root : nat) (outgroups : list string) (node : nat)
    (front back : list string) :
  get_front_names h node = Ok front → get_back_names h node root = Ok back →
  qualifies h root outgroups node ↔ sides_qualify outgroups front back.
Proof.
  intros Hf Hb. unfold qualifies. split.
  - intros (f & b & Hf' & Hb' & Hq).
    rewrite Hf in Hf'. rewrite Hb in Hb'.
    injection Hf' as <-. injection Hb' as <-. exact Hq.
  - intros Hq. exists front, back. split; [done|]. split; [done|]. exact Hq.
Qed.

(** The sides of [node] can be read, and [node] has a cell. *)
Definition readable (h : heap) (root node : nat) : Prop :=
  ∃ front back nd,
    get_front_names h node = Ok front ∧ get_back_names h node root = Ok back ∧
    h !! node = Some nd.

(** The second loop stops at the first node other than the root that
    qualifies, with its parent, and ends with [None] if there is none. *)
Lemma find_newroot_first (h : heap) (root : nat) (outgroups : list string)
    (nodes : list nat) :
  Forall (λ node, node = root ∨ readable h root node) nodes →
  (Forall (λ m, m = root ∨ ¬ qualifies h root outgroups m) nodes ∧
   find_newroot h root outgroups nodes = Ok None) ∨
  (∃ before node after nd,
     nodes = before ++ node :: after ∧
     Forall (λ m, m = root ∨ ¬ qualifies h root outgroups m) before ∧
     node ≠ root ∧ qualifies h root outgroups node ∧
     h !! node = Some nd ∧
     find_newroot h root outgroups nodes = Ok (Node.parent nd)).
Proof.
  induction 1 as [|node nodes Hnode Hnodes IH].
  - left. split; [constructor|done].
  - destruct (decide (node = root)) as [->|Hne].
    { simpl. rewrite bool_decide_eq_true_2 by done.
      destruct IH as [[Hall Hrun] | (before & n & after & nd & -> & Hall & Hn & Hq & Hnd & Hrun)].
      - left. split; [|done]. constructor; [by left|done].
      - right. exists (root :: before), n, after, nd.
        split; [done|]. split; [constructor; [by left|done]|]. done. }
    destruct Hnode as [?|(front & back & nd & Hf & Hb & Hnd)]; [done|].
    rewrite (find_newroot_cons _ _ _ _ _ _ _ _ Hne Hf Hb Hnd).
    case_decide as Hq.
    + right. exists [], node, nodes, nd. split; [done|]. split; [constructor|].
      split; [done|]. split; [by eapply qualifies_iff|]. done.
    + destruct IH as [[Hall Hrun] | (before & n & after & nd' & -> & Hall & Hn & Hq' & Hnd' & Hrun)].
      * left. split; [|done]. constructor; [|done]. right.
        by rewrite (qualifies_iff _ _ _ _ _ _ Hf Hb).
      * right. exists (node :: before), n, after, nd'.
        split; [done|]. split; [|done]. constructor; [|done]. right.
        by rewrite (qualifies_iff _ _ _ _ _ _ Hf Hb).
Qed.

Lemma mapM_result_get_name_Ok (l : list (option string)) :
  Forall is_Some l → ∃ r, mapM_result get_name l = Ok r.
Proof.
  induction 1 as [|x l [s ->] Hl [r IH]]; simpl; [eauto|].
  rewrite IH. simpl. eauto.
Qed.

Lemma label_at_tip (h : heap) (p : option nat) (t : tree) (n : nat) :
  repr h p t → n ∈ tips t → is_Some (label_at h n).
Proof.
  intros Hrepr Hn.
  destruct (repr_tips_labelled _ _ _ Hrepr n Hn) as (nd & s & Hnd & Hs).
  unfold label_at. rewrite Hnd. simpl. by rewrite Hs.
Qed.

Lemma get_back_names_repr (h : heap) (p q : option nat) (s t : tree) :
  repr h p t → repr h q s →
  Datatypes.length (ids t) ≤ Datatypes.length h →
  Datatypes.length (ids s) ≤ Datatypes.length h →
  ∃ back, get_back_names h (tid s) (tid t) = Ok back.
Proof.
  intros Ht Hs Hlt Hls. unfold get_back_names, get_back_labels.
  rewrite (get_front_labels_repr _ _ _ Ht), (get_front_labels_repr _ _ _ Hs) by done.
  simpl. apply mapM_result_get_name_Ok. apply Forall_forall. intros x Hx.
  apply elem_of_elements, elem_of_difference in Hx as [Hx _].
  apply elem_of_list_to_set, list_elem_of_fmap in Hx as (n & -> & Hn).
  exact (label_at_tip _ _ _ _ Ht Hn).
Qed.

(** Every node of a well-formed tree can be read. *)
Lemma repr_readable (h : heap) (t : tree) :
  repr h None t → NoDup (ids t) →
  Forall (λ node, node = tid t ∨ readable h (tid t) node) (ids t).
Proof.
  intros Hrepr Hnd. pose proof (repr_ids_length _ _ _ Hrepr Hnd) as Hlen.
  apply Forall_forall. intros node Hnode. right.
  destruct (ids_subtree _ _ Hnode) as (s & Hsub & <-).
  destruct (repr_subtree _ _ _ _ Hsub Hrepr) as (q & Hs & _).
  pose proof (subtree_ids_length _ _ Hsub) as Hls.
  destruct (get_back_names_repr h None q s t) as [back Hback]; [done|done|lia|lia|].
  inversion Hs as [p' n ts nd Hn Hp Hcs Hl Hts]; subst.
  exists (names h (T n ts)), back, nd.
  split; [|done]. apply (get_front_names_repr _ _ _ Hs). lia.
Qed.

Lemma name_at_labelled (h : heap) (n : nat) (nd : Node.t) (s : string) :
  h !! n = Some nd → Node.label nd = Some s → name_at h n = split_first_field s.
Proof. intros Hn Hs. unfold name_at, label_at. rewrite Hn. simpl. by rewrite Hs. Qed.

(** The first loop counts the tips with an outgroup name. *)
Lemma outgroup_tips_length (h : heap) (outgroups : list string) (leaves : list nat)
    (outgroup_matches : gmap string nat) (outgroup_labels : list string) :
  (∀ n, n ∈ leaves → ∃ nd s, h !! n = Some nd ∧ Node.label nd = Some s) →
  ∃ matches labels,
    outgroup_tips h outgroups leaves outgroup_matches outgroup_labels =
      Ok (matches, labels) ∧
    Datatypes.length labels =
      Datatypes.length outgroup_labels +
      Datatypes.length (filter (λ i, i ∈ outgroups) (map (name_at h) leaves)).
Proof.
  revert outgroup_matches outgroup_labels.
  induction leaves as [|leaf leaves IH]; intros m labels Hl; simpl.
  - exists m, labels. split; [done|]. lia.
  - destruct (Hl leaf) as (nd & s & Hnd & Hs); [apply list_elem_of_here|].
    rewrite (deref_Some _ _ _ Hnd). simpl. rewrite Hs. simpl.
    rewrite (name_at_labelled _ _ _ _ Hnd Hs), filter_cons.
    assert (Hrest : ∀ n, n ∈ leaves →
              ∃ nd s, h !! n = Some nd ∧ Node.label nd = Some s).
    { intros n Hn. apply Hl. by apply list_elem_of_further. }
    case_bool_decide as Hx.
    + rewrite decide_True by done.
      destruct (IH (<[s := leaf]> m) (labels ++ [s]) Hrest) as (m' & l' & Hrun & Hlen).
      exists m', l'. split; [done|]. rewrite Hlen, length_app. simpl. lia.
    + rewrite decide_False by done.
      destruct (IH m labels Hrest) as (m' & l' & Hrun & Hlen).
      exists m', l'. split; [done|]. by rewrite Hlen.
Qed.

(** The second loop of [reroot_with_monophyletic_outgroups] in terms of the
    names that the code reads: the root is moved to the parent of the first
    node in pre-order, other than the root, for which [qualifies] holds of
    the names of [get_front_names] and [get_back_names]; if there is none,
    the function returns [None]. *)
Lemma find_newroot_first_qualifying (h : heap) (t : tree)
    (outgroups : list string) :
  repr h None t → NoDup (ids t) →
  2 ≤ Datatypes.length (filter (λ i, i ∈ outgroups) (names h t)) →
  (Forall (λ m, m = tid t ∨ ¬ qualifies h (tid t) outgroups m) (ids t) ∧
   reroot_with_monophyletic_outgroups h (tid t) outgroups = Ok None) ∨
  (∃ before node after p,
     ids t = before ++ node :: after ∧
     Forall (λ m, m = tid t ∨ ¬ qualifies h (tid t) outgroups m) before ∧
     node ≠ tid t ∧ qualifies h (tid t) outgroups node ∧
     parent_of h node = Some (Some p) ∧
     reroot_with_monophyletic_outgroups h (tid t) outgroups =
       Some <$> phylo3.reroot h (tid t) (Some p)).
Proof.
  intros Hrepr Hnd Hout.
  pose proof (repr_ids_length _ _ _ Hrepr Hnd) as Hlen.
  unfold reroot_with_monophyletic_outgroups, phylo3.leaves, phylo3.iternodes.
  rewrite (leaves_aux_repr _ _ _ Hrepr) by done. simpl.
  destruct (outgroup_tips_length h outgroups (tips t) ∅ [])
    as (matches & labels & Hrun & Hlabels);
    [by apply (repr_tips_labelled _ _ _ Hrepr)|].
  rewrite Hrun. simpl. fold (names h t) in Hlabels.
  rewrite bool_decide_eq_false_2 by (simpl in Hlabels; lia).
  rewrite (iternodes_aux_repr _ _ _ Hrepr) by done. simpl.
  destruct (find_newroot_first h (tid t) outgroups (ids t)
              (repr_readable _ _ Hrepr Hnd))
    as [[Hall Hfind] | (before & node & after & nd & Hids & Hall & Hne & Hq & Hnode & Hfind)].
  - left. split; [done|]. by rewrite Hfind.
  - right. rewrite Hfind. simpl.
    assert (Hin : node ∈ ids t).
    { rewrite Hids. apply elem_of_app. right. apply list_elem_of_here. }
    destruct (ids_subtree _ _ Hin) as (s & Hsub & Htid).
    destruct (repr_subtree _ _ _ _ Hsub Hrepr) as (q & Hs & Hcase).
    destruct Hcase as [[-> _] | (q' & -> & _)]; [done|].
    inversion Hs as [p' n ts nd' Hn Hp Hcs Hl Hts]; subst. simpl in *.
    rewrite Hn in Hnode. injection Hnode as ->.
    exists before, n, after, q'.
    split; [done|]. split; [done|]. split; [done|]. split; [done|].
    split; [unfold parent_of; by rewrite Hn; simpl; rewrite Hp|].
    by rewrite Hp.
Qed.

(** Builds the proof that a concrete arena holds a concrete tree. *)
Ltac solve_repr :=
  repeat match goal with
  | |- Forall _ [] => constructor
  | |- Forall _ (_ :: _) => constructor
  | |- repr _ _ (T _ _) =>
      eapply repr_T;
        [ reflexivity | reflexivity | reflexivity
        | first [ intros _; eexists; reflexivity | discriminate ] | ]
  end.

(** [((A.1:0.5,A.2:0.5):0.5,B.1:0.5,(OUT1.1:0.5,OUT2.1:0.5):0.5);] *)
Definition monophyletic_outgroup : heap :=
  [ Node.mk None 0%float [1; 2; 3] None;
    Node.mk None 0.5%float [4; 5] (Some 0);
    Node.mk (Some "B.1") 0.5%float [] (Some 0);
    Node.mk None 0.5%float [6; 7] (Some 0);
    Node.mk (Some "A.1") 0.5%float [] (Some 1);
    Node.mk (Some "A.2") 0.5%float [] (Some 1);
    Node.mk (Some "OUT1.1") 0.5%float [] (Some 3);
    Node.mk (Some "OUT2.1") 0.5%float [] (Some 3) ].

Definition monophyletic_outgroup_tree : tree :=
  T 0 [ T 1 [T 4 []; T 5 []]; T 2 []; T 3 [T 6 []; T 7 []] ].

Lemma monophyletic_outgroup_repr :
  repr monophyletic_outgroup None monophyletic_outgroup_tree ∧
  NoDup (ids monophyletic_outgroup_tree).
Proof.
  split; [unfold monophyletic_outgroup_tree; solve_repr|].
  apply (bool_decide_unpack _). vm_compute. exact I.
Qed.

(** [((A.1:0.5,OUT1.1:0.5):0.5,B.1:0.5,(A.2:0.5,OUT2.1:0.5):0.5);]: the two
    outgroup tips are on both sides of every internal edge. *)
Definition scattered_outgroup : heap :=
  [ Node.mk None 0%float [1; 2; 3] None;
    Node.mk None 0.5%float [4; 5] (Some 0);
    Node.mk (Some "B.1") 0.5%float [] (Some 0);
    Node.mk None 0.5%float [6; 7] (Some 0);
    Node.mk (Some "A.1") 0.5%float [] (Some 1);
    Node.mk (Some "OUT1.1") 0.5%float [] (Some 1);
    Node.mk (Some "A.2") 0.5%float [] (Some 3);
    Node.mk (Some "OUT2.1") 0.5%float [] (Some 3) ].

Example reroot_examples :
  reroot_with_monophyletic_outgroups monophyletic_outgroup 0 ["OUT1"; "OUT2"] =
    Ok (Some (monophyletic_outgroup, 0)) ∧
  reroot_with_monophyletic_outgroups scattered_outgroup 0 ["OUT1"; "OUT2"] = Ok None.
Proof. split; vm_compute; reflexivity. Qed.

(** * Termination of the pruning loop *)

(** ** Trees with a hole *)

(** A tree around a hole: from the root down, the node, the trees left of
    the hole and the trees right of it. *)
Definition frame : Type := nat * list tree * list tree.

Fixpoint plug (ctx : list frame) (s : tree) : tree :=
  match ctx with
  | [] => s
  | (n, l, r) :: ctx => T n (l ++ plug ctx s :: r)
  end.

(** The nodes around the hole. *)
Fixpoint ctx_ids (ctx : list frame) : list nat :=
  match ctx with
  | [] => []
  | (n, l, r) :: ctx =>
      n :: concat (map ids l) ++ concat (map ids r) ++ ctx_ids ctx
  end.

Lemma app_swap_perm {A} (a b c d : list A) :
  a ++ (b ++ d) ++ c ≡ₚ b ++ a ++ c ++ d.
Proof.
  rewrite <-(assoc_L (++) b d c).
  rewrite (Permutation_app_swap_app a b (d ++ c)).
  do 2 f_equiv. apply Permutation_app_comm.
Qed.

Lemma ids_plug (ctx : list frame) (s : tree) :
  ids (plug ctx s) ≡ₚ ids s ++ ctx_ids ctx.
Proof.
  induction ctx as [|[[n l] r] ctx IH]; simpl.
  - by rewrite app_nil_r.
  - rewrite map_app, concat_app. simpl. rewrite IH.
    rewrite <-Permutation_middle. constructor. apply app_swap_perm.
Qed.

Lemma tid_plug_cons (f : frame) (ctx : list frame) (s : tree) :
  tid (plug (f :: ctx) s) = f.1.1.
Proof. by destruct f as [[n l] r]. Qed.

(** A node below the root sits in a hole, among the children of its
    parent. *)
Lemma plug_decompose (t : tree) (N : nat) :
  N ∈ ids t → N ≠ tid t →
  ∃ ctx P l r sN, t = plug ctx (T P (l ++ sN :: r)) ∧ tid sN = N.
Proof.
  induction t as [n ts IH] using tree_ind'. simpl.
  intros [->|Hin]%elem_of_cons Hne; [done|].
  apply elem_of_concat_map in Hin as (c & Hc & HN).
  apply list_elem_of_split in Hc as (l & r & ->).
  destruct (decide (N = tid c)) as [->|Hnc].
  - exists [], n, l, r, c. done.
  - rewrite Forall_forall in IH.
    destruct (IH c) as (ctx & P & l' & r' & sN & Hc & HsN);
      [apply elem_of_app; right; apply list_elem_of_here|done|done|].
    exists ((n, l, r) :: ctx), P, l', r', sN. simpl. by rewrite <-Hc.
Qed.

Lemma tid_plug (ctx : list frame) (s s' : tree) :
  tid s' = tid s → tid (plug ctx s') = tid (plug ctx s).
Proof. destruct ctx as [|[[n l] r] ctx]; simpl; done. Qed.

(** A tree stays where it is when none of its cells is written. *)
Lemma repr_frame (h h' : heap) (q : option nat) (t : tree) :
  repr h q t → (∀ m, m ∈ ids t → h' !! m = h !! m) → repr h' q t.
Proof.
  induction 1 as [p n ts nd Hn Hp Hcs Hl Hts IH] using repr_ind'.
  intros Hsame. apply (repr_T h' p n ts nd); try done.
  - rewrite Hsame; [done|]. apply list_elem_of_here.
  - rewrite Forall_forall in IH. apply Forall_forall. intros c Hc.
    apply IH; [done|]. intros m Hm. apply Hsame. simpl.
    apply list_elem_of_further, elem_of_concat_map. eauto.
Qed.

Lemma repr_plug_inv (h : heap) (p : option nat) (ctx : list frame) (s : tree) :
  repr h p (plug ctx s) → ∃ q, repr h q s.
Proof.
  revert p. induction ctx as [|[[n l] r] ctx IH]; intros p Hrepr; simpl in *.
  - eauto.
  - inversion Hrepr as [p' n' ts nd Hn Hp Hcs Hl Hts]; subst.
    apply Forall_app in Hts as [_ Hts]. apply Forall_cons in Hts as [Hhole _].
    eauto.
Qed.

(** Writes that stay inside the hole change the tree in the hole only. *)
Lemma repr_plug_change (h h' : heap) (p : option nat) (ctx : list frame)
    (s s' : tree) :
  repr h p (plug ctx s) → tid s' = tid s →
  (∀ q, repr h q s → repr h' q s') →
  (∀ m, m ∈ ctx_ids ctx → h' !! m = h !! m) →
  repr h' p (plug ctx s').
Proof.
  intros Hrepr Htid Hhole. revert p Hrepr.
  induction ctx as [|[[n l] r] ctx IH]; intros p Hrepr Hsame; simpl in *.
  - by apply Hhole.
  - inversion Hrepr as [p' n' ts nd Hn Hp Hcs Hl Hts]; subst.
    apply Forall_app in Hts as [Hleft Hts].
    apply Forall_cons in Hts as [Hmid Hright].
    apply (repr_T h' _ n _ nd).
    + rewrite Hsame; [done|]. apply list_elem_of_here.
    + done.
    + rewrite Hcs, !map_app. simpl. by rewrite (tid_plug ctx s s').
    + intros Hnil. by apply app_eq_nil in Hnil as [_ ?].
    + apply Forall_app. split; [|apply Forall_cons; split].
      * rewrite Forall_forall in Hleft. apply Forall_forall. intros c Hc.
        apply (repr_frame h); [by apply Hleft|]. intros m Hm. apply Hsame.
        apply list_elem_of_further, elem_of_app. left.
        apply elem_of_concat_map. eauto.
      * apply IH; [done|]. intros m Hm. apply Hsame.
        apply list_elem_of_further. rewrite !elem_of_app. auto.
      * rewrite Forall_forall in Hright. apply Forall_forall. intros c Hc.
        apply (repr_frame h); [by apply Hright|]. intros m Hm. apply Hsame.
        apply list_elem_of_further. rewrite !elem_of_app. right. left.
        apply elem_of_concat_map. eauto.
Qed.

(** The label of a cell; no write of the algorithms changes it. *)
Definition label_of (h : heap) (n : nat) : option (option string) :=
  Node.label <$> h !! n.

Lemma label_of_set_children h i j cs :
  label_of (alter (Node.set_children cs) i h) j = label_of h j.
Proof. by apply lookup_alter_keep. Qed.
Lemma label_of_set_parent h i j p :
  label_of (alter (Node.set_parent p) i h) j = label_of h j.
Proof. by apply lookup_alter_keep. Qed.
Lemma label_of_set_length h i j x :
  label_of (alter (Node.set_length x) i h) j = label_of h j.
Proof. by apply lookup_alter_keep. Qed.

Lemma label_at_label_of (h h' : heap) (n : nat) :
  label_of h' n = label_of h n → label_at h' n = label_at h n.
Proof.
  unfold label_of, label_at.
  destruct (h' !! n), (h !! n); simpl; congruence.
Qed.

(** A tree from the attributes of its root cell. *)
Lemma repr_cell (h : heap) (p : option nat) (n : nat) (ts : list tree) :
  children_of h n = Some (map tid ts) → parent_of h n = Some p →
  (ts = [] → ∃ s, label_of h n = Some (Some s)) →
  Forall (repr h (Some n)) ts → repr h p (T n ts).
Proof.
  intros (nd & Hn & Hcs)%children_of_inv Hp Hl Hts.
  unfold parent_of, label_of in *. rewrite Hn in Hp, Hl. simpl in *.
  injection Hp as Hp. apply (repr_T h p n ts nd); try done.
  intros Hnil. destruct (Hl Hnil) as [s [= Hs]]. rewrite Hs. eauto.
Qed.

Lemma repr_cell_inv (h : heap) (p : option nat) (n : nat) (ts : list tree) :
  repr h p (T n ts) →
  children_of h n = Some (map tid ts) ∧ parent_of h n = Some p ∧
  (ts = [] → ∃ s, label_of h n = Some (Some s)) ∧
  Forall (repr h (Some n)) ts.
Proof.
  inversion 1 as [p' n' ts' nd Hn Hp Hcs Hl Hts]; subst.
  unfold children_of, parent_of, label_of. rewrite Hn. simpl.
  rewrite Hcs. split; [done|]. split; [done|]. split; [|done].
  intros Hnil. destruct (Hl Hnil) as [s Hs]. exists s. by rewrite Hs.
Qed.

(** ** One mutation of the pruning pass, on the heap *)

Lemma lookup_Some_fields (h : heap) (n : nat) (cs : list nat) (p : option nat) :
  children_of h n = Some cs → parent_of h n = Some p →
  ∃ nd, h !! n = Some nd ∧ Node.children nd = cs ∧ Node.parent nd = p.
Proof.
  intros (nd & Hn & Hcs)%children_of_inv Hp. unfold parent_of in Hp.
  rewrite Hn in Hp. injection Hp as Hp. eauto.
Qed.

(** After a child [loser] of [N] has been cut, [remove_kink] takes [N] off
    its parent [P] and appends the child [v] that is left; only the cells of
    [N], [loser], [P] and [v] are written. *)
Lemma detach_remove_kink (h : heap) (root N P loser v : nat) (csN csP : list nat) :
  N ≠ root → N ≠ loser → N ≠ v → N ≠ P → P ≠ loser → P ≠ v → loser ≠ v →
  children_of h N = Some csN → remove_first loser csN = [v] →
  parent_of h N = Some (Some P) →
  is_Some (h !! loser) → is_Some (h !! v) →
  children_of h P = Some csP → N ∈ csP →
  ∃ h2, remove_kink (detach h N loser csN) N root = Ok (h2, v, root) ∧
    (∀ m, m ≠ N → m ≠ loser → m ≠ P → m ≠ v → h2 !! m = h !! m) ∧
    children_of h2 P = Some (remove_first N csP ++ [v]) ∧
    parent_of h2 P = parent_of h P ∧
    children_of h2 v = children_of h v ∧
    parent_of h2 v = Some (Some P) ∧
    (∀ m, label_of h2 m = label_of h m).
Proof.
  intros HNr HNl HNv HNP HPl HPv Hlv HcsN Hrem HparN Hloser Hv HcsP HinP.
  set (h1 := detach h N loser csN).
  assert (HN1 : children_of h1 N = Some [v]).
  { unfold h1, detach. rewrite children_of_set_parent, children_of_set_children.
    rewrite Hrem. apply fmap_const_is_Some.
    apply children_of_inv in HcsN as (? & -> & _). eauto. }
  assert (HpN1 : parent_of h1 N = Some (Some P)).
  { unfold h1, detach. rewrite parent_of_set_parent_ne by done.
    by rewrite parent_of_set_children. }
  assert (HP1 : children_of h1 P = Some csP).
  { unfold h1, detach. rewrite children_of_set_parent.
    by rewrite children_of_set_children_ne. }
  assert (Hv1 : h1 !! v = h !! v).
  { unfold h1, detach. by rewrite !list_lookup_alter_ne. }
  destruct (lookup_Some_fields _ _ _ _ HN1 HpN1) as (nd1 & Hnd1 & Hcs1 & Hp1).
  apply children_of_inv in HP1 as (pd1 & Hpd1 & Hcsp1).
  destruct Hv as [cd Hcd]. rewrite <-Hv1 in Hcd.
  eexists. split.
  { eapply remove_kink_below_parent; eauto. by rewrite Hcsp1. }
  rewrite Hcsp1. split; [|split; [|split; [|split; [|split]]]].
  - intros m HmN Hml HmP Hmv. unfold h1, detach.
    by rewrite !list_lookup_alter_ne.
  - rewrite children_of_set_length, children_of_set_parent, children_of_set_children.
    apply fmap_const_is_Some. rewrite !is_Some_alter. eauto.
  - rewrite parent_of_set_length, (parent_of_set_parent_ne _ v P) by done.
    rewrite parent_of_set_children, (parent_of_set_parent_ne _ N P) by done.
    rewrite parent_of_set_children. unfold h1, detach.
    rewrite (parent_of_set_parent_ne _ loser P) by done.
    by rewrite parent_of_set_children.
  - rewrite children_of_set_length, children_of_set_parent.
    rewrite (children_of_set_children_ne _ P v) by done.
    rewrite children_of_set_parent, (children_of_set_children_ne _ P v) by done.
    unfold h1, detach. rewrite children_of_set_parent.
    by rewrite (children_of_set_children_ne _ N v).
  - rewrite parent_of_set_length, parent_of_set_parent.
    apply fmap_const_is_Some. rewrite !is_Some_alter. eauto.
  - intros m. rewrite label_of_set_length, label_of_set_parent, label_of_set_children.
    rewrite label_of_set_parent, label_of_set_children. unfold h1, detach.
    by rewrite label_of_set_parent, label_of_set_children.
Qed.

Lemma remove_first_app_notin (x : nat) (l r : list nat) :
  x ∉ l → remove_first x (l ++ x :: r) = l ++ r.
Proof.
  induction l as [|y l IH]; simpl; intros Hx.
  - by rewrite decide_True.
  - apply not_elem_of_cons in Hx as [Hxy Hx].
    rewrite decide_False by done. by rewrite IH.
Qed.

Lemma tid_in_concat_ids (c : tree) (l : list tree) :
  c ∈ l → tid c ∈ concat (map ids l).
Proof. intros Hc. apply elem_of_concat_map. exists c. split; [done|apply tid_in_ids]. Qed.


(** ** One mutation of the pruning pass, on the tree *)

(** What a tree without sharing says of a node [N] with two children below
    its parent [P]. *)
Lemma NoDup_hole (P N : nat) (L A B R : list nat) :
  NoDup (P :: L ++ (N :: A ++ B) ++ R) →
  ((P ∉ L) ∧ P ≠ N ∧ (P ∉ A) ∧ (P ∉ B) ∧ (P ∉ R)) ∧
  ((N ∉ L) ∧ (N ∉ A) ∧ (N ∉ B) ∧ (N ∉ R)) ∧
  (∀ x, x ∈ L → (x ∉ A) ∧ (x ∉ B) ∧ (x ∉ R)) ∧
  (∀ x, x ∈ R → (x ∉ A) ∧ (x ∉ B)) ∧
  (∀ x, x ∈ A → x ∉ B) ∧
  NoDup L ∧ NoDup A ∧ NoDup B ∧ NoDup R.
Proof.
  intros [HP Hnd]%NoDup_cons.
  apply NoDup_app in Hnd as (HL & HLd & Hnd).
  apply NoDup_app in Hnd as (HNAB & HNABd & HR).
  apply NoDup_cons in HNAB as [HN HAB].
  apply NoDup_app in HAB as (HA & HABd & HB).
  rewrite !elem_of_app, elem_of_cons, !elem_of_app in HP.
  rewrite !elem_of_app in HN.
  split; [|split; [|split; [|split; [|split]]]].
  - tauto.
  - repeat split; try tauto.
    + intros HNL. apply (HLd N HNL). apply elem_of_app. left. apply list_elem_of_here.
    + intros HNR. apply (HNABd N); [apply list_elem_of_here|done].
  - intros x Hx. specialize (HLd x Hx).
    rewrite elem_of_app, elem_of_cons, !elem_of_app in HLd. tauto.
  - intros x Hx. split; intros Hx'.
    + apply (HNABd x); [|done]. apply list_elem_of_further, elem_of_app. auto.
    + apply (HNABd x); [|done]. apply list_elem_of_further, elem_of_app. auto.
  - done.
  - done.
Qed.

Lemma ids_hole (P N : nat) (l r : list tree) (ta tb : tree) :
  ids (T P (l ++ T N [ta; tb] :: r)) =
  P :: concat (map ids l) ++ (N :: ids ta ++ ids tb) ++ concat (map ids r).
Proof. simpl. rewrite map_app, concat_app. simpl. by rewrite app_nil_r. Qed.

Lemma repr_survivor (h h2 : heap) (N P loser : nat) (tv : tree) :
  repr h (Some N) tv → NoDup (ids tv) →
  (N ∉ ids tv) → (P ∉ ids tv) → (loser ∉ ids tv) →
  (∀ m, m ≠ N → m ≠ loser → m ≠ P → m ≠ tid tv → h2 !! m = h !! m) →
  children_of h2 (tid tv) = children_of h (tid tv) →
  parent_of h2 (tid tv) = Some (Some P) →
  (∀ m, label_of h2 m = label_of h m) →
  repr h2 (Some P) tv.
Proof.
  intros Hrepr Hnd HN HP Hloser Hsame Hcsv Hparv Hlabel.
  destruct tv as [v tsv]. simpl in *.
  apply repr_cell_inv in Hrepr as (Hcv & Hpv & Hlv & Hsub).
  apply NoDup_cons in Hnd as [Hv _].
  apply repr_cell.
  - by rewrite Hcsv.
  - done.
  - intros Hnil. rewrite Hlabel. by apply Hlv.
  - rewrite Forall_forall in Hsub. apply Forall_forall. intros c Hc.
    apply (repr_frame h); [by apply Hsub|]. intros m Hm.
    assert (Hmv : m ∈ concat (map ids tsv)).
    { apply elem_of_concat_map. eauto. }
    apply Hsame; intros ->.
    + apply HN. by apply list_elem_of_further.
    + apply Hloser. by apply list_elem_of_further.
    + apply HP. by apply list_elem_of_further.
    + done.
Qed.

Lemma repr_kink_removed (h h2 : heap) (q : option nat) (N P : nat)
    (l r : list tree) (ta tb tl tv : tree) :
  repr h q (T P (l ++ T N [ta; tb] :: r)) →
  NoDup (ids (T P (l ++ T N [ta; tb] :: r))) →
  (tl = ta ∧ tv = tb) ∨ (tl = tb ∧ tv = ta) →
  (∀ m, m ≠ N → m ≠ tid tl → m ≠ P → m ≠ tid tv → h2 !! m = h !! m) →
  children_of h2 P =
    Some (remove_first N (map tid (l ++ T N [ta; tb] :: r)) ++ [tid tv]) →
  parent_of h2 P = parent_of h P →
  children_of h2 (tid tv) = children_of h (tid tv) →
  parent_of h2 (tid tv) = Some (Some P) →
  (∀ m, label_of h2 m = label_of h m) →
  repr h2 q (T P (l ++ r ++ [tv])).
Proof.
  intros Hrepr Hnd Hchoice Hsame HcsP HparP Hcsv Hparv Hlabel.
  apply repr_cell_inv in Hrepr as (HcP & HpP & _ & Hts).
  apply Forall_app in Hts as [Hl Hts]. apply Forall_cons in Hts as [HN Hr].
  apply repr_cell_inv in HN as (HcN & HpN & _ & Hab).
  apply Forall_cons in Hab as [Ha Hab]. apply Forall_cons in Hab as [Hb _].
  rewrite ids_hole in Hnd.
  apply NoDup_hole in Hnd as (HP & HNn & HL & HR & HAB & _ & HndA & HndB & _).
  assert (Htl : tid tl ∈ ids ta ∨ tid tl ∈ ids tb).
  { destruct Hchoice as [[-> _]|[-> _]]; [left|right]; apply tid_in_ids. }
  assert (Htv : tid tv ∈ ids ta ∨ tid tv ∈ ids tb).
  { destruct Hchoice as [[_ ->]|[_ ->]]; [right|left]; apply tid_in_ids. }
  assert (HoutL : ∀ m, m ∈ concat (map ids l) →
            m ≠ N ∧ m ≠ tid tl ∧ m ≠ P ∧ m ≠ tid tv).
  { intros m Hm. destruct (HL m Hm) as (HmA & HmB & _).
    repeat split; intros ->; tauto. }
  assert (HoutR : ∀ m, m ∈ concat (map ids r) →
            m ≠ N ∧ m ≠ tid tl ∧ m ≠ P ∧ m ≠ tid tv).
  { intros m Hm. destruct (HR m Hm) as (HmA & HmB).
    repeat split; intros ->; tauto. }
  apply repr_cell.
  - rewrite HcsP. rewrite !map_app. simpl.
    rewrite remove_first_app_notin; [by rewrite <-(assoc_L (++))|].
    intros HNl. apply list_elem_of_fmap in HNl as (c & HNc & Hc).
    destruct HNn as (HNL & _). apply HNL. rewrite HNc. by apply tid_in_concat_ids.
  - by rewrite HparP.
  - intros Hnil. apply app_eq_nil in Hnil as [_ Hnil].
    by apply app_eq_nil in Hnil as [_ ?].
  - apply Forall_app. split; [|apply Forall_app; split].
    + rewrite Forall_forall in Hl. apply Forall_forall. intros c Hc.
      apply (repr_frame h); [by apply Hl|]. intros m Hm.
      destruct (HoutL m) as (? & ? & ? & ?); [|by apply Hsame].
      apply elem_of_concat_map. eauto.
    + rewrite Forall_forall in Hr. apply Forall_forall. intros c Hc.
      apply (repr_frame h); [by apply Hr|]. intros m Hm.
      destruct (HoutR m) as (? & ? & ? & ?); [|by apply Hsame].
      apply elem_of_concat_map. eauto.
    + apply Forall_cons. split; [|constructor].
      destruct HP as (_ & _ & HPA & HPB & _). destruct HNn as (_ & HNA & HNB & _).
      destruct Hchoice as [[-> ->]|[-> ->]].
      * apply (repr_survivor h h2 N P (tid ta)); try done.
        intros Hin. apply (HAB (tid ta)); [apply tid_in_ids|done].
      * apply (repr_survivor h h2 N P (tid tb)); try done.
        intros Hin. apply (HAB (tid tb)); [done|apply tid_in_ids].
Qed.

(** ** Binary trees and the names below the children of the root *)

(** Every node has no child or two. *)
Inductive binary : tree → Prop :=
  | binary_T n ts :
      ts = [] ∨ Datatypes.length ts = 2 → Forall binary ts → binary (T n ts).

Lemma binary_inv (n : nat) (ts : list tree) :
  binary (T n ts) → (ts = [] ∨ Datatypes.length ts = 2) ∧ Forall binary ts.
Proof. by inversion 1. Qed.

Lemma binary_subtree (s t : tree) : subtree s t → binary t → binary s.
Proof.
  induction 1 as [|s t n ts Hin Hsub IH]; [done|].
  intros [_ Hts]%binary_inv. rewrite Forall_forall in Hts. auto.
Qed.

Lemma binary_plug (ctx : list frame) (s s' : tree) :
  (binary s → binary s') → binary (plug ctx s) → binary (plug ctx s').
Proof.
  intros Hs. induction ctx as [|[[n l] r] ctx IH]; simpl; [done|].
  intros [Hlen Hts]%binary_inv. constructor.
  - right. destruct Hlen as [Hnil|Hlen]; [by apply app_eq_nil in Hnil as [_ ?]|].
    by rewrite length_app in *.
  - apply Forall_app in Hts as [Hl Hts]. apply Forall_cons in Hts as [Hmid Hr].
    apply Forall_app. split; [done|]. apply Forall_cons. auto.
Qed.

Lemma tips_cons (n : nat) (c : tree) (cs : list tree) :
  tips (T n (c :: cs)) = concat (map tips (c :: cs)).
Proof. reflexivity. Qed.

Lemma tips_app (n : nat) (l r : list tree) (c : tree) :
  tips (T n (l ++ c :: r)) = concat (map tips (l ++ c :: r)).
Proof. destruct l; reflexivity. Qed.

Lemma names_app (h : heap) (n : nat) (l r : list tree) (c : tree) :
  names h (T n (l ++ c :: r)) = concat (map (names h) (l ++ c :: r)).
Proof.
  unfold names. rewrite tips_app, concat_map, map_map. done.
Qed.

Lemma names_same_labels (h h2 : heap) (t : tree) :
  (∀ m, label_of h2 m = label_of h m) → names h2 t = names h t.
Proof.
  intros Hl. unfold names. apply map_ext. intros m. unfold name_at.
  by rewrite (label_at_label_of h h2 m).
Qed.

Lemma tips_plug_subseteq (ctx : list frame) (s s' : tree) :
  tips s' ⊆ tips s → tips (plug ctx s') ⊆ tips (plug ctx s).
Proof.
  intros Hs. induction ctx as [|[[n l] r] ctx IH]; simpl plug; [done|].
  rewrite !tips_app, !map_app, !concat_app. simpl.
  intros x. rewrite !elem_of_app. intros [?|[?|?]]; auto.
Qed.

(** Every name is among the tips of at most one of the trees. *)
Definition names_once (ls : list (list string)) : Prop :=
  ∀ x, Datatypes.length (filter (λ l, x ∈ l) ls) ≤ 1.

Lemma names_once_perm (ls ls' : list (list string)) :
  ls ≡ₚ ls' → names_once ls → names_once ls'.
Proof. intros Hp H x. by rewrite <-Hp. Qed.

Lemma names_once_sub (ls ls' : list (list string)) :
  Forall2 (λ l' l, l' ⊆ l) ls' ls → names_once ls → names_once ls'.
Proof.
  intros Hsub H x. etrans; [|apply (H x)]. clear H.
  induction Hsub as [|l' l ls' ls Hl Hls IH]; [done|].
  rewrite !filter_cons. destruct (decide (x ∈ l')) as [Hx|Hx].
  - rewrite decide_True by (by apply Hl). simpl. lia.
  - destruct (decide (x ∈ l)); simpl; lia.
Qed.

Lemma names_once_remove (l1 l2 : list (list string)) (x : list string) :
  names_once (l1 ++ x :: l2) → names_once (l1 ++ l2).
Proof.
  intros H y. specialize (H y). rewrite filter_app, filter_cons, length_app in H.
  rewrite filter_app, length_app. destruct (decide (y ∈ x)); simpl in H; lia.
Qed.

Lemma names_once_NoDup (ls : list (list string)) :
  names_once ls → Forall NoDup ls → NoDup (concat ls).
Proof.
  induction ls as [|l ls IH]; intros Honce Hnd; simpl; [constructor|].
  apply Forall_cons in Hnd as [Hl Hls]. apply NoDup_app. split; [done|]. split.
  - intros x Hx Hx'. specialize (Honce x).
    rewrite filter_cons, decide_True in Honce by done. simpl in Honce.
    rewrite <-(map_id ls) in Hx'.
    apply elem_of_concat_map in Hx' as (l' & Hl' & Hx'').
    assert (Hin : l' ∈ filter (λ l, x ∈ l) ls) by (by apply list_elem_of_filter).
    destruct (filter (λ l, x ∈ l) ls); [by apply elem_of_nil in Hin|].
    simpl in Honce. lia.
  - apply IH; [|done]. intros x. specialize (Honce x).
    rewrite filter_cons in Honce. destruct (decide (x ∈ l)); simpl in Honce; lia.
Qed.

(** ** The nodes of the tree after a mutation *)

Lemma ids_kink_removed (P : nat) (l r : list tree) (tv : tree) :
  ids (T P (l ++ r ++ [tv])) =
  P :: concat (map ids l) ++ concat (map ids r) ++ ids tv.
Proof. simpl. rewrite !map_app, !concat_app. simpl. by rewrite app_nil_r. Qed.

Lemma kink_perm {A} (P N : A) (L R X Y : list A) :
  P :: L ++ (N :: X ++ Y) ++ R ≡ₚ (N :: X) ++ P :: L ++ R ++ Y.
Proof.
  simpl. rewrite <-!Permutation_middle. rewrite (Permutation_swap P N).
  do 2 constructor.
  rewrite <-!(assoc_L (++)).
  rewrite (Permutation_app_swap_app L X). f_equiv. f_equiv.
  apply Permutation_app_comm.
Qed.

Lemma kink_perm' {A} (P N : A) (L R X Y : list A) :
  P :: L ++ (N :: X ++ Y) ++ R ≡ₚ (N :: Y) ++ P :: L ++ R ++ X.
Proof.
  rewrite <-(kink_perm P N L R Y X). constructor.
  apply Permutation_app_head, Permutation_app_tail. constructor.
  apply Permutation_app_comm.
Qed.

(** The nodes before the mutation are the nodes after it, the node [N] and
    the nodes of the clade that is cut. *)
Lemma ids_kink_perm (P N : nat) (l r : list tree) (ta tb tl tv : tree) :
  (tl = ta ∧ tv = tb) ∨ (tl = tb ∧ tv = ta) →
  ids (T P (l ++ T N [ta; tb] :: r)) ≡ₚ
  (N :: ids tl) ++ ids (T P (l ++ r ++ [tv])).
Proof.
  intros Hchoice. rewrite ids_hole, ids_kink_removed.
  destruct Hchoice as [[-> ->]|[-> ->]]; [apply kink_perm|apply kink_perm'].
Qed.

(** ** One mutation of the pruning pass, on the whole tree *)

(** Lines 298-304: cut the side with fewer taxa, then remove the kink. *)
Definition mutate (h : heap) (root N a b : nat) (na nb : list string)
    : result (option (heap * nat)) :=
  h ← cut_fewer h N a b (name_set na) (name_set nb);
  '(h, node, root) ← remove_kink h N root;
  Ok (Some (h, root)).

Lemma repr_lookup (h : heap) (p : option nat) (t : tree) :
  repr h p t → is_Some (h !! tid t).
Proof. inversion 1; subst. simpl. eauto. Qed.

Lemma mutate_hole (h : heap) (q : option nat) (root N P : nat)
    (l r : list tree) (ta tb : tree) (na nb : list string) :
  repr h q (T P (l ++ T N [ta; tb] :: r)) →
  NoDup (ids (T P (l ++ T N [ta; tb] :: r))) →
  N ≠ root →
  ∃ h2 tl tv, ((tl = ta ∧ tv = tb) ∨ (tl = tb ∧ tv = ta)) ∧
    mutate h root N (tid ta) (tid tb) na nb = Ok (Some (h2, root)) ∧
    (∀ m, m ≠ N → m ≠ tid tl → m ≠ P → m ≠ tid tv → h2 !! m = h !! m) ∧
    children_of h2 P =
      Some (remove_first N (map tid (l ++ T N [ta; tb] :: r)) ++ [tid tv]) ∧
    parent_of h2 P = parent_of h P ∧
    children_of h2 (tid tv) = children_of h (tid tv) ∧
    parent_of h2 (tid tv) = Some (Some P) ∧
    (∀ m, label_of h2 m = label_of h m).
Proof.
  intros Hrepr Hnd HNr.
  apply repr_cell_inv in Hrepr as (HcP & HpP & _ & Hts).
  apply Forall_app in Hts as [Hl Hts]. apply Forall_cons in Hts as [HN Hr].
  apply repr_cell_inv in HN as (HcN & HpN & _ & Hab).
  apply Forall_cons in Hab as [Ha Hab]. apply Forall_cons in Hab as [Hb _].
  apply repr_lookup in Ha as Hsa. apply repr_lookup in Hb as Hsb.
  rewrite ids_hole in Hnd.
  apply NoDup_hole in Hnd as (HP & HNn & HL & HR & HAB & _).
  destruct HP as (_ & HPN & HPA & HPB & _). destruct HNn as (_ & HNA & HNB & _).
  pose proof (tid_in_ids ta) as Hina. pose proof (tid_in_ids tb) as Hinb.
  assert (Hab' : tid ta ≠ tid tb).
  { intros Heq. apply (HAB (tid ta)); [done|by rewrite Heq]. }
  assert (HNa : N ≠ tid ta) by (by intros ->).
  assert (HNb : N ≠ tid tb) by (by intros ->).
  assert (HPa : P ≠ tid ta) by (by intros ->).
  assert (HPb : P ≠ tid tb) by (by intros ->).
  simpl in HcN.
  destruct (lookup_Some_fields _ _ _ _ HcN HpN) as (nd & Hnd & Hcs & Hpar).
  assert (HinP : N ∈ map tid (l ++ T N [ta; tb] :: r)).
  { rewrite map_app. apply elem_of_app. right. apply list_elem_of_here. }
  unfold mutate.
  rewrite (cut_fewer_Ok h N (tid ta) (tid tb) nd); try done;
    [|rewrite Hcs; apply list_elem_of_here
     |rewrite Hcs; apply list_elem_of_further, list_elem_of_here].
  rewrite Hcs. unfold fewer_taxa. simpl.
  case_bool_decide as Hsz.
  - destruct (detach_remove_kink h root N P (tid tb) (tid ta) [tid ta; tid tb]
                (map tid (l ++ T N [ta; tb] :: r)))
      as (h2 & Hrk & Hframe & Hrest); try done.
    { simpl. rewrite decide_False by done. by rewrite decide_True. }
    exists h2, tb, ta. split; [by right|]. rewrite Hrk. simpl.
    split; [done|]. split; [|done].
    intros m ? ? ? ?. by apply Hframe.
  - destruct (detach_remove_kink h root N P (tid ta) (tid tb) [tid ta; tid tb]
                (map tid (l ++ T N [ta; tb] :: r)))
      as (h2 & Hrk & Hframe & Hrest); try done.
    { simpl. by rewrite decide_True. }
    exists h2, ta, tb. split; [by left|]. rewrite Hrk. simpl.
    split; [done|]. split; [|done].
    intros m ? ? ? ?. by apply Hframe.
Qed.

(** ** The invariant of the pruning loop *)

(** The tree is well formed, no node is shared, every node below the root
    has no child or two, and every name is among the tips of at most one
    child of the root. *)
Definition pruning_inv (h : heap) (t : tree) : Prop :=
  repr h None t ∧ NoDup (ids t) ∧ Forall binary (subtrees t) ∧
  names_once (map (names h) (subtrees t)).

(** The tips of [t2] are tips of [t], and no label has changed from [h] to
    [h2]. *)
Definition pruned_from (h : heap) (t : tree) (h2 : heap) (t2 : tree) : Prop :=
  tips t2 ⊆ tips t ∧ ∀ m, label_of h2 m = label_of h m.

Lemma pruned_from_refl (h : heap) (t : tree) : pruned_from h t h t.
Proof. by split. Qed.

Lemma pruned_from_trans (h1 h2 h3 : heap) (t1 t2 t3 : tree) :
  pruned_from h1 t1 h2 t2 → pruned_from h2 t2 h3 t3 → pruned_from h1 t1 h3 t3.
Proof.
  intros [Ht12 Hl12] [Ht23 Hl23]. split.
  - intros x Hx. by apply Ht12, Ht23.
  - intros m. by rewrite Hl23.
Qed.

Lemma names_subseteq (h : heap) (t' t : tree) :
  tips t' ⊆ tips t → names h t' ⊆ names h t.
Proof.
  intros Hsub x. unfold names.
  intros (m & -> & Hm)%list_elem_of_fmap. apply list_elem_of_fmap. eauto.
Qed.

Lemma tips_survivor (N : nat) (ta tb tv : tree) :
  tv = ta ∨ tv = tb → tips tv ⊆ tips (T N [ta; tb]).
Proof.
  intros Hv. rewrite tips_cons. simpl. rewrite app_nil_r.
  intros x Hx. apply elem_of_app. destruct Hv as [->| ->]; auto.
Qed.

Lemma tips_kink_removed (P N : nat) (l r : list tree) (ta tb tv : tree) :
  tv = ta ∨ tv = tb →
  tips (T P (l ++ r ++ [tv])) ⊆ tips (T P (l ++ T N [ta; tb] :: r)).
Proof.
  intros Hv. rewrite (assoc_L (++) l r [tv]).
  rewrite (tips_app P (l ++ r) [] tv), (tips_app P l r).
  rewrite !map_app, !concat_app. simpl. rewrite app_nil_r.
  pose proof (tips_survivor N ta tb tv Hv) as Hsub.
  rewrite tips_cons in Hsub. simpl in Hsub.
  intros x. rewrite !elem_of_app. intros [[?|?]|Hx]; auto.
  apply Hsub in Hx. rewrite !elem_of_app in Hx. tauto.
Qed.

Lemma binary_kink_removed (P N : nat) (l r : list tree) (ta tb tv : tree) :
  tv = ta ∨ tv = tb →
  binary (T P (l ++ T N [ta; tb] :: r)) → binary (T P (l ++ r ++ [tv])).
Proof.
  intros Hv [Hlen Hts]%binary_inv.
  apply Forall_app in Hts as [Hl Hts]. apply Forall_cons in Hts as [HN Hr].
  apply binary_inv in HN as [_ Hab].
  apply Forall_cons in Hab as [Ha Hab]. apply Forall_cons in Hab as [Hb _].
  constructor.
  - right. destruct Hlen as [Hnil|Hlen]; [by apply app_eq_nil in Hnil as [_ ?]|].
    rewrite !length_app in *. simpl in *. lia.
  - apply Forall_app. split; [done|]. apply Forall_app. split; [done|].
    apply Forall_cons. split; [|constructor]. by destruct Hv as [->| ->].
Qed.

Lemma names_once_hole (h h2 : heap) (L R : list tree) (c c' : tree) :
  (∀ m, label_of h2 m = label_of h m) → tips c' ⊆ tips c →
  names_once (map (names h) (L ++ c :: R)) →
  names_once (map (names h2) (L ++ c' :: R)).
Proof.
  intros Hlabel Hsub. apply names_once_sub.
  rewrite !map_app. simpl.
  assert (Hsame : ∀ ts, Forall2 (λ l' l : list string, l' ⊆ l)
                          (map (names h2) ts) (map (names h) ts)).
  { induction ts as [|t ts IH]; simpl; constructor; [|done].
    by rewrite (names_same_labels h h2). }
  apply Forall2_app; [done|]. constructor; [|done].
  rewrite (names_same_labels h h2) by done. by apply names_subseteq.
Qed.

Lemma map_tid_two (ts : list tree) (a b : nat) :
  map tid ts = [a; b] → ∃ ta tb, ts = [ta; tb] ∧ tid ta = a ∧ tid tb = b.
Proof.
  destruct ts as [|ta [|tb [|? ?]]]; simpl; intros [= ? ?]; eauto.
Qed.

(** A mutation keeps the invariant and takes nodes off the tree. *)
Lemma prune_mutation (h : heap) (t : tree) (N a b : nat) (na nb : list string) :
  pruning_inv h t → N ∈ ids t → N ≠ tid t → children_of h N = Some [a; b] →
  ∃ h2 t2, mutate h (tid t) N a b na nb = Ok (Some (h2, tid t)) ∧
    pruning_inv h2 t2 ∧ tid t2 = tid t ∧
    Datatypes.length (ids t2) < Datatypes.length (ids t) ∧
    pruned_from h t h2 t2 ∧
    (∀ x, x ∈ subtrees t → N ∉ ids x → x ∈ subtrees t2).
Proof.
  intros (Hrepr & Hnd & Hbin & Honce) HN HNr HcsN.
  destruct (plug_decompose t N HN HNr) as (ctx & P & l & r & sN & -> & HsN).
  destruct (repr_plug_inv _ _ _ _ Hrepr) as [q Hq].
  destruct sN as [N' ts]. simpl in HsN. subst N'.
  assert (Hts : ∃ ta tb, ts = [ta; tb] ∧ tid ta = a ∧ tid tb = b).
  { apply repr_cell_inv in Hq as (_ & _ & _ & Hsub).
    apply Forall_app in Hsub as [_ Hsub]. apply Forall_cons in Hsub as [Hsub _].
    apply repr_cell_inv in Hsub as (Hc & _). rewrite HcsN in Hc.
    injection Hc as Hc. by apply map_tid_two. }
  destruct Hts as (ta & tb & -> & <- & <-).
  set (s := T P (l ++ T N [ta; tb] :: r)) in *.
  assert (Hnd' := Hnd). rewrite ids_plug in Hnd'.
  apply NoDup_app in Hnd' as (Hnds & Hdisj & Hndc).
  destruct (mutate_hole h q (tid (plug ctx s)) N P l r ta tb na nb Hq Hnds HNr)
    as (h2 & tl & tv & Hchoice & Hmut & Hframe & HcP & HpP & Hcv & Hpv & Hlabel).
  set (s' := T P (l ++ r ++ [tv])).
  assert (Hv : tv = ta ∨ tv = tb) by (destruct Hchoice as [[_ ->]|[_ ->]]; auto).
  assert (Hperm : ids s ≡ₚ (N :: ids tl) ++ ids s') by (by apply ids_kink_perm).
  exists h2, (plug ctx s'). split; [|split; [|split; [|split; [|split]]]].
  - rewrite Hmut. done.
  - split; [|split; [|split]].
    + apply (repr_plug_change h h2 None ctx s s'); [done|done| |].
      * intros q' Hq'. by apply (repr_kink_removed h h2 q' N P l r ta tb tl tv).
      * intros m Hm. apply Hframe; intros ->; (eapply Hdisj; [|exact Hm]).
        -- unfold s. rewrite ids_hole. apply list_elem_of_further, elem_of_app.
           right. apply elem_of_app. left. apply list_elem_of_here.
        -- rewrite Hperm. apply elem_of_app. left.
           apply list_elem_of_further, tid_in_ids.
        -- apply list_elem_of_here.
        -- rewrite Hperm. apply elem_of_app. right. unfold s'.
           rewrite ids_kink_removed. apply list_elem_of_further.
           rewrite !elem_of_app. right. right. apply tid_in_ids.
    + rewrite ids_plug. rewrite ids_plug, Hperm, <-(assoc_L (++)) in Hnd.
      by apply NoDup_app in Hnd as (_ & _ & Hnd).
    + destruct ctx as [|[[n l0] r0] ctx]; simpl plug in *; simpl subtrees in *.
      * apply Forall_app in Hbin as [Hl Hbin]. apply Forall_cons in Hbin as [HbN Hr].
        apply binary_inv in HbN as [_ Hab].
        apply Forall_cons in Hab as [Ha Hab]. apply Forall_cons in Hab as [Hb _].
        apply Forall_app. split; [done|]. apply Forall_app. split; [done|].
        apply Forall_cons. split; [|constructor]. by destruct Hv as [->| ->].
      * apply Forall_app in Hbin as [Hl Hbin]. apply Forall_cons in Hbin as [Hmid Hr].
        apply Forall_app. split; [done|]. apply Forall_cons. split; [|done].
        revert Hmid. apply binary_plug. by apply binary_kink_removed.
    + destruct ctx as [|[[n l0] r0] ctx]; simpl plug in *; simpl subtrees in *.
      * apply (names_once_perm (map (names h2) (l ++ tv :: r))).
        { apply Permutation_map. rewrite <-Permutation_middle.
          rewrite (Permutation_app_comm r [tv]). simpl.
          by rewrite <-Permutation_middle. }
        revert Honce. apply names_once_hole; [done|]. by apply tips_survivor.
      * revert Honce. apply names_once_hole; [done|].
        apply tips_plug_subseteq. by apply tips_kink_removed.
  - by apply tid_plug.
  - rewrite !ids_plug, Hperm. rewrite !length_app. simpl. lia.
  - split; [|done]. apply tips_plug_subseteq. by apply tips_kink_removed.
  - intros x Hx HNx.
    destruct ctx as [|[[n l0] r0] ctx]; simpl plug in *; simpl subtrees in *.
    + rewrite !elem_of_app. rewrite elem_of_app, elem_of_cons in Hx.
      destruct Hx as [?|[->|?]]; [by left| |right; by left].
      destruct HNx. apply list_elem_of_here.
    + rewrite elem_of_app, elem_of_cons. rewrite elem_of_app, elem_of_cons in Hx.
      destruct Hx as [?|[->|?]]; [by left| |right; by right].
      destruct HNx. rewrite ids_plug. apply elem_of_app. left. unfold s.
      rewrite ids_hole. apply list_elem_of_further, elem_of_app. right.
      apply elem_of_app. left. apply list_elem_of_here.
Qed.

(** ** A pass of the pruning loop *)

(** No name is below both children of [node]. *)
Definition clean (h : heap) (node : nat) : Prop :=
  ∀ a b na nb, children_of h node = Some [a; b] →
    get_front_names h a = Ok na → get_front_names h b = Ok nb →
    ¬ names_intersect na nb.

Lemma subtree_inv (s t : tree) :
  subtree s t → s = t ∨ ∃ c, c ∈ subtrees t ∧ subtree s c.
Proof. destruct 1 as [|s t n ts Hin Hsub]; [by left|right; eauto]. Qed.

Lemma subtree_trans_child (s : tree) (n : nat) (ts : list tree) (c t : tree) :
  c ∈ ts → subtree (T n ts) t → subtree c t.
Proof.
  intros Hc Hsub. remember (T n ts) as s' eqn:Hs.
  induction Hsub as [|s' t m ts' Hin Hsub IH]; subst.
  - eapply subtree_child; [done|constructor].
  - eapply subtree_child; [done|]. by apply IH.
Qed.

(** What the invariant says of a node below the root that is not a tip. *)
Lemma inv_internal_node (h : heap) (t : tree) (node : nat) (nd : Node.t) :
  pruning_inv h t → node ∈ ids t → node ≠ tid t → h !! node = Some nd →
  Node.children nd ≠ [] →
  ∃ ta tb, Node.children nd = [tid ta; tid tb] ∧
    get_front_names h (tid ta) = Ok (names h ta) ∧
    get_front_names h (tid tb) = Ok (names h tb).
Proof.
  intros (Hrepr & Hnd & Hbin & _) Hin Hne Hnode Hcs.
  destruct (ids_subtree t node Hin) as (s & Hsub & Hs).
  destruct (repr_subtree h None s t Hsub Hrepr) as (q & Hq & _).
  assert (Hbs : binary s).
  { destruct (subtree_inv s t Hsub) as [->|(c & Hc & Hsc)]; [done|].
    apply (binary_subtree s c Hsc). rewrite Forall_forall in Hbin. auto. }
  destruct s as [n ts]. simpl in Hs. subst n.
  pose proof (repr_ids_length h None t Hrepr Hnd) as Hlen.
  apply binary_inv in Hbs as [Hshape _].
  inversion Hq as [p' n' ts' nd' Hn' Hp' Hcs' Hl' Hts']; subst.
  rewrite Hnode in Hn'. injection Hn' as <-.
  destruct Hshape as [->|Hlen2]; [by rewrite Hcs' in Hcs|].
  destruct ts as [|ta [|tb [|? ?]]]; simpl in Hlen2; try lia.
  apply Forall_cons in Hts' as [Ha Hts']. apply Forall_cons in Hts' as [Hb _].
  exists ta, tb. split; [done|].
  assert (Hsa : subtree ta t).
  { apply (subtree_trans_child ta node [ta; tb]); [apply list_elem_of_here|done]. }
  assert (Hsb : subtree tb t).
  { apply (subtree_trans_child tb node [ta; tb]); [|done].
    apply list_elem_of_further, list_elem_of_here. }
  apply subtree_ids_length in Hsa, Hsb.
  split; eapply get_front_names_repr; try done; lia.
Qed.

(** The tips below a node are a part of the tips of the tree, in order. *)
Lemma subtree_tips_sublist (s t : tree) : subtree s t → sublist (tips s) (tips t).
Proof.
  induction 1 as [|s t n ts Hin Hsub IH]; [done|].
  apply list_elem_of_split in Hin as (l & r & ->).
  rewrite tips_app, map_app, concat_app. simpl.
  apply sublist_inserts_l, sublist_inserts_r. done.
Qed.

Lemma subtree_names_NoDup (h : heap) (s t : tree) :
  subtree s t → NoDup (names h t) → NoDup (names h s).
Proof.
  intros Hsub Hnd. eapply sublist_NoDup; [exact Hnd|]. unfold names.
  change (sublist (name_at h <$> tips s) (name_at h <$> tips t)).
  by apply fmap_sublist, subtree_tips_sublist.
Qed.

(** A clade without a duplicate name has no node whose children share a
    name. *)
Lemma intersecting_node_duplicates (h : heap) (q : option nat) (x : tree)
    (node : nat) (nd : Node.t) (a b : nat) (na nb : list string) :
  repr h q x → Datatypes.length (ids x) ≤ Datatypes.length h →
  node ∈ ids x → h !! node = Some nd → Node.children nd = [a; b] →
  get_front_names h a = Ok na → get_front_names h b = Ok nb →
  names_intersect na nb → ¬ NoDup (names h x).
Proof.
  intros Hrepr Hlen Hnode Hnd Hcs Ha Hb (name & Hna & Hnb) Hnodup.
  destruct (ids_subtree x node Hnode) as (s & Hsub & Hs).
  destruct (repr_subtree h q s x Hsub Hrepr) as (q' & Hq' & _).
  pose proof (subtree_ids_length s x Hsub) as Hls.
  destruct s as [n ts]. simpl in Hs. subst n.
  inversion Hq' as [p' n' ts' nd' Hn' Hp' Hcs' Hl' Hts']; subst.
  rewrite Hnd in Hn'. injection Hn' as <-.
  rewrite Hcs in Hcs'. symmetry in Hcs'.
  apply map_tid_two in Hcs' as (ta & tb & -> & <- & <-).
  apply Forall_cons in Hts' as [Hta Hts']. apply Forall_cons in Hts' as [Htb _].
  simpl in Hls. rewrite app_nil_r, length_app in Hls.
  rewrite (get_front_names_repr h _ ta Hta) in Ha by lia.
  rewrite (get_front_names_repr h _ tb Htb) in Hb by lia.
  injection Ha as <-. injection Hb as <-.
  apply (subtree_names_NoDup h _ _ Hsub) in Hnodup.
  assert (Htwo : names h (T node [ta; tb]) = names h ta ++ names h tb).
  { unfold names. simpl. by rewrite app_nil_r, map_app. }
  rewrite Htwo in Hnodup. apply NoDup_app in Hnodup as (_ & Hdis & _).
  by apply (Hdis name).
Qed.

Lemma prune_scan_inv (h : heap) (t : tree) (nodes : list nat) :
  pruning_inv h t → nodes ⊆ ids t →
  (prune_scan h (tid t) nodes = Ok None ∧
   ∀ N, N ∈ nodes → N ≠ tid t → clean h N) ∨
  (∃ h2 t2, prune_scan h (tid t) nodes = Ok (Some (h2, tid t)) ∧
     pruning_inv h2 t2 ∧ tid t2 = tid t ∧
     Datatypes.length (ids t2) < Datatypes.length (ids t) ∧
     pruned_from h t h2 t2 ∧
     (∀ x, x ∈ subtrees t → NoDup (names h x) → x ∈ subtrees t2)).
Proof.
  intros Hinv. induction nodes as [|node nodes IH]; intros Hsub.
  { left. split; [done|]. by intros N ?%elem_of_nil. }
  assert (Hin : node ∈ ids t) by (apply Hsub, list_elem_of_here).
  assert (Hsub' : nodes ⊆ ids t).
  { intros x Hx. by apply Hsub, list_elem_of_further. }
  specialize (IH Hsub').
  destruct Hinv as (Hrepr & Hinv'). pose proof (conj Hrepr Hinv') as Hinv.
  destruct (repr_ids_lookup h None t Hrepr node Hin) as [nd Hnode].
  simpl. rewrite (deref_Some _ _ _ Hnode). simpl.
  assert (Hskip :
    (∀ a b, Node.children nd = [a; b] → ∀ na nb,
       get_front_names h a = Ok na → get_front_names h b = Ok nb →
       node ≠ tid t → ¬ names_intersect na nb) →
    (prune_scan h (tid t) nodes = Ok None ∧
     ∀ N, N ∈ node :: nodes → N ≠ tid t → clean h N) ∨
    (∃ h2 t2, prune_scan h (tid t) nodes = Ok (Some (h2, tid t)) ∧
       pruning_inv h2 t2 ∧ tid t2 = tid t ∧
       Datatypes.length (ids t2) < Datatypes.length (ids t) ∧
       pruned_from h t h2 t2 ∧
       (∀ x, x ∈ subtrees t → NoDup (names h x) → x ∈ subtrees t2))).
  { intros Hclean. destruct IH as [[Hnone Hall]|Hsome]; [left|by right].
    split; [done|]. intros N [->|HN]%elem_of_cons HNr; [|by apply Hall].
    intros a b na nb (nd' & Hnd' & Hcs)%children_of_inv Ha Hb.
    rewrite Hnode in Hnd'. injection Hnd' as <-. by eapply Hclean. }
  unfold Node.istip. case_bool_decide as Htip.
  { apply Hskip. intros a b Hcs. by rewrite Htip in Hcs. }
  case_bool_decide as Hroot.
  { apply Hskip. intros a b _ na nb _ _ Hne. done. }
  destruct (inv_internal_node h t node nd Hinv Hin Hroot Hnode Htip)
    as (ta & tb & Hcs & Hfa & Hfb).
  rewrite Hcs. simpl. rewrite Hfa, Hfb. simpl.
  case_bool_decide as Hint.
  - right.
    destruct (prune_mutation h t node (tid ta) (tid tb) (names h ta) (names h tb))
      as (h2 & t2 & Hmut & Hinv2 & Htid2 & Hless & Hfrom & Hkeep); try done.
    { unfold children_of. by rewrite Hnode, <-Hcs. }
    exists h2, t2. split; [exact Hmut|]. do 4 (split; [done|]).
    intros x Hx Hndx. apply Hkeep; [done|]. intros Hnx.
    destruct Hinv' as (Hndt & _).
    pose proof (repr_ids_length h None t Hrepr Hndt) as Hlent.
    destruct t as [root ts]. simpl in Hx.
    apply repr_cell_inv in Hrepr as (_ & _ & _ & Hts).
    rewrite Forall_forall in Hts.
    pose proof (ids_length_child x ts Hx) as Hlenx. simpl in Hlent.
    apply (intersecting_node_duplicates h (Some root) x node nd (tid ta) (tid tb)
             (names h ta) (names h tb)); try done; [by apply Hts|lia|].
    by apply size_intersection_pos.
  - apply Hskip. intros a b Hab na nb Ha Hb _.
    rewrite Hcs in Hab. injection Hab as <- <-.
    rewrite Hfa in Ha. rewrite Hfb in Hb. injection Ha as <-. injection Hb as <-.
    by rewrite <-size_intersection_pos.
Qed.

(** ** A pass without a mutation: no name is left twice *)

Lemma names_tip (h : heap) (n : nat) : names h (T n []) = [name_at h n].
Proof. reflexivity. Qed.

Lemma names_two (h : heap) (n : nat) (ta tb : tree) :
  names h (T n [ta; tb]) = names h ta ++ names h tb.
Proof. unfold names. simpl. by rewrite app_nil_r, map_app. Qed.

Lemma clean_NoDup (h : heap) (q : option nat) (c : tree) :
  repr h q c → binary c → Datatypes.length (ids c) ≤ Datatypes.length h →
  (∀ N, N ∈ ids c → clean h N) → NoDup (names h c).
Proof.
  induction 1 as [p n ts nd Hn Hp Hcs Hl Hts IH] using repr_ind'.
  intros [Hshape Hbin]%binary_inv Hlen Hclean.
  destruct Hshape as [->|Hlen2].
  { rewrite names_tip. apply NoDup_singleton. }
  destruct ts as [|ta [|tb [|? ?]]]; simpl in Hlen2; try lia.
  apply Forall_cons in Hts as [Ha Hts]. apply Forall_cons in Hts as [Hb _].
  apply Forall_cons in IH as [IHa IH]. apply Forall_cons in IH as [IHb _].
  apply Forall_cons in Hbin as [Hba Hbin]. apply Forall_cons in Hbin as [Hbb _].
  simpl in Hlen. rewrite app_nil_r, length_app in Hlen.
  rewrite names_two. apply NoDup_app. split; [|split].
  - apply IHa; [done|lia|]. intros N HN. apply Hclean. simpl.
    apply list_elem_of_further, elem_of_app. by left.
  - intros x Hxa Hxb.
    apply (Hclean n (list_elem_of_here _ _) (tid ta) (tid tb)
             (names h ta) (names h tb)).
    + unfold children_of. rewrite Hn. simpl. by rewrite Hcs.
    + eapply get_front_names_repr; [done|lia].
    + eapply get_front_names_repr; [done|lia].
    + by exists x.
  - apply IHb; [done|lia|]. intros N HN. apply Hclean. simpl.
    apply list_elem_of_further, elem_of_app. right. by rewrite app_nil_r.
Qed.

Lemma names_children (h : heap) (n : nat) (c : tree) (cs : list tree) :
  names h (T n (c :: cs)) = concat (map (names h) (c :: cs)).
Proof. apply (names_app h n [] cs c). Qed.

Lemma inv_clean_NoDup (h : heap) (t : tree) :
  pruning_inv h t → (∀ N, N ∈ ids t → N ≠ tid t → clean h N) →
  NoDup (names h t).
Proof.
  intros (Hrepr & Hnd & Hbin & Honce) Hclean.
  pose proof (repr_ids_length h None t Hrepr Hnd) as Hlen.
  destruct t as [root [|c cs]].
  { rewrite names_tip. apply NoDup_singleton. }
  rewrite names_children. simpl subtrees in *.
  apply names_once_NoDup; [done|].
  apply repr_cell_inv in Hrepr as (_ & _ & _ & Hts).
  simpl in Hnd. apply NoDup_cons in Hnd as [Hroot _].
  rewrite Forall_forall in Hts, Hbin.
  apply Forall_forall. intros l (t' & -> & Hin)%list_elem_of_fmap.
  apply (clean_NoDup h (Some root)); [by apply Hts|by apply Hbin| |].
  - pose proof (ids_length_child t' (c :: cs) Hin). simpl in *. lia.
  - intros N HN.
    assert (HN' : N ∈ concat (map ids (c :: cs))).
    { apply elem_of_concat_map. eauto. }
    apply Hclean; [by apply list_elem_of_further|]. simpl. by intros ->.
Qed.

(** ** The loop ends *)

Lemma prune_loop_terminates (fuel : nat) (h : heap) (t : tree) :
  pruning_inv h t → Datatypes.length (ids t) ≤ fuel →
  ∃ h' t', prune_loop fuel h (tid t) = Ok (h', tid t) ∧
    pruning_inv h' t' ∧ tid t' = tid t ∧ pruned_from h t h' t' ∧
    (∀ x, x ∈ subtrees t → NoDup (names h x) → x ∈ subtrees t').
Proof.
  revert h t. induction fuel as [|fuel IH]; intros h t Hinv Hfuel.
  { pose proof (ids_length_pos t). lia. }
  destruct Hinv as (Hrepr & Hnd & Hinv'). 
  pose proof (conj Hrepr (conj Hnd Hinv')) as Hinv.
  pose proof (repr_ids_length h None t Hrepr Hnd) as Hlen.
  simpl. rewrite (get_front_names_repr h None t) by done. simpl.
  destruct (has_duplicates (names h t)) eqn:Hdup;
    [|exists h, t; split; [done|]; split; [done|]; split; [done|];
      split; [apply pruned_from_refl|done]].
  unfold phylo3.iternodes. rewrite (iternodes_aux_repr h None t) by done. simpl.
  destruct (prune_scan_inv h t (ids t) Hinv) as [[Hnone Hall]|Hsome]; [done| |].
  - exfalso. assert (Hno : has_duplicates (names h t) = false).
    { apply has_duplicates_false, inv_clean_NoDup; [done|]. auto. }
    congruence.
  - destruct Hsome as (h2 & t2 & -> & Hinv2 & Htid & Hless & Hfrom & Hkeep). simpl.
    rewrite <-Htid.
    destruct (IH h2 t2 Hinv2)
      as (h' & t' & Hrun & Hinv3 & Htid3 & Hfrom3 & Hkeep3); [lia|].
    exists h', t'. split; [done|]. split; [done|]. split; [congruence|].
    split; [by eapply pruned_from_trans|].
    intros x Hx Hndx. apply Hkeep3; [by apply Hkeep|].
    destruct Hfrom as [_ Hlabel]. by rewrite (names_same_labels h h2 x).
Qed.

(** ** The cut at the root *)

Lemma names_once_cons (l : list string) (ls : list (list string)) :
  names_once ls → (∀ x l', x ∈ l → l' ∈ ls → x ∉ l') → names_once (l :: ls).
Proof.
  intros Honce Hdis x. rewrite filter_cons. case_decide as Hx; [|apply Honce].
  destruct (filter (λ l0, x ∈ l0) ls) as [|l' ?] eqn:Hf; [simpl; lia|].
  assert (Hin : l' ∈ filter (λ l0, x ∈ l0) ls) by (rewrite Hf; apply list_elem_of_here).
  apply list_elem_of_filter in Hin as [Hx' Hl']. by destruct (Hdis x l' Hx Hl').
Qed.

Lemma names_once_nil : names_once [].
Proof. intros x. simpl. lia. Qed.

Lemma label_of_detach (h : heap) (par child : nat) (cs : list nat) (m : nat) :
  label_of (detach h par child cs) m = label_of h m.
Proof. unfold detach. by rewrite label_of_set_parent, label_of_set_children. Qed.

Lemma lookup_detach_ne (h : heap) (par child : nat) (cs : list nat) (m : nat) :
  m ≠ par → m ≠ child → detach h par child cs !! m = h !! m.
Proof. intros ? ?. unfold detach. by rewrite !list_lookup_alter_ne. Qed.

Lemma ids_children_app (P : nat) (l r : list tree) (c : tree) :
  ids (T P (l ++ c :: r)) =
  P :: concat (map ids l) ++ ids c ++ concat (map ids r).
Proof. simpl. by rewrite map_app, concat_app. Qed.

(** The tree at [P] after the child [c] has been taken off. *)
Lemma repr_detach_child (h : heap) (q : option nat) (P : nat)
    (l r : list tree) (c : tree) :
  repr h q (T P (l ++ c :: r)) → NoDup (ids (T P (l ++ c :: r))) →
  l ++ r ≠ [] →
  repr (detach h P (tid c) (map tid (l ++ c :: r))) q (T P (l ++ r)) ∧
  NoDup (ids (T P (l ++ r))) ∧
  Datatypes.length (ids (T P (l ++ r))) ≤ Datatypes.length (ids (T P (l ++ c :: r))).
Proof.
  intros Hrepr Hnd Hne.
  pose proof (repr_lookup _ _ _ Hrepr) as HsP. simpl in HsP.
  apply repr_cell_inv in Hrepr as (HcP & HpP & _ & Hts).
  apply Forall_app in Hts as [Hl Hts]. apply Forall_cons in Hts as [Hc Hr].
  rewrite ids_children_app in Hnd.
  apply NoDup_cons in Hnd as [HP Hnd].
  apply NoDup_app in Hnd as (HndL & HdisL & Hnd).
  apply NoDup_app in Hnd as (HndC & HdisC & HndR).
  rewrite !elem_of_app in HP.
  pose proof (tid_in_ids c) as Hinc.
  assert (HPc : P ≠ tid c) by (intros ->; tauto).
  split; [|split].
  - apply repr_cell.
    + rewrite children_of_detach by done. f_equal.
      rewrite !map_app. simpl. rewrite remove_first_app_notin; [done|].
      intros (c' & Heq & Hc')%list_elem_of_fmap.
      apply (HdisL (tid c)); [|apply elem_of_app; by left].
      rewrite Heq. by apply tid_in_concat_ids.
    + unfold detach. rewrite parent_of_set_parent_ne by done.
      by rewrite parent_of_set_children.
    + done.
    + apply Forall_app. split.
      * rewrite Forall_forall in Hl. apply Forall_forall. intros c' Hc'.
        apply (repr_frame h); [by apply Hl|]. intros m Hm.
        assert (HmL : m ∈ concat (map ids l)) by (apply elem_of_concat_map; eauto).
        apply lookup_detach_ne; intros ->; [tauto|].
        apply (HdisL (tid c)); [done|apply elem_of_app; by left].
      * rewrite Forall_forall in Hr. apply Forall_forall. intros c' Hc'.
        apply (repr_frame h); [by apply Hr|]. intros m Hm.
        assert (HmR : m ∈ concat (map ids r)) by (apply elem_of_concat_map; eauto).
        apply lookup_detach_ne; intros ->; [tauto|].
        by apply (HdisC (tid c)).
  - simpl. rewrite map_app, concat_app. apply NoDup_cons. split.
    + rewrite elem_of_app. tauto.
    + apply NoDup_app. split; [done|]. split; [|done].
      intros x Hx Hx'. apply (HdisL x Hx). apply elem_of_app. by right.
  - rewrite ids_children_app. simpl. rewrite map_app, concat_app, !length_app. lia.
Qed.

Lemma names_detach (h : heap) (par child : nat) (cs : list nat) (ts : list tree) :
  map (names (detach h par child cs)) ts = map (names h) ts.
Proof.
  apply map_ext. intros t. apply names_same_labels. intros m.
  apply label_of_detach.
Qed.

Lemma child_front_names (h : heap) (q : option nat) (root : nat)
    (ts : list tree) (c : tree) :
  repr h q (T root ts) → NoDup (ids (T root ts)) → c ∈ ts →
  get_front_names h (tid c) = Ok (names h c) ∧ is_Some (h !! tid c).
Proof.
  intros Hrepr Hnd Hc.
  pose proof (repr_ids_length h q _ Hrepr Hnd) as Hlen.
  apply repr_cell_inv in Hrepr as (_ & _ & _ & Hts).
  rewrite Forall_forall in Hts. specialize (Hts c Hc).
  pose proof (ids_length_child c ts Hc). simpl in Hlen.
  split; [|by eapply repr_lookup].
  eapply get_front_names_repr; [done|lia].
Qed.

Lemma pruned_from_detach_child (h : heap) (P : nat) (l r : list tree) (c : tree)
    (cs : list nat) :
  l ++ r ≠ [] →
  pruned_from h (T P (l ++ c :: r)) (detach h P (tid c) cs) (T P (l ++ r)).
Proof.
  intros Hne. split; [|intros m; apply label_of_detach].
  rewrite tips_app. destruct (l ++ r) as [|c' cs'] eqn:Hlr; [done|].
  rewrite tips_cons, <-Hlr, !map_app, !concat_app. simpl.
  intros x. rewrite !elem_of_app. tauto.
Qed.

(** The pair of clades compared at the root: one of them is cut if they
    share a name.  The other clades at the root share no name with the
    pair. *)
Lemma cut_root_pair_inv (h : heap) (root : nat) (L M R : list tree) (a b : tree) :
  repr h None (T root (L ++ a :: M ++ b :: R)) →
  NoDup (ids (T root (L ++ a :: M ++ b :: R))) →
  Forall binary (L ++ a :: M ++ b :: R) →
  L ++ M ++ R ≠ [] →
  names_once (map (names h) (L ++ M ++ R)) →
  (∀ x c, c ∈ L ++ M ++ R → x ∈ names h c →
     (x ∉ names h a) ∧ (x ∉ names h b)) →
  ∃ h1 t1, cut_root_pair h root (tid a) (tid b) = Ok h1 ∧
    pruning_inv h1 t1 ∧ tid t1 = root ∧
    Datatypes.length (ids t1) ≤
      Datatypes.length (ids (T root (L ++ a :: M ++ b :: R))) ∧
    pruned_from h (T root (L ++ a :: M ++ b :: R)) h1 t1 ∧
    (∀ x, x ∈ L ++ M ++ R → x ∈ subtrees t1).
Proof.
  intros Hrepr Hnd Hbin Hne Honce Hdis.
  assert (Hina : a ∈ L ++ a :: M ++ b :: R).
  { apply elem_of_app. right. apply list_elem_of_here. }
  assert (Hinb : b ∈ L ++ a :: M ++ b :: R).
  { apply elem_of_app. right. apply list_elem_of_further, elem_of_app. right.
    apply list_elem_of_here. }
  destruct (child_front_names h None root _ a Hrepr Hnd Hina) as [Hfa Hsa].
  destruct (child_front_names h None root _ b Hrepr Hnd Hinb) as [Hfb Hsb].
  assert (Hda : ∀ x l', x ∈ names h a → l' ∈ map (names h) (L ++ M ++ R) → x ∉ l').
  { intros x l' Hx (c & -> & Hc)%list_elem_of_fmap Hx'.
    by destruct (Hdis x c Hc Hx'). }
  assert (Hdb : ∀ x l', x ∈ names h b → l' ∈ map (names h) (L ++ M ++ R) → x ∉ l').
  { intros x l' Hx (c & -> & Hc)%list_elem_of_fmap Hx'.
    by destruct (Hdis x c Hc Hx'). }
  unfold cut_root_pair. rewrite Hfa, Hfb. simpl.
  case_bool_decide as Hint.
  - inversion Hrepr as [p' n' ts' rd Hroot Hp Hcs Hl Hts]; subst.
    rewrite (cut_fewer_Ok h root (tid a) (tid b) rd); try done;
      [|rewrite Hcs; by apply (list_elem_of_fmap_2 tid)
       |rewrite Hcs; by apply (list_elem_of_fmap_2 tid)].
    rewrite Hcs. unfold fewer_taxa. case_bool_decide as Hsz.
    + assert (Hsplit : L ++ a :: M ++ b :: R = (L ++ a :: M) ++ b :: R)
        by (by rewrite <-(assoc_L (++))).
      rewrite Hsplit in *.
      destruct (repr_detach_child h None root (L ++ a :: M) R b)
        as (Hrepr1 & Hnd1 & Hlen1); [done|done| |].
      { intros Hnil. apply app_eq_nil in Hnil as [Hnil _].
        by apply app_eq_nil in Hnil as [_ ?]. }
      eexists _, (T root ((L ++ a :: M) ++ R)). split; [done|].
      split; [|split; [done|split; [done|split]]].
      2:{ apply pruned_from_detach_child. intros Hnil.
          apply app_eq_nil in Hnil as [Hnil _].
          by apply app_eq_nil in Hnil as [_ ?]. }
      2:{ intros x. simpl. rewrite ?elem_of_app, ?elem_of_cons, ?elem_of_app. tauto. }
      split; [done|]. split; [done|]. simpl subtrees. split.
      * apply Forall_app in Hbin as [Hb1 Hb2]. apply Forall_cons in Hb2 as [_ Hb2].
        apply Forall_app. done.
      * rewrite names_detach.
        apply (names_once_perm (names h a :: map (names h) (L ++ M ++ R))).
        { change (names h a :: map (names h) (L ++ M ++ R))
            with (map (names h) (a :: L ++ M ++ R)).
          apply Permutation_map. rewrite <-(assoc_L (++)). simpl.
          by rewrite <-Permutation_middle. }
        by apply names_once_cons.
    + destruct (repr_detach_child h None root L (M ++ b :: R) a)
        as (Hrepr1 & Hnd1 & Hlen1); [done|done| |].
      { intros Hnil. apply app_eq_nil in Hnil as [_ Hnil].
        by apply app_eq_nil in Hnil as [_ ?]. }
      eexists _, (T root (L ++ M ++ b :: R)). split; [done|].
      split; [|split; [done|split; [done|split]]].
      2:{ apply pruned_from_detach_child. intros Hnil.
          apply app_eq_nil in Hnil as [_ Hnil].
          by apply app_eq_nil in Hnil as [_ ?]. }
      2:{ intros x. simpl. rewrite ?elem_of_app, ?elem_of_cons, ?elem_of_app. tauto. }
      split; [done|]. split; [done|]. simpl subtrees. split.
      * apply Forall_app in Hbin as [Hb1 Hb2]. apply Forall_cons in Hb2 as [_ Hb2].
        apply Forall_app. done.
      * rewrite names_detach.
        apply (names_once_perm (names h b :: map (names h) (L ++ M ++ R))).
        { change (names h b :: map (names h) (L ++ M ++ R))
            with (map (names h) (b :: L ++ M ++ R)).
          apply Permutation_map.
          rewrite (assoc_L (++) L M (b :: R)), (assoc_L (++) L M R).
          by rewrite <-Permutation_middle. }
        by apply names_once_cons.
  - exists h, (T root (L ++ a :: M ++ b :: R)). split; [done|].
    split; [|split; [done|split; [done|split; [apply pruned_from_refl|]]]].
    2:{ intros x. simpl.
        rewrite ?elem_of_app, ?elem_of_cons, ?elem_of_app, ?elem_of_cons. tauto. }
    split; [done|]. split; [done|]. split; [done|]. simpl subtrees.
    apply (names_once_perm
             (names h a :: names h b :: map (names h) (L ++ M ++ R))).
    { change (names h a :: names h b :: map (names h) (L ++ M ++ R))
        with (map (names h) (a :: b :: L ++ M ++ R)).
      apply Permutation_map. rewrite <-Permutation_middle. constructor.
      rewrite (assoc_L (++) L M (b :: R)), (assoc_L (++) L M R).
      by rewrite <-Permutation_middle. }
    apply names_once_cons; [by apply names_once_cons|].
    intros x l' Hx [->|Hl']%elem_of_cons; [|by apply Hda].
    intros Hxb. apply Hint. apply size_intersection_pos. by exists x.
Qed.

(** ** Rerooted homotrees *)

(** The tree that the rerooting on a monophyletic outgroup hands over: three
    clades at the root, one of them with all the outgroup tips and no other
    tip, and below the root no node with a single child or more than two. *)
Definition rerooted_homotree (h : heap) (t : tree) (outgroups : list string)
    : Prop :=
  repr h None t ∧ NoDup (ids t) ∧ Forall binary (subtrees t) ∧
  Datatypes.length (subtrees t) = 3 ∧
  ∃ l x r, subtrees t = l ++ x :: r ∧
    Forall (λ i, i ∈ outgroups) (names h x) ∧
    Forall (λ c, Forall (λ i, i ∉ outgroups) (names h c)) (l ++ r).

Lemma tips_nonempty (t : tree) : tips t ≠ [].
Proof.
  induction t as [n ts IH] using tree_ind'.
  destruct ts as [|c cs]; [done|]. rewrite tips_cons. simpl.
  apply Forall_cons in IH as [Hc _]. intros Hnil.
  by apply app_eq_nil in Hnil as [? _].
Qed.

Lemma names_nonempty (h : heap) (t : tree) : names h t ≠ [].
Proof.
  unfold names. pose proof (tips_nonempty t). by destruct (tips t).
Qed.

Lemma child_outgroup_count (h : heap) (q : option nat) (root : nat)
    (ts : list tree) (c : tree) (outgroups : list string) :
  repr h q (T root ts) → NoDup (ids (T root ts)) → c ∈ ts →
  Datatypes.length <$> get_front_outgroup_names h (tid c) outgroups =
    Ok (Datatypes.length (filter (λ i, i ∈ outgroups) (names h c))).
Proof.
  intros Hrepr Hnd Hc. unfold get_front_outgroup_names.
  destruct (child_front_names h q root ts c Hrepr Hnd Hc) as [-> _]. done.
Qed.

Lemma outgroup_count_pos (h : heap) (c : tree) (outgroups : list string) :
  Forall (λ i, i ∈ outgroups) (names h c) →
  Datatypes.length (filter (λ i, i ∈ outgroups) (names h c)) ≠ 0.
Proof.
  intros Hall.
  assert (Hpo : purely_outgroup outgroups (names h c)).
  { split; [apply names_nonempty|done]. }
  apply filter_length_pos in Hpo as [_ Hpos]. lia.
Qed.

Lemma outgroup_count_0 (h : heap) (c : tree) (outgroups : list string) :
  Forall (λ i, i ∉ outgroups) (names h c) →
  Datatypes.length (filter (λ i, i ∈ outgroups) (names h c)) = 0.
Proof. intros Hall. by apply filter_length_0. Qed.

(** The check for duplications at the root. *)
Lemma prune_root_level_inv (h : heap) (t : tree) (outgroups : list string) :
  rerooted_homotree h t outgroups →
  ∃ h1 t1, prune_root_level h (tid t) outgroups = Ok h1 ∧
    pruning_inv h1 t1 ∧ tid t1 = tid t ∧
    Datatypes.length (ids t1) ≤ Datatypes.length (ids t) ∧
    pruned_from h t h1 t1 ∧
    (∀ x, x ∈ subtrees t → Forall (λ i, i ∈ outgroups) (names h x) →
       x ∈ subtrees t1).
Proof.
  intros (Hrepr & Hnd & Hbin & Hlen & l & x & r & Hts & Hout & Hin).
  destruct t as [root ts]. simpl in *. subst ts.
  assert (Hself : ∀ c, Forall (λ i, i ∉ outgroups) (names h c) →
            ¬ Forall (λ i, i ∈ outgroups) (names h c)).
  { intros c Hc Hc'. pose proof (names_nonempty h c) as Hne.
    destruct (names h c) as [|i ?]; [done|].
    apply Forall_cons in Hc as [Hc _]. by apply Forall_cons in Hc' as [Hc' _]. }
  assert (Hpair : ∀ c i, Forall (λ i, i ∉ outgroups) (names h c) →
            i ∈ names h x → i ∉ names h c).
  { intros c i Hc Hi Hi'. rewrite Forall_forall in Hout, Hc.
    by apply (Hc i Hi'), Hout. }
  assert (Hx1 : names_once (map (names h) [x])).
  { apply names_once_cons; [apply names_once_nil|]. by intros ? ? _ ?%elem_of_nil. }
  pose proof (outgroup_count_pos h x outgroups Hout) as Hposx.
  unfold prune_root_level.
  inversion Hrepr as [p' n' ts' rd Hroot Hp Hcs Hl Hts]; subst.
  rewrite (deref_Some _ _ _ Hroot). simpl. rewrite Hcs.
  destruct l as [|c0 [|c1 [|? ?]]]; simpl in Hlen.
  - destruct r as [|c1 [|c2 [|? ?]]]; simpl in Hlen; try lia.
    apply Forall_cons in Hin as [H1 Hin]. apply Forall_cons in Hin as [H2 _].
    simpl.
    rewrite (child_outgroup_count h None root [x; c1; c2] x) by (done || set_solver).
    rewrite (child_outgroup_count h None root [x; c1; c2] c1) by (done || set_solver).
    rewrite (child_outgroup_count h None root [x; c1; c2] c2) by (done || set_solver).
    simpl. rewrite (outgroup_count_0 h c1), (outgroup_count_0 h c2) by done.
    rewrite (bool_decide_eq_false_2 _ Hposx). simpl.
    assert (Hdis : ∀ i c, c ∈ [x] ++ [] ++ [] → i ∈ names h c →
              (i ∉ names h c1) ∧ (i ∉ names h c2)).
    { intros i c ->%list_elem_of_singleton Hi. split; by apply Hpair. }
    destruct (cut_root_pair_inv h root [x] [] [] c1 c2 Hrepr Hnd Hbin
                ltac:(done) Hx1 Hdis)
      as (h1 & t1 & Hrun & Hinv1 & Htid1 & Hlen1 & Hfrom1 & Hkeep1).
    exists h1, t1. do 5 (split; [done|]).
    intros x' Hx' Hall. apply Hkeep1. simpl.
    rewrite ?elem_of_cons in Hx'.
    destruct Hx' as [->|[->|[->|[]%elem_of_nil]]];
      solve [apply list_elem_of_here | exfalso; eapply Hself; [|exact Hall]; done].
  - destruct r as [|c2 [|? ?]]; simpl in Hlen; try lia.
    apply Forall_cons in Hin as [H0 Hin]. apply Forall_cons in Hin as [H2 _].
    simpl.
    rewrite (child_outgroup_count h None root [c0; x; c2] c0) by (done || set_solver).
    rewrite (child_outgroup_count h None root [c0; x; c2] x) by (done || set_solver).
    rewrite (child_outgroup_count h None root [c0; x; c2] c2) by (done || set_solver).
    simpl. rewrite (outgroup_count_0 h c0), (outgroup_count_0 h c2) by done.
    rewrite (bool_decide_eq_false_2 _ Hposx). simpl.
    assert (Hdis : ∀ i c, c ∈ [] ++ [x] ++ [] → i ∈ names h c →
              (i ∉ names h c0) ∧ (i ∉ names h c2)).
    { intros i c ->%list_elem_of_singleton Hi. split; by apply Hpair. }
    destruct (cut_root_pair_inv h root [] [x] [] c0 c2 Hrepr Hnd Hbin
                ltac:(done) Hx1 Hdis)
      as (h1 & t1 & Hrun & Hinv1 & Htid1 & Hlen1 & Hfrom1 & Hkeep1).
    exists h1, t1. do 5 (split; [done|]).
    intros x' Hx' Hall. apply Hkeep1. simpl.
    rewrite ?elem_of_cons in Hx'.
    destruct Hx' as [->|[->|[->|[]%elem_of_nil]]];
      solve [apply list_elem_of_here | exfalso; eapply Hself; [|exact Hall]; done].
  - destruct r as [|? ?]; simpl in Hlen; try lia.
    apply Forall_cons in Hin as [H0 Hin]. apply Forall_cons in Hin as [H1 _].
    simpl.
    rewrite (child_outgroup_count h None root [c0; c1; x] c0) by (done || set_solver).
    rewrite (child_outgroup_count h None root [c0; c1; x] c1) by (done || set_solver).
    rewrite (child_outgroup_count h None root [c0; c1; x] x) by (done || set_solver).
    simpl. rewrite (outgroup_count_0 h c0), (outgroup_count_0 h c1) by done.
    simpl.
    assert (Hdis : ∀ i c, c ∈ [] ++ [] ++ [x] → i ∈ names h c →
              (i ∉ names h c0) ∧ (i ∉ names h c1)).
    { intros i c ->%list_elem_of_singleton Hi. split; by apply Hpair. }
    destruct (cut_root_pair_inv h root [] [] [x] c0 c1 Hrepr Hnd Hbin
                ltac:(done) Hx1 Hdis)
      as (h1 & t1 & Hrun & Hinv1 & Htid1 & Hlen1 & Hfrom1 & Hkeep1).
    exists h1, t1. do 5 (split; [done|]).
    intros x' Hx' Hall. apply Hkeep1. simpl.
    rewrite ?elem_of_cons in Hx'.
    destruct Hx' as [->|[->|[->|[]%elem_of_nil]]];
      solve [apply list_elem_of_here | exfalso; eapply Hself; [|exact Hall]; done].
  - rewrite length_app in Hlen. simpl in Hlen. lia.
Qed.

(** X1: on every rerooted homotree (three clades at the root, one of them
    holding the outgroup tips and nothing else, every node below the root
    with no child or two), [prune_paralogs_from_rerooted_homotree] returns:
    the [while] loop is left after at most as many passes as the tree has
    nodes, each pass but the last cutting one clade and removing the kink,
    and the names of the tips of the tree that is returned have no
    duplicate.  No pass ends without a mutation while a name is left
    twice. *)
Theorem pruning_terminates_on_rerooted_homotree (h : heap) (t : tree)
    (outgroups : list string) (fuel : nat) :
  rerooted_homotree h t outgroups → Datatypes.length (ids t) ≤ fuel →
  ∃ h' names',
    prune_paralogs_from_rerooted_homotree fuel h (tid t) outgroups =
      Ok (h', tid t) ∧
    get_front_names h' (tid t) = Ok names' ∧ NoDup names'.
Proof.
  intros Hvalid Hfuel.
  destruct (prune_root_level_inv h t outgroups Hvalid)
    as (h1 & t1 & Hroot & Hinv & Htid & Hlen & _).
  destruct Hvalid as (Hrepr & Hnd & _).
  pose proof (repr_ids_length h None t Hrepr Hnd) as Hlenh.
  assert (Hrun : ∃ h', prune_paralogs_from_rerooted_homotree fuel h (tid t)
                         outgroups = Ok (h', tid t)).
  { unfold prune_paralogs_from_rerooted_homotree.
    rewrite (get_front_names_repr h None t) by done. simpl.
    case_bool_decide; [eauto|]. rewrite Hroot. simpl.
    rewrite <-Htid.
    destruct (prune_loop_terminates fuel h1 t1 Hinv) as (h' & _ & Hloop & _);
      [lia|].
    eauto. }
  destruct Hrun as [h' Hrun]. exists h'.
  destruct (prune_paralogs_Ok _ _ _ _ _ _ Hrun) as (_ & names' & Hnames & Hnodup).
  eauto.
Qed.

(** [((A.1,(B.1,B.2)),(C.1,(C.2,D.1)),OUT.1);]: no name is in both ingroup
    clades at the root, and each of them has a name twice.  Two passes cut
    [B.1] and [C.1]; the clade left of [(C.1,(C.2,D.1))] is appended to the
    children of the root. *)
Definition nested_duplicates : heap :=
  [ Node.mk None 0%float [1; 6; 11] None;
    Node.mk None 0.5%float [2; 3] (Some 0);
    Node.mk (Some "A.1") 0.5%float [] (Some 1);
    Node.mk None 0.5%float [4; 5] (Some 1);
    Node.mk (Some "B.1") 0.5%float [] (Some 3);
    Node.mk (Some "B.2") 0.5%float [] (Some 3);
    Node.mk None 0.5%float [7; 8] (Some 0);
    Node.mk (Some "C.1") 0.5%float [] (Some 6);
    Node.mk None 0.5%float [9; 10] (Some 6);
    Node.mk (Some "C.2") 0.5%float [] (Some 8);
    Node.mk (Some "D.1") 0.5%float [] (Some 8);
    Node.mk (Some "OUT.1") 0.5%float [] (Some 0) ].

Definition nested_duplicates_tree : tree :=
  T 0 [ T 1 [T 2 []; T 3 [T 4 []; T 5 []]];
        T 6 [T 7 []; T 8 [T 9 []; T 10 []]];
        T 11 [] ].

Lemma pruning_terminates_on_rerooted_homotree_witness :
  ∃ h' names',
    prune_paralogs_from_rerooted_homotree 12 nested_duplicates
      (tid nested_duplicates_tree) ["OUT"] = Ok (h', tid nested_duplicates_tree) ∧
    get_front_names h' (tid nested_duplicates_tree) = Ok names' ∧ NoDup names'.
Proof.
  apply (pruning_terminates_on_rerooted_homotree nested_duplicates
           nested_duplicates_tree ["OUT"] 12).
  - split; [unfold nested_duplicates_tree; solve_repr|].
    split; [apply (bool_decide_unpack _); vm_compute; exact I|].
    split; [repeat (constructor; simpl; auto)|].
    split; [reflexivity|].
    exists [T 1 [T 2 []; T 3 [T 4 []; T 5 []]];
            T 6 [T 7 []; T 8 [T 9 []; T 10 []]]], (T 11 []), [].
    split; [reflexivity|].
    split; apply (bool_decide_unpack _); vm_compute; exact I.
  - simpl. lia.
Defined.

Example nested_duplicates_pruned :
  (λ r, get_front_names r.1 r.2) <$>
    prune_paralogs_from_rerooted_homotree 12 nested_duplicates 0 ["OUT"] =
  Ok (Ok ["A"; "B"; "OUT"; "C"; "D"]).
Proof. vm_compute. reflexivity. Qed.

(** * Further properties of the pruning *)

(** X2: pruning is idempotent.  A tree that
    [prune_paralogs_from_rerooted_homotree] has returned is returned as it
    is by a second call, whatever the bound on the passes: the first test of
    the function finds no duplicate name and nothing is read or written
    after it. *)
Theorem pruning_twice_is_pruning_once (fuel fuel' : nat) (h h' : heap)
    (root root' : nat) (outgroups outgroups' : list string) :
  prune_paralogs_from_rerooted_homotree fuel h root outgroups = Ok (h', root') →
  prune_paralogs_from_rerooted_homotree fuel' h' root' outgroups' = Ok (h', root').
Proof.
  intros Hrun.
  destruct (prune_paralogs_Ok _ _ _ _ _ _ Hrun) as (_ & names & Hn & Hnd).
  unfold prune_paralogs_from_rerooted_homotree. rewrite Hn. simpl.
  apply size_name_set_NoDup in Hnd. by rewrite bool_decide_eq_true_2.
Qed.

Lemma pruning_twice_is_pruning_once_witness :
  prune_paralogs_from_rerooted_homotree 0 two_ingroup_clades_pruned 0 [] =
    Ok (two_ingroup_clades_pruned, 0).
Proof.
  apply (pruning_twice_is_pruning_once 10 0 two_ingroup_clades
           two_ingroup_clades_pruned 0 0 ["OUT"] []).
  vm_compute. reflexivity.
Defined.

(** X3: a tree with a duplicated name whose root has fewer than three
    children makes [prune_paralogs_from_rerooted_homotree] raise
    [IndexError], at [root.children[0]], [root.children[1]] or
    [root.children[2]], before anything is written. *)
Theorem pruning_needs_three_root_children (fuel : nat) (h : heap) (root : nat)
    (outgroups names : list string) (cs : list nat) :
  get_front_names h root = Ok names → ¬ NoDup names →
  children_of h root = Some cs → Datatypes.length cs < 3 →
  prune_paralogs_from_rerooted_homotree fuel h root outgroups = Raise IndexError.
Proof.
  intros Hn Hdup (rd & Hroot & Hcs)%children_of_inv Hlen.
  unfold prune_paralogs_from_rerooted_homotree. rewrite Hn. simpl.
  rewrite bool_decide_eq_false_2
    by (intros Heq; apply Hdup; by apply size_name_set_NoDup).
  unfold prune_root_level. rewrite (deref_Some _ _ _ Hroot). simpl.
  rewrite Hcs. destruct cs as [|c0 [|c1 [|c2 ?]]]; simpl in *; try done. lia.
Qed.

(** [(A.1:0.5,A.2:0.5);] *)
Definition duplicate_pair : heap :=
  [ Node.mk None 0%float [1; 2] None;
    Node.mk (Some "A.1") 0.5%float [] (Some 0);
    Node.mk (Some "A.2") 0.5%float [] (Some 0) ].

Lemma pruning_needs_three_root_children_witness :
  prune_paralogs_from_rerooted_homotree 5 duplicate_pair 0 ["OUT"] =
    Raise IndexError.
Proof.
  apply (pruning_needs_three_root_children 5 duplicate_pair 0 ["OUT"]
           ["A"; "A"] [1; 2]).
  - vm_compute. reflexivity.
  - intros Hnd. apply NoDup_cons in Hnd as [Hin _]. apply Hin, list_elem_of_here.
  - reflexivity.
  - simpl. lia.
Defined.

(** ** Taxon names *)

Lemma split_first_field_no_period (s : string) :
  period ∉ String.list_ascii_of_string (split_first_field s).
Proof.
  induction s as [|c s IH]; simpl; [apply not_elem_of_nil|].
  destruct (Ascii.eqb c period) eqn:Hc; simpl; [apply not_elem_of_nil|].
  apply not_elem_of_cons. split; [|done].
  intros <-. by rewrite Ascii.eqb_refl in Hc.
Qed.

Lemma split_first_field_prefix (s : string) :
  s = split_first_field s ∨
  ∃ rest, s = split_first_field s +:+ String period rest.
Proof.
  induction s as [|c s IH]; simpl; [by left|].
  destruct (Ascii.eqb c period) eqn:Hc.
  - apply Ascii.eqb_eq in Hc as ->. right. by exists s.
  - destruct IH as [IH|[rest IH]]; [left|right].
    + by f_equal.
    + exists rest.
      change (String c s = String c (split_first_field s +:+ String period rest)).
      by f_equal.
Qed.

Lemma split_first_field_id (s : string) :
  period ∉ String.list_ascii_of_string s → split_first_field s = s.
Proof.
  induction s as [|c s IH]; simpl; [done|].
  intros [Hc Hs]%not_elem_of_cons.
  destruct (Ascii.eqb c period) eqn:Heq.
  - apply Ascii.eqb_eq in Heq. by subst.
  - by rewrite IH.
Qed.

(** X4: the taxon name of a label is the text before its first period:
    the name has no period, the label is the name itself or the name, a
    period and the rest; the name of a name is the name. *)
Theorem get_name_is_text_before_first_period (label : string) :
  ∃ name, get_name (Some label) = Ok name ∧
    (period ∉ String.list_ascii_of_string name) ∧
    (label = name ∨ ∃ rest, label = name +:+ String period rest) ∧
    get_name (Some name) = Ok name.
Proof.
  exists (split_first_field label). split; [done|].
  split; [apply split_first_field_no_period|].
  split; [apply split_first_field_prefix|]. simpl. f_equal.
  apply split_first_field_id, split_first_field_no_period.
Qed.

(** ** Rerooting with no outgroup tip, and with one *)

Lemma mapM_result_get_name_elem (l : list (option string)) (r : list string) :
  mapM_result get_name l = Ok r →
  ∀ x, x ∈ r ↔ ∃ s, Some s ∈ l ∧ x = split_first_field s.
Proof.
  revert r. induction l as [|o l IH]; simpl; intros r Hr x.
  - injection Hr as <-. split; [by intros ?%elem_of_nil|].
    by intros (s & ?%elem_of_nil & _).
  - destruct o as [s|]; simpl in Hr; [|done].
    destruct (mapM_result get_name l) as [r'|] eqn:Hl; simpl in Hr; [|done].
    injection Hr as <-. rewrite elem_of_cons, (IH r' eq_refl). split.
    + intros [->|(s' & Hs' & ->)].
      * exists s. split; [apply list_elem_of_here|done].
      * exists s'. split; [by apply list_elem_of_further|done].
    + intros (s' & [[= ->]|Hs']%elem_of_cons & ->); [by left|right; eauto].
Qed.

(** The names behind a node are names of tips of the tree. *)
Lemma back_names_subseteq (h : heap) (node root : nat) (all back : list string) :
  get_front_names h root = Ok all → get_back_names h node root = Ok back →
  back ⊆ all.
Proof.
  unfold get_front_names, get_back_names, get_back_labels.
  intros (labels & Hlabels & Hall)%bind_Ok Hback.
  rewrite Hlabels in Hback. simpl in Hback.
  destruct (get_front_labels h node) as [front|]; simpl in Hback; [|done].
  intros x Hx.
  apply (mapM_result_get_name_elem _ _ Hback) in Hx as (s & Hs & ->).
  apply (mapM_result_get_name_elem _ _ Hall). exists s. split; [|done].
  apply elem_of_elements, elem_of_difference in Hs as [Hs _].
  by apply elem_of_list_to_set in Hs.
Qed.

Lemma subtree_tips (s t : tree) : subtree s t → tips s ⊆ tips t.
Proof.
  induction 1 as [|s t n ts Hin Hsub IH]; [done|].
  intros x Hx. destruct ts as [|c cs]; [by apply elem_of_nil in Hin|].
  rewrite tips_cons. apply elem_of_concat_map. exists t. split; [done|by apply IH].
Qed.

(** X5: on a well-formed tree without any outgroup tip,
    [reroot_with_monophyletic_outgroups] returns [None]: no node has an
    outgroup name on either side, so the loop over the nodes ends without a
    new root. *)
Theorem reroot_without_outgroup_tip (h : heap) (t : tree) (outgroups : list string) :
  repr h None t → NoDup (ids t) →
  Forall (λ i, i ∉ outgroups) (names h t) →
  reroot_with_monophyletic_outgroups h (tid t) outgroups = Ok None.
Proof.
  intros Hrepr Hnd Hin.
  pose proof (repr_ids_length _ _ _ Hrepr Hnd) as Hlen.
  unfold reroot_with_monophyletic_outgroups, phylo3.leaves, phylo3.iternodes.
  rewrite (leaves_aux_repr _ _ _ Hrepr) by done. simpl.
  destruct (outgroup_tips_length h outgroups (tips t) ∅ [])
    as (matches & labels & Hrun & Hlabels);
    [by apply (repr_tips_labelled _ _ _ Hrepr)|].
  rewrite Hrun. simpl. fold (names h t) in Hlabels.
  assert (H0 : Datatypes.length (filter (λ i, i ∈ outgroups) (names h t)) = 0).
  { apply filter_length_0. eapply Forall_impl; [exact Hin|]. done. }
  rewrite bool_decide_eq_false_2 by (simpl in Hlabels; lia).
  rewrite (iternodes_aux_repr _ _ _ Hrepr) by done. simpl.
  destruct (find_newroot_first h (tid t) outgroups (ids t)
              (repr_readable _ _ Hrepr Hnd))
    as [[_ Hfind] | (before & node & after & nd & Hids & _ & Hne & Hq & _)].
  { by rewrite Hfind. }
  exfalso. destruct Hq as (front & back & Hf & Hb & Hq).
  assert (Hnode : node ∈ ids t).
  { rewrite Hids. apply elem_of_app. right. apply list_elem_of_here. }
  destruct (ids_subtree _ _ Hnode) as (s & Hsub & <-).
  destruct (repr_subtree _ _ _ _ Hsub Hrepr) as (q & Hs & _).
  pose proof (subtree_ids_length _ _ Hsub) as Hls.
  rewrite (get_front_names_repr _ _ _ Hs) in Hf by lia. injection Hf as <-.
  pose proof (back_names_subseteq h (tid s) (tid t) _ back
                (get_front_names_repr _ _ _ Hrepr Hlen) Hb) as Hback.
  pose proof (names_subseteq h s t (subtree_tips s t Hsub)) as Hfront.
  rewrite Forall_forall in Hin.
  assert (Hno : ∀ l, l ⊆ names h t → ¬ purely_outgroup outgroups l).
  { intros l Hl [Hne' Hall]. destruct l as [|x l]; [done|].
    apply Forall_cons in Hall as [Hx _].
    apply (Hin x); [apply Hl, list_elem_of_here|done]. }
  destruct Hq as [[Hpo _]|[_ Hpo]];
    [apply (Hno _ Hfront Hpo)|apply (Hno _ Hback Hpo)].
Qed.

Lemma outgroup_tips_none (h : heap) (outgroups : list string) (leaves : list nat)
    (outgroup_matches : gmap string nat) (outgroup_labels : list string) :
  (∀ n, n ∈ leaves → ∃ nd s, h !! n = Some nd ∧ Node.label nd = Some s) →
  Forall (λ m, name_at h m ∉ outgroups) leaves →
  outgroup_tips h outgroups leaves outgroup_matches outgroup_labels =
    Ok (outgroup_matches, outgroup_labels).
Proof.
  induction leaves as [|leaf leaves IH]; intros Hl Hno; simpl; [done|].
  destruct (Hl leaf) as (nd & s & Hnd & Hs); [apply list_elem_of_here|].
  apply Forall_cons in Hno as [Hleaf Hno].
  rewrite (deref_Some _ _ _ Hnd). simpl. rewrite Hs. simpl.
  rewrite (name_at_labelled _ _ _ _ Hnd Hs) in Hleaf.
  rewrite bool_decide_eq_false_2 by done.
  apply IH; [|done]. intros n Hn. apply Hl. by apply list_elem_of_further.
Qed.

Lemma outgroup_tips_one (h : heap) (outgroups : list string)
    (before after : list nat) (tip : nat) (nd : Node.t) (label : string)
    (outgroup_matches : gmap string nat) (outgroup_labels : list string) :
  (∀ n, n ∈ before ++ tip :: after →
     ∃ nd s, h !! n = Some nd ∧ Node.label nd = Some s) →
  h !! tip = Some nd → Node.label nd = Some label →
  name_at h tip ∈ outgroups →
  Forall (λ m, name_at h m ∉ outgroups) (before ++ after) →
  outgroup_tips h outgroups (before ++ tip :: after)
      outgroup_matches outgroup_labels =
    Ok (<[label := tip]> outgroup_matches, outgroup_labels ++ [label]).
Proof.
  intros Hl Htip Hlabel Hout Hno. apply Forall_app in Hno as [Hb Ha].
  induction before as [|leaf before IH]; simpl.
  - rewrite (deref_Some _ _ _ Htip). simpl. rewrite Hlabel. simpl.
    rewrite (name_at_labelled _ _ _ _ Htip Hlabel) in Hout.
    rewrite bool_decide_eq_true_2 by done.
    apply outgroup_tips_none; [|done].
    intros n Hn. apply Hl. by apply list_elem_of_further.
  - destruct (Hl leaf) as (nd' & s & Hnd & Hs); [apply list_elem_of_here|].
    apply Forall_cons in Hb as [Hleaf Hb].
    rewrite (deref_Some _ _ _ Hnd). simpl. rewrite Hs. simpl.
    rewrite (name_at_labelled _ _ _ _ Hnd Hs) in Hleaf.
    rewrite bool_decide_eq_false_2 by done.
    apply IH; [|done]. intros n Hn. apply Hl. by apply list_elem_of_further.
Qed.

(** X6: on a well-formed tree with exactly one outgroup tip,
    [reroot_with_monophyletic_outgroups] reroots at the parent of that tip:
    the value of [tip.parent] is what is handed to [phylo3.reroot]. *)
Theorem reroot_at_parent_of_single_outgroup_tip (h : heap) (t : tree)
    (outgroups : list string) (before after : list nat) (tip : nat) :
  repr h None t → NoDup (ids t) →
  tips t = before ++ tip :: after →
  name_at h tip ∈ outgroups →
  Forall (λ m, name_at h m ∉ outgroups) (before ++ after) →
  ∃ p, parent_of h tip = Some p ∧
    reroot_with_monophyletic_outgroups h (tid t) outgroups =
      Some <$> phylo3.reroot h (tid t) p.
Proof.
  intros Hrepr Hnd Htips Hout Hno.
  pose proof (repr_ids_length _ _ _ Hrepr Hnd) as Hlen.
  pose proof (repr_tips_labelled _ _ _ Hrepr) as Hl.
  destruct (Hl tip) as (nd & label & Htip & Hlabel).
  { rewrite Htips. apply elem_of_app. right. apply list_elem_of_here. }
  exists (Node.parent nd). split; [unfold parent_of; by rewrite Htip|].
  unfold reroot_with_monophyletic_outgroups, phylo3.leaves.
  rewrite (leaves_aux_repr _ _ _ Hrepr) by done. simpl.
  rewrite Htips in Hl |- *.
  rewrite (outgroup_tips_one h outgroups before after tip nd label) by done.
  simpl. rewrite lookup_insert_eq. simpl.
  by rewrite (deref_Some _ _ _ Htip).
Qed.

Lemma reroot_at_parent_of_single_outgroup_tip_witness :
  ∃ p, parent_of nested_duplicates 11 = Some p ∧
    reroot_with_monophyletic_outgroups nested_duplicates
      (tid nested_duplicates_tree) ["OUT"] =
      Some <$> phylo3.reroot nested_duplicates (tid nested_duplicates_tree) p.
Proof.
  apply (reroot_at_parent_of_single_outgroup_tip nested_duplicates
           nested_duplicates_tree ["OUT"] [2; 4; 5; 7; 9; 10] [] 11).
  - unfold nested_duplicates_tree. solve_repr.
  - apply (bool_decide_unpack _). vm_compute. exact I.
  - reflexivity.
  - apply (bool_decide_unpack _). vm_compute. exact I.
  - apply (bool_decide_unpack _). vm_compute. exact I.
Defined.

Lemma reroot_without_outgroup_tip_witness :
  reroot_with_monophyletic_outgroups nested_duplicates
    (tid nested_duplicates_tree) ["X"] = Ok None.
Proof.
  apply (reroot_without_outgroup_tip nested_duplicates nested_duplicates_tree ["X"]).
  - unfold nested_duplicates_tree. solve_repr.
  - apply (bool_decide_unpack _). vm_compute. exact I.
  - apply (bool_decide_unpack _). vm_compute. exact I.
Defined.

(** ** Trees that are not cut *)

(** Below the root, no node has a single child and no node that is not a
    tip has a branch longer than the cutoff. *)
Definition no_long_branch (cutoff : float) (h : heap) (t : tree) : Prop :=
  ∀ n nd, n ∈ ids t → n ≠ tid t → h !! n = Some nd → Node.children nd ≠ [] →
    Node.nchildren nd ≠ 1 ∧ (cutoff <? Node.length nd)%float = false.

Lemma cut_scan_no_long_branch (tostring : heap → nat → string) (cutoff : float)
    (h : heap) (t : tree) (nodes : list nat)
    (subtrees : list nat) (discarded : gmap string discard_reason) :
  (∀ n, n ∈ nodes → n ∈ ids t ∧ is_Some (h !! n)) →
  no_long_branch cutoff h t →
  cut_scan tostring cutoff h (tid t) nodes subtrees discarded = Ok None.
Proof.
  intros Hnodes Hno. induction nodes as [|node nodes IH]; simpl; [done|].
  destruct (Hnodes node) as [Hin [nd Hnd]]; [apply list_elem_of_here|].
  assert (IH' : cut_scan tostring cutoff h (tid t) nodes subtrees discarded = Ok None).
  { apply IH. intros n Hn. apply Hnodes. by apply list_elem_of_further. }
  rewrite (deref_Some _ _ _ Hnd). simpl.
  unfold Node.istip. case_bool_decide as Htip; simpl; [done|].
  case_bool_decide as Hroot; simpl; [done|].
  destruct (Hno node nd Hin Hroot Hnd Htip) as [Hkink Hlen].
  rewrite bool_decide_eq_false_2 by done.
  unfold Node.nchildren in Hkink.
  destruct (Node.children nd) as [|c0 [|c1 cs]]; simpl in *; try done.
  by rewrite Hlen.
Qed.

Lemma cut_whole_tree (tostring : heap → nat → string) (cutoff : float)
    (fuel : nat) (h : heap) (t : tree) :
  repr h None t → NoDup (ids t) → no_long_branch cutoff h t →
  ∃ n, count_taxa h (tid t) = Ok n ∧
    cut_long_internal_branches tostring cutoff (S fuel) h (tid t) =
      Ok (h, if bool_decide (4 ≤ n) then [tid t] else [],
          if bool_decide (4 ≤ n) then ∅
          else {[tostring h (tid t) := remaining_tree_has_fewer_than_4_taxa]}).
Proof.
  intros Hrepr Hnd Hno.
  pose proof (repr_ids_length _ _ _ Hrepr Hnd) as Hlen.
  exists (size (name_set (names h t))).
  assert (Hcount : count_taxa h (tid t) = Ok (size (name_set (names h t)))).
  { unfold count_taxa. by rewrite (get_front_names_repr _ _ _ Hrepr). }
  split; [done|].
  unfold cut_long_internal_branches. simpl. unfold phylo3.iternodes.
  rewrite (iternodes_aux_repr _ _ _ Hrepr) by done. simpl.
  rewrite (cut_scan_no_long_branch tostring cutoff h t); [|
    intros n Hn; split; [done|by eapply repr_ids_lookup] | done].
  simpl. unfold cut_residue. rewrite Hcount. simpl.
  by case_bool_decide.
Qed.

(** X8: a well-formed tree in which, below the root, no node has a single
    child and no internal branch is longer than the cutoff, is not cut:
    [cut_long_internal_branches] leaves the tree as it is after one pass
    and hands back the tree itself as the only subtree if it has four taxa
    or more, and no subtree, with the tree in the discard map, otherwise. *)
Theorem tree_without_long_branch_is_kept_whole (tostring : heap → nat → string)
    (cutoff : float) (fuel : nat) (h : heap) (t : tree) :
  repr h None t → NoDup (ids t) → no_long_branch cutoff h t →
  ∃ n, count_taxa h (tid t) = Ok n ∧
    cut_long_internal_branches tostring cutoff (S fuel) h (tid t) =
      Ok (h, if bool_decide (4 ≤ n) then [tid t] else [],
          if bool_decide (4 ≤ n) then ∅
          else {[tostring h (tid t) := remaining_tree_has_fewer_than_4_taxa]}).
Proof.
  intros Hrepr Hnd Hno.
  pose proof (repr_ids_length _ _ _ Hrepr Hnd) as Hlen.
  exists (size (name_set (names h t))).
  assert (Hcount : count_taxa h (tid t) = Ok (size (name_set (names h t)))).
  { unfold count_taxa. by rewrite (get_front_names_repr _ _ _ Hrepr). }
  split; [done|].
  unfold cut_long_internal_branches. simpl. unfold phylo3.iternodes.
  rewrite (iternodes_aux_repr _ _ _ Hrepr) by done. simpl.
  rewrite (cut_scan_no_long_branch tostring cutoff h t); [|
    intros n Hn; split; [done|by eapply repr_ids_lookup] | done].
  simpl. unfold cut_residue. rewrite Hcount. simpl.
  by case_bool_decide.
Qed.

Definition long_branch_shape : tree :=
  T 0 [ T 1 []; T 2 [];
        T 3 [ T 4 [T 6 []; T 7 []];
              T 5 [T 8 []; T 9 [T 10 []; T 11 []]] ] ].

Lemma long_branch_tree_repr :
  repr long_branch_tree None long_branch_shape ∧ NoDup (ids long_branch_shape).
Proof.
  split; [unfold long_branch_shape; solve_repr|].
  apply (bool_decide_unpack _). vm_compute. exact I.
Qed.

(** Decides [no_long_branch] on a concrete tree. *)
Lemma no_long_branch_check (cutoff : float) (h : heap) (t : tree) :
  forallb (λ n, match h !! n with
                | Some nd =>
                    bool_decide (n = tid t) || bool_decide (Node.children nd = [])
                    || (negb (bool_decide (Node.nchildren nd = 1))
                        && negb (cutoff <? Node.length nd)%float)
                | None => true
                end) (ids t) = true →
  no_long_branch cutoff h t.
Proof.
  intros Hall n nd Hn Hroot Hnd Hcs.
  rewrite forallb_forall in Hall. apply list_elem_of_In in Hn.
  specialize (Hall n Hn). rewrite Hnd in Hall.
  rewrite (bool_decide_eq_false_2 (n = tid t)) in Hall by done.
  rewrite (bool_decide_eq_false_2 (Node.children nd = [])) in Hall by done.
  simpl in Hall. apply andb_true_iff in Hall as [H1 H2].
  apply negb_true_iff in H1, H2. by apply bool_decide_eq_false in H1.
Qed.

Lemma tree_without_long_branch_is_kept_whole_witness :
  ∃ n, count_taxa long_branch_tree (tid long_branch_shape) = Ok n ∧
    cut_long_internal_branches node_index 5%float 1 long_branch_tree
        (tid long_branch_shape) =
      Ok (long_branch_tree, if bool_decide (4 ≤ n) then [tid long_branch_shape] else [],
          if bool_decide (4 ≤ n) then ∅
          else {[node_index long_branch_tree (tid long_branch_shape) :=
                   remaining_tree_has_fewer_than_4_taxa]}).
Proof.
  apply (tree_without_long_branch_is_kept_whole node_index 5%float 0
           long_branch_tree long_branch_shape).
  - apply long_branch_tree_repr.
  - apply long_branch_tree_repr.
  - apply no_long_branch_check. vm_compute. reflexivity.
Defined.

(** ** A cutoff that is not a number *)

Lemma SFcompare_nan (p q : spec_float) :
  SFcompare p p = None → SFcompare p q = None.
Proof.
  destruct p as [s|s| |s m e]; simpl.
  - by destruct s.
  - by destruct s.
  - done.
  - rewrite Z.compare_refl, Pos.compare_cont_refl. by destruct s.
Qed.

Lemma float_ltb_nan (x y : float) : is_nan x = true → (x <? y)%float = false.
Proof.
  intros Heq. unfold is_nan in Heq. apply negb_true_iff in Heq.
  rewrite FloatAxioms.eqb_spec in Heq. rewrite ltb_spec. unfold SFeqb, SFltb in *.
  destruct (SFcompare_refl (Prim2SF x)) as [H|H]; rewrite H in Heq; [done|].
  by rewrite (SFcompare_nan _ (Prim2SF y) H).
Qed.

(** X9: with a cutoff that is not a number no branch is ever cut, whatever
    the branch lengths: every comparison [node.length > cutoff] is false.
    A well-formed tree without a node of a single child below the root is
    handed back whole, or discarded if it has fewer than four taxa. *)
Theorem nan_cutoff_cuts_nothing (tostring : heap → nat → string)
    (cutoff : float) (fuel : nat) (h : heap) (t : tree) :
  is_nan cutoff = true →
  repr h None t → NoDup (ids t) →
  (∀ n nd, n ∈ ids t → n ≠ tid t → h !! n = Some nd → Node.nchildren nd ≠ 1) →
  ∃ n, count_taxa h (tid t) = Ok n ∧
    cut_long_internal_branches tostring cutoff (S fuel) h (tid t) =
      Ok (h, if bool_decide (4 ≤ n) then [tid t] else [],
          if bool_decide (4 ≤ n) then ∅
          else {[tostring h (tid t) := remaining_tree_has_fewer_than_4_taxa]}).
Proof.
  intros Hnan Hrepr Hnd Hkink. apply cut_whole_tree; [done|done|].
  intros n nd Hn Hroot Hnode _. split; [by eapply Hkink|].
  by apply float_ltb_nan.
Qed.

Lemma nan_cutoff_cuts_nothing_witness :
  ∃ n, count_taxa long_branch_tree (tid long_branch_shape) = Ok n ∧
    cut_long_internal_branches node_index nan 1 long_branch_tree
        (tid long_branch_shape) =
      Ok (long_branch_tree, if bool_decide (4 ≤ n) then [tid long_branch_shape] else [],
          if bool_decide (4 ≤ n) then ∅
          else {[node_index long_branch_tree (tid long_branch_shape) :=
                   remaining_tree_has_fewer_than_4_taxa]}).
Proof.
  apply (nan_cutoff_cuts_nothing node_index nan 0
           long_branch_tree long_branch_shape).
  - reflexivity.
  - apply long_branch_tree_repr.
  - apply long_branch_tree_repr.
  - intros n nd Hn _ Hnd.
    assert (Hall : forallb (λ n, match long_branch_tree !! n with
                    | Some nd => negb (bool_decide (Node.nchildren nd = 1))
                    | None => true end) (ids long_branch_shape) = true)
      by (vm_compute; reflexivity).
    rewrite forallb_forall in Hall. apply list_elem_of_In in Hn.
    specialize (Hall n Hn). rewrite Hnd in Hall.
    apply negb_true_iff in Hall. by apply bool_decide_eq_false in Hall.
Defined.

(** * fasta_from_tree.py, and the file names of cut_deep_paralogs.py *)

(** ** Python's [str.split], [str.join] and [str.lstrip] *)

(** [s.split(sep)] for a separator of one character: the fields between
    the separators, empty fields included. *)
Fixpoint split (sep : Ascii.ascii) (s : string) : list string :=
  match s with
  | EmptyString => [EmptyString]
  | String c s' =>
      if Ascii.eqb c sep then EmptyString :: split sep s'
      else match split sep s' with
           | field :: fields => String c field :: fields
           | [] => [String c EmptyString]
           end
  end.

(** [sep.join(fields)] *)
Fixpoint join (sep : string) (fields : list string) : string :=
  match fields with
  | [] => EmptyString
  | [field] => field
  | field :: fields => field +:+ sep +:+ join sep fields
  end.

(** [s.lstrip(chars)]: the leading characters that are among [chars] are
    taken off, whatever their order. *)
Fixpoint lstrip (chars : string) (s : string) : string :=
  match s with
  | EmptyString => EmptyString
  | String c s' =>
      if bool_decide (c ∈ String.list_ascii_of_string chars)
      then lstrip chars s' else s
  end.

(** [l[0:-1]]: all but the last. *)
Definition but_last {A} (l : list A) : list A := take (Datatypes.length l - 1) l.

Definition underscore : Ascii.ascii := Ascii.ascii_of_nat 95.

Lemma append_String (c : Ascii.ascii) (s t : string) :
  String c s +:+ t = String c (s +:+ t).
Proof. reflexivity. Qed.

Lemma append_Empty (t : string) : EmptyString +:+ t = t.
Proof. reflexivity. Qed.

Lemma append_assoc (s t u : string) : (s +:+ t) +:+ u = s +:+ (t +:+ u).
Proof.
  induction s as [|c s IH]; [done|]. rewrite !append_String. by f_equal.
Qed.

Lemma split_nonempty (sep : Ascii.ascii) (s : string) : split sep s ≠ [].
Proof.
  destruct s as [|c s]; simpl; [done|].
  destruct (Ascii.eqb c sep); [done|]. by destruct (split sep s).
Qed.

Lemma split_cons_other (sep c : Ascii.ascii) (s : string) :
  c ≠ sep →
  ∃ field fields, split sep s = field :: fields ∧
    split sep (String c s) = String c field :: fields.
Proof.
  intros Hc. simpl. rewrite (proj2 (Ascii.eqb_neq c sep)) by done.
  pose proof (split_nonempty sep s). destruct (split sep s) as [|f fs]; [done|].
  eauto.
Qed.

Lemma join_cons (sep field : string) (f : string) (fields : list string) :
  join sep (field :: f :: fields) = field +:+ sep +:+ join sep (f :: fields).
Proof. reflexivity. Qed.

Lemma join_String (sep : string) (c : Ascii.ascii) (field : string)
    (fields : list string) :
  join sep (String c field :: fields) = String c (join sep (field :: fields)).
Proof. destruct fields; [done|]. by rewrite !join_cons, append_String. Qed.

Lemma join_split (sep : Ascii.ascii) (s : string) :
  join (String sep EmptyString) (split sep s) = s.
Proof.
  induction s as [|c s IH]; [done|].
  destruct (decide (c = sep)) as [->|Hc].
  - simpl. rewrite Ascii.eqb_refl.
    pose proof (split_nonempty sep s). destruct (split sep s) as [|f fs]; [done|].
    rewrite join_cons, append_Empty, append_String, append_Empty. by f_equal.
  - destruct (split_cons_other sep c s Hc) as (f & fs & Hs & ->).
    rewrite join_String. f_equal. by rewrite <-Hs.
Qed.

Lemma split_fields_no_sep (sep : Ascii.ascii) (s : string) :
  Forall (λ field, sep ∉ String.list_ascii_of_string field) (split sep s).
Proof.
  induction s as [|c s IH]; simpl.
  - constructor; [apply not_elem_of_nil|constructor].
  - destruct (Ascii.eqb c sep) eqn:Hc.
    + constructor; [apply not_elem_of_nil|done].
    + apply Ascii.eqb_neq in Hc.
      destruct (split sep s) as [|f fs].
      * constructor; [|constructor]. simpl.
        apply not_elem_of_cons. split; [done|apply not_elem_of_nil].
      * apply Forall_cons in IH as [Hf Hfs]. constructor; [|done]. simpl.
        apply not_elem_of_cons. split; [done|done].
Qed.

Lemma split_no_sep (sep : Ascii.ascii) (s : string) :
  sep ∉ String.list_ascii_of_string s → split sep s = [s].
Proof.
  induction s as [|c s IH]; simpl; [done|].
  intros [Hc Hs]%not_elem_of_cons.
  rewrite (proj2 (Ascii.eqb_neq c sep)) by done. by rewrite IH.
Qed.

Lemma split_app (sep : Ascii.ascii) (s t : string) :
  split sep (s +:+ String sep t) = split sep s ++ split sep t.
Proof.
  induction s as [|c s IH].
  - rewrite append_Empty. simpl. by rewrite Ascii.eqb_refl.
  - rewrite append_String. simpl. destruct (Ascii.eqb c sep); [by rewrite IH|].
    rewrite IH. pose proof (split_nonempty sep s).
    by destruct (split sep s).
Qed.

Lemma split_head (s : string) : head (split period s) = Some (split_first_field s).
Proof.
  induction s as [|c s IH]; simpl; [done|].
  destruct (Ascii.eqb c period); [done|].
  destruct (split period s); simpl in *; [done|]. by injection IH as ->.
Qed.

(** ** The names of the files *)

(** cut_deep_paralogs.main, lines 254-255: the file of the [count]-th
    subtree that is written; [str(count)] is the decimal numeral. *)
Definition output_subtree_filename (output_folder tree_file_basename : string)
    (count : nat) : string :=
  output_folder +:+ "/" +:+ default "" (head (split period tree_file_basename))
    +:+ "_" +:+ pretty count +:+ ".subtree".

(** prune_paralogs_mo.py: [get_cluster_id] and the three files that [main]
    writes for a tree file, lines 514, 553, 590 and 602. *)
Definition get_cluster_id (filename : string) : string :=
  default "" (head (split period filename)).
Definition outout_file_id (output_folder treefile_basename : string) : string :=
  output_folder +:+ "/" +:+ get_cluster_id treefile_basename.
Definition mo_output_suffixes : list string :=
  [".1to1ortho.tre"; ".reroot"; ".ortho.tre"].

(** fasta_from_tree.subsample_alignments, lines 63-71: the alignment that
    goes with a tree file, and the prefix of the file that is written. *)
Definition matching_alignment (from_cut_deep_paralogs : bool)
    (alignment_directory tree_basename : string) : string * string :=
  if from_cut_deep_paralogs then  (* e.g. 4471_1.subtree *)
    let alignment_prefix := join "_" (but_last (split underscore tree_basename)) in
    let output_alignment_prefix := default "" (head (split period tree_basename)) in
    (alignment_directory +:+ "/" +:+ alignment_prefix
       +:+ ".paralogs.aln.hmm.trimmed.fasta",
     output_alignment_prefix)
  else  (* e.g. 4691_1.1to1ortho.tre *)
    let alignment_prefix := default "" (head (split period tree_basename)) in
    let output_alignment_prefix := join "." (but_last (split period tree_basename)) in
    (alignment_directory +:+ "/" +:+ alignment_prefix
       +:+ ".outgroup_added.aln.trimmed.fasta",
     output_alignment_prefix).

Definition no_char (c : Ascii.ascii) (s : string) : Prop :=
  c ∉ String.list_ascii_of_string s.

Lemma no_char_String (c d : Ascii.ascii) (s : string) :
  no_char c (String d s) ↔ c ≠ d ∧ no_char c s.
Proof. unfold no_char. simpl. apply not_elem_of_cons. Qed.

Lemma no_char_append (c : Ascii.ascii) (s t : string) :
  no_char c (s +:+ t) ↔ no_char c s ∧ no_char c t.
Proof.
  induction s as [|d s IH].
  - rewrite append_Empty. unfold no_char at 2. simpl.
    split; [intros ?; split; [apply not_elem_of_nil|done]|by intros [_ ?]].
  - rewrite append_String, !no_char_String, IH. tauto.
Qed.

Lemma pretty_N_char_plain (d : N) :
  pretty_N_char d ≠ underscore ∧ pretty_N_char d ≠ period.
Proof. unfold pretty_N_char. by repeat case_match. Qed.

Lemma pretty_N_go_plain (x : N) (s : string) :
  no_char underscore s ∧ no_char period s →
  no_char underscore (pretty_N_go x s) ∧ no_char period (pretty_N_go x s).
Proof.
  revert s. induction (N.lt_wf_0 x) as [x _ IH]; intros s Hs.
  assert (x = 0 ∨ 0 < x)%N as [->|?] by lia.
  - by rewrite pretty_N_go_0.
  - rewrite pretty_N_go_step by done. apply IH.
    { by apply N.div_lt. }
    rewrite !no_char_String.
    destruct (pretty_N_char_plain (x `mod` 10)) as [H1 H2].
    destruct Hs. repeat split; done || by apply not_eq_sym.
Qed.

(** A decimal numeral has no underscore and no period. *)
Lemma pretty_nat_plain (n : nat) :
  no_char underscore (pretty n) ∧ no_char period (pretty n).
Proof.
  unfold pretty, pretty_nat, pretty, pretty_N. case_decide.
  - split; apply (bool_decide_unpack _); vm_compute; exact I.
  - apply pretty_N_go_plain. split; apply not_elem_of_nil.
Qed.

Lemma split_first_field_append (s t : string) :
  no_char period s → split_first_field (s +:+ String period t) = s.
Proof.
  induction s as [|c s IH]; intros Hs.
  - rewrite append_Empty. simpl. by rewrite ?Ascii.eqb_refl.
  - apply no_char_String in Hs as [Hc Hs]. rewrite append_String. simpl.
    rewrite (proj2 (Ascii.eqb_neq c period)) by (by apply not_eq_sym).
    by rewrite IH.
Qed.

Lemma but_last_snoc {A} (l : list A) (x : A) : but_last (l ++ [x]) = l.
Proof.
  unfold but_last. rewrite length_app. simpl.
  replace (Datatypes.length l + 1 - 1) with (Datatypes.length l) by lia.
  by rewrite take_app_length.
Qed.

Lemma head_split (c : Ascii.ascii) (s : string) :
  c = period → default "" (head (split c s)) = split_first_field s.
Proof. intros ->. by rewrite split_head. Qed.

(** X10: the subtree files of cut_deep_paralogs lead fasta_from_tree back to
    the alignment of their gene.  The [count]-th subtree of a tree file is
    written as [<gene>_<count>.subtree], [<gene>] the text of the name of the
    tree file before its first period; from that name, [subsample_alignments]
    takes [<gene>.paralogs.aln.hmm.trimmed.fasta] as the matching alignment,
    whatever underscores [<gene>] has, and [<gene>_<count>] as the prefix of
    its output. *)
Theorem subtree_file_leads_to_alignment_of_gene
    (output_folder alignment_directory tree_file_basename : string) (count : nat) :
  let gene := split_first_field tree_file_basename in
  let tree_basename := gene +:+ "_" +:+ pretty count +:+ ".subtree" in
  output_subtree_filename output_folder tree_file_basename count =
    output_folder +:+ "/" +:+ tree_basename ∧
  matching_alignment true alignment_directory tree_basename =
    (alignment_directory +:+ "/" +:+ gene +:+ ".paralogs.aln.hmm.trimmed.fasta",
     gene +:+ "_" +:+ pretty count).
Proof.
  intros gene tree_basename.
  destruct (pretty_nat_plain count) as [Hu Hp].
  split.
  { unfold output_subtree_filename. by rewrite head_split. }
  unfold matching_alignment. f_equal.
  - unfold tree_basename.
    change (gene +:+ "_" +:+ pretty count +:+ ".subtree")
      with (gene +:+ String underscore (pretty count +:+ ".subtree")).
    rewrite split_app, (split_no_sep underscore (pretty count +:+ ".subtree")).
    + rewrite but_last_snoc.
      change (join "_" (split underscore gene))
        with (join (String underscore EmptyString) (split underscore gene)).
      by rewrite join_split.
    + apply no_char_append. split; [done|].
      apply (bool_decide_unpack _). vm_compute. exact I.
  - rewrite head_split by done. unfold tree_basename.
    rewrite <-!append_assoc.
    change ((gene +:+ "_") +:+ pretty count +:+ ".subtree")
      with (((gene +:+ "_") +:+ pretty count) +:+ String period "subtree").
    rewrite split_first_field_append; [by rewrite append_assoc|].
    rewrite !no_char_append. split; [split|done].
    + apply split_first_field_no_period.
    + apply (bool_decide_unpack _). vm_compute. exact I.
Qed.

(** X11: the tree files of prune_paralogs_mo lead fasta_from_tree to the
    alignment of their cluster.  [main] names its files
    [<cluster>.1to1ortho.tre] and [<cluster>.ortho.tre], [<cluster>] the text
    of the name of the tree file before its first period; from a name
    [<cluster>.<middle>.tre], [subsample_alignments] takes
    [<cluster>.outgroup_added.aln.trimmed.fasta] as the matching alignment
    and [<cluster>.<middle>] as the prefix of its output. *)
Theorem mo_tree_file_leads_to_alignment_of_cluster
    (output_folder alignment_directory treefile_basename middle : string) :
  no_char period middle →
  let cluster := get_cluster_id treefile_basename in
  let tree_basename := cluster +:+ "." +:+ middle +:+ ".tre" in
  outout_file_id output_folder treefile_basename +:+ "." +:+ middle +:+ ".tre" =
    output_folder +:+ "/" +:+ tree_basename ∧
  matching_alignment false alignment_directory tree_basename =
    (alignment_directory +:+ "/" +:+ cluster +:+ ".outgroup_added.aln.trimmed.fasta",
     cluster +:+ "." +:+ middle).
Proof.
  intros Hmiddle cluster tree_basename.
  assert (Hcluster : no_char period cluster).
  { unfold cluster, get_cluster_id. rewrite head_split by done.
    apply split_first_field_no_period. }
  split.
  { unfold outout_file_id. fold cluster. unfold tree_basename.
    by rewrite !append_assoc. }
  assert (Hsplit : split period tree_basename = [cluster; middle; "tre"]).
  { unfold tree_basename.
    change (cluster +:+ "." +:+ middle +:+ ".tre")
      with (cluster +:+ String period (middle +:+ String period "tre")).
    rewrite !split_app, (split_no_sep period cluster),
      (split_no_sep period middle) by done. done. }
  unfold matching_alignment. rewrite Hsplit. done.
Qed.

Lemma mo_tree_file_leads_to_alignment_of_cluster_witness :
  let cluster := get_cluster_id "4471.treefile" in
  let tree_basename := cluster +:+ "." +:+ "ortho" +:+ ".tre" in
  outout_file_id "out" "4471.treefile" +:+ "." +:+ "ortho" +:+ ".tre" =
    "out" +:+ "/" +:+ tree_basename ∧
  matching_alignment false "aln" tree_basename =
    ("aln" +:+ "/" +:+ cluster +:+ ".outgroup_added.aln.trimmed.fasta",
     cluster +:+ "." +:+ "ortho").
Proof.
  apply (mo_tree_file_leads_to_alignment_of_cluster "out" "aln" "4471.treefile" "ortho").
  apply (bool_decide_unpack _). vm_compute. exact I.
Defined.

(** ** [lstrip] *)

Lemma length_append (s t : string) :
  String.length (s +:+ t) = String.length s + String.length t.
Proof. induction s as [|c s IH]; [done|]. rewrite append_String. simpl. by rewrite IH. Qed.

Lemma append_cancel_r (a b u : string) : a +:+ u = b +:+ u → a = b.
Proof.
  revert b. induction a as [|x a IH]; intros [|y b] H.
  - done.
  - exfalso. apply (f_equal String.length) in H.
    rewrite append_Empty, length_append in H. simpl in H. lia.
  - exfalso. apply (f_equal String.length) in H.
    rewrite append_Empty, length_append in H. simpl in H. lia.
  - rewrite !append_String in H. injection H as -> H. f_equal. by apply IH.
Qed.

Lemma lstrip_spec (chars : string) (s : string) :
  ∃ stripped, s = stripped +:+ lstrip chars s ∧
    Forall (λ c, c ∈ String.list_ascii_of_string chars)
      (String.list_ascii_of_string stripped) ∧
    (∀ c rest, lstrip chars s = String c rest →
       c ∉ String.list_ascii_of_string chars).
Proof.
  induction s as [|c s (stripped & Hs & Hall & Hfirst)]; simpl.
  - exists EmptyString. split; [done|]. split; [constructor|done].
  - case_bool_decide as Hc.
    + exists (String c stripped). rewrite append_String. split; [by f_equal|].
      split; [by constructor|done].
    + exists EmptyString. split; [done|]. split; [constructor|].
      by intros c' rest [= <- _].
Qed.

(** The output folder of [subsample_alignments] for subtrees, line 47. *)
Definition cut_output_folder (treefile_directory_basename : string) : string :=
  "11_" +:+ lstrip "10_" treefile_directory_basename +:+ "_alignments".

(** X12: [lstrip("10_")] takes off every leading [1], [0] and [_], not
    the prefix [10_].  For a directory named [10_<rest>] the output folder is
    [11_<rest>_alignments] if and only if [<rest>] is empty or begins with a
    character other than these three; otherwise the beginning of [<rest>] is
    lost too. *)
Theorem cut_output_folder_keeps_rest_iff (rest : string) :
  cut_output_folder ("10_" +:+ rest) = "11_" +:+ rest +:+ "_alignments"
  ↔ rest = EmptyString ∨
    ∃ c rest', rest = String c rest' ∧ c ∉ String.list_ascii_of_string "10_".
Proof.
  unfold cut_output_folder.
  assert (H10 : lstrip "10_" ("10_" +:+ rest)
                = lstrip "10_" rest) by done.
  rewrite H10. clear H10.
  assert (Hinj : ∀ a b, "11_" +:+ a +:+ "_alignments" = "11_" +:+ b +:+ "_alignments"
                         → a = b).
  { intros a b [= H]. rewrite !append_Empty in H. by apply append_cancel_r in H. }
  split.
  - intros Heq%Hinj. destruct rest as [|c rest']; [by left|right].
    exists c, rest'. split; [done|].
    destruct (lstrip_spec "10_" (String c rest')) as (_ & _ & _ & Hfirst).
    by apply (Hfirst c rest').
  - intros [->|(c & rest' & -> & Hc)]; [done|].
    simpl. by rewrite bool_decide_eq_false_2.
Qed.

(** ** fasta_from_tree.batch_input_files *)

(** Python's [range(0, stop, step)]: the values from [i] on.  [fuel] bounds
    the number of values; [stop] of them are enough for a positive step. *)
Fixpoint range_from (fuel i stop step : nat) : list nat :=
  match fuel with
  | 0 => []
  | S fuel =>
      if bool_decide (i < stop) then i :: range_from fuel (i + step) stop step
      else []
  end.

(** [range(0, stop, step)] raises [ValueError] for a step of zero and is
    empty for a negative step. *)
Definition range (stop : nat) (step : Z) : result (list nat) :=
  if bool_decide (step = 0)%Z then Raise ValueError
  else if bool_decide (step < 0)%Z then Ok []
  else Ok (range_from stop 0 stop (Z.to_nat step)).

(** [lst[i:j]] *)
Definition slice {A} (lst : list A) (i j : Z) : list A :=
  take (Z.to_nat (j - i)) (drop (Z.to_nat i) lst).

(** Lines 117-122: successive n-sized chunks from lst. *)
Definition chunks {A} (lst : list A) (n : Z) : result (list (list A)) :=
  starts ← range (Datatypes.length lst) n;
  Ok (map (λ i : nat, slice lst (Z.of_nat i) (Z.of_nat i + n)) starts).

(** Lines 125-128; [if algorithm_suffix] is false for [False] and for the
    empty string. *)
Definition batch_prefix (output_directory : string) (algorithm_suffix : option string)
    : string :=
  match algorithm_suffix with
  | Some (String c s) =>
      output_directory +:+ "/selected_batch_" +:+ String c s
  | _ => output_directory +:+ "/selected_batch"
  end.

Definition batch_folder (output_directory : string) (algorithm_suffix : option string)
    (batch_num : nat) : string :=
  batch_prefix output_directory algorithm_suffix +:+ "_" +:+ pretty batch_num.

(** Lines 130-134: the copies that are made, each a file and the folder it
    is copied into, in the order they are made. *)
Fixpoint copy_batches (output_directory : string) (algorithm_suffix : option string)
    (batch_num : nat) (batches : list (list string)) : list (string * string) :=
  match batches with
  | [] => []
  | batch :: batches =>
      map (λ fasta_file,
             (fasta_file, batch_folder output_directory algorithm_suffix batch_num))
          batch
      ++ copy_batches output_directory algorithm_suffix (batch_num + 1) batches
  end.

Definition batch_input_files (fasta_file_list : list string)
    (output_directory : string) (batch_size : Z) (algorithm_suffix : option string)
    : result (list (string * string)) :=
  batches ← chunks fasta_file_list batch_size;
  let batch_num := 1 in
  Ok (copy_batches output_directory algorithm_suffix batch_num batches).

Lemma slice_chunk {A} (lst : list A) (i step : nat) :
  slice lst (Z.of_nat i) (Z.of_nat i + Z.of_nat step) = take step (drop i lst).
Proof.
  unfold slice. rewrite Nat2Z.id. f_equal. lia.
Qed.

(** The batches from the file at index [k * step] on. *)
Lemma copy_batches_from (out : string) (suffix : option string)
    (files : list string) (step : nat) :
  0 < step → ∀ fuel k,
  Datatypes.length files - k * step ≤ fuel →
  copy_batches out suffix (k + 1)
    (map (λ i : nat, slice files (Z.of_nat i) (Z.of_nat i + Z.of_nat step))
       (range_from fuel (k * step) (Datatypes.length files) step)) =
  imap (λ p f, (f, batch_folder out suffix ((k * step + p) / step + 1)))
    (drop (k * step) files).
Proof.
  intros Hstep. induction fuel as [|fuel IH]; intros k Hfuel.
  { simpl. rewrite drop_ge by lia. done. }
  simpl. case_bool_decide as Hlt.
  2:{ rewrite drop_ge by lia. done. }
  simpl. rewrite slice_chunk.
  replace (k * step + step) with ((k + 1) * step) by lia.
  rewrite IH by lia.
  rewrite <-(take_drop step (drop (k * step) files)) at 2.
  rewrite imap_app. f_equal.
  - rewrite <-(imap_const (λ f, (f, batch_folder out suffix (k + 1)))).
    apply imap_ext. intros p f Hp. simpl.
    apply lookup_lt_Some in Hp. rewrite length_take in Hp.
    replace ((k * step + p) / step) with k; [done|].
    rewrite Nat.div_add_l by lia. rewrite (Nat.div_small p step) by lia. lia.
  - rewrite drop_drop.
    replace (k * step + step) with ((k + 1) * step) by lia.
    destruct (decide ((k + 1) * step ≤ Datatypes.length files)) as [Hle|Hgt].
    + apply imap_ext. intros p f Hp. simpl. rewrite length_take, length_drop.
      replace (k * step + (step `min` (Datatypes.length files - k * step) + p))
        with ((k + 1) * step + p) by lia. done.
    + by rewrite drop_ge by lia.
Qed.

(** X13: with a positive batch size every fasta file is copied exactly
    once, in the order of the list, and the file at index [i] goes into the
    folder of batch number [i div batch_size + 1]. *)
Theorem each_file_goes_into_one_batch (fasta_file_list : list string)
    (output_directory : string) (batch_size : Z) (algorithm_suffix : option string) :
  (0 < batch_size)%Z →
  ∃ copies,
    batch_input_files fasta_file_list output_directory batch_size algorithm_suffix =
      Ok copies ∧
    copies = imap (λ i fasta_file,
                     (fasta_file,
                      batch_folder output_directory algorithm_suffix
                        (i / Z.to_nat batch_size + 1))) fasta_file_list ∧
    map fst copies = fasta_file_list.
Proof.
  intros Hpos. eexists. split; [|split; [reflexivity|]].
  - unfold batch_input_files, chunks, range.
    rewrite bool_decide_eq_false_2 by lia. rewrite bool_decide_eq_false_2 by lia.
    simpl. f_equal.
    pose proof (copy_batches_from output_directory algorithm_suffix fasta_file_list
                  (Z.to_nat batch_size) ltac:(lia)
                  (Datatypes.length fasta_file_list) 0 ltac:(lia)) as H.
    simpl in H. rewrite Z2Nat.id in H by lia. exact H.
  - apply list_eq. intros i. rewrite list_lookup_fmap, list_lookup_imap.
    by destruct (fasta_file_list !! i).
Qed.

Lemma each_file_goes_into_one_batch_witness :
  ∃ copies,
    batch_input_files ["a.fasta"; "b.fasta"; "c.fasta"] "out" 2 (Some "mo") =
      Ok copies ∧
    copies = imap (λ i fasta_file,
                     (fasta_file, batch_folder "out" (Some "mo") (i / Z.to_nat 2 + 1)))
               ["a.fasta"; "b.fasta"; "c.fasta"] ∧
    map fst copies = ["a.fasta"; "b.fasta"; "c.fasta"].
Proof.
  apply (each_file_goes_into_one_batch ["a.fasta"; "b.fasta"; "c.fasta"] "out" 2
           (Some "mo")).
  lia.
Defined.

Example batch_input_files_example :
  batch_input_files ["a.fasta"; "b.fasta"; "c.fasta"] "out" 2 (Some "mo") =
    Ok [("a.fasta", "out/selected_batch_mo_1"); ("b.fasta", "out/selected_batch_mo_1");
        ("c.fasta", "out/selected_batch_mo_2")].
Proof. vm_compute. reflexivity. Qed.

(** X14: a batch size of zero makes [batch_input_files] raise [ValueError]
    (the step of [range] must not be zero), and with a negative batch size
    no file is copied and no batch folder made. *)
Theorem batch_size_not_positive (fasta_file_list : list string)
    (output_directory : string) (algorithm_suffix : option string) (p : positive) :
  batch_input_files fasta_file_list output_directory 0 algorithm_suffix =
    Raise ValueError ∧
  batch_input_files fasta_file_list output_directory (Z.neg p) algorithm_suffix =
    Ok [].
Proof.
  split; [reflexivity|].
  unfold batch_input_files, chunks, range.
  rewrite bool_decide_eq_false_2 by lia. rewrite bool_decide_eq_true_2 by lia.
  reflexivity.
Qed.

(** ** fasta_from_tree.subsample_alignments: the sequences that are selected *)

(** A record of the alignment, with [alignment[k].id]. *)
Record SeqRecord : Type := { seq_id : string; seq_letters : string }.

(** Lines 75-79: the two loops, every match appended.  The name of a tip
    without a name is [None], which is no id. *)
Definition subalignment (tree_terminals : list (option string))
    (alignment : list SeqRecord) : list SeqRecord :=
  foldl (λ subalignment alignment_k,
           foldl (λ subalignment name_j,
                    if decide (name_j = Some (seq_id alignment_k))
                    then subalignment ++ [alignment_k] else subalignment)
                 subalignment tree_terminals)
        [] alignment.

(** Line 82: the numbers that are reported for the tree. *)
Definition alignment_filtering_stats (tree_terminals : list (option string))
    (alignment : list SeqRecord) : list nat :=
  [ Datatypes.length tree_terminals; Datatypes.length alignment;
    Datatypes.length (subalignment tree_terminals alignment) ].

(** How often a record is selected: once for every tip of its name. *)
Definition tips_named (tree_terminals : list (option string)) (rec : SeqRecord)
    : nat :=
  Datatypes.length (filter (λ name, name = Some (seq_id rec)) tree_terminals).

Lemma subalignment_inner (tree_terminals : list (option string)) (rec : SeqRecord)
    (acc : list SeqRecord) :
  foldl (λ subalignment name_j,
           if decide (name_j = Some (seq_id rec))
           then subalignment ++ [rec] else subalignment)
        acc tree_terminals =
  acc ++ replicate (tips_named tree_terminals rec) rec.
Proof.
  unfold tips_named. revert acc.
  induction tree_terminals as [|name names IH]; intros acc; simpl.
  - by rewrite app_nil_r.
  - rewrite IH, filter_cons. case_decide; simpl; [|done].
    by rewrite <-(assoc_L (++)).
Qed.

Lemma subalignment_outer (tree_terminals : list (option string))
    (alignment acc : list SeqRecord) :
  foldl (λ subalignment alignment_k,
           foldl (λ subalignment name_j,
                    if decide (name_j = Some (seq_id alignment_k))
                    then subalignment ++ [alignment_k] else subalignment)
                 subalignment tree_terminals)
        acc alignment =
  acc ++ flat_map (λ rec, replicate (tips_named tree_terminals rec) rec) alignment.
Proof.
  revert acc. induction alignment as [|rec alignment IH]; intros acc; simpl.
  - by rewrite app_nil_r.
  - rewrite subalignment_inner, IH. by rewrite <-(assoc_L (++)).
Qed.

(** X15: a sequence of the alignment is selected once for every tip whose
    name is its id, in the order of the alignment: a name that two tips
    carry puts the sequence twice into the output, and a sequence whose id
    no tip carries is left out. *)
Theorem sequences_selected_once_per_tip (tree_terminals : list (option string))
    (alignment : list SeqRecord) :
  subalignment tree_terminals alignment =
    flat_map (λ rec, replicate (tips_named tree_terminals rec) rec) alignment.
Proof. unfold subalignment. by rewrite subalignment_outer. Qed.

Lemma tips_named_NoDup (tree_terminals : list (option string)) (rec : SeqRecord) :
  NoDup tree_terminals →
  tips_named tree_terminals rec =
    if decide (Some (seq_id rec) ∈ tree_terminals) then 1 else 0.
Proof.
  unfold tips_named. induction 1 as [|name names Hname Hnd IH]; simpl.
  - first [done | case_decide as H; [by apply elem_of_nil in H|done]].
  - rewrite filter_cons.
    destruct (decide (name = Some (seq_id rec))) as [->|Hne]; simpl.
    + rewrite decide_True by apply list_elem_of_here.
      rewrite IH. by rewrite decide_False.
    + rewrite IH. destruct (decide (Some (seq_id rec) ∈ names)) as [Hin|Hin].
      * by rewrite decide_True by (by apply list_elem_of_further).
      * rewrite decide_False; [done|].
        intros [?|?]%elem_of_cons; [by subst|done].
Qed.

Lemma subalignment_filter (tree_terminals : list (option string))
    (alignment : list SeqRecord) :
  NoDup tree_terminals →
  subalignment tree_terminals alignment =
    filter (λ rec, Some (seq_id rec) ∈ tree_terminals) alignment.
Proof.
  intros Hnd. unfold subalignment. rewrite subalignment_outer. simpl.
  induction alignment as [|rec alignment IH]; simpl; [done|].
  rewrite IH, filter_cons, tips_named_NoDup by done.
  by case_decide.
Qed.

(** X16: when no two tips have the same name, the selected sequences are
    the sequences of the alignment whose id is the name of a tip, each once
    and in the order of the alignment; there are no more of them than
    sequences in the alignment. *)
Theorem distinct_tips_select_a_sub_alignment (tree_terminals : list (option string))
    (alignment : list SeqRecord) :
  NoDup tree_terminals →
  subalignment tree_terminals alignment =
    filter (λ rec, Some (seq_id rec) ∈ tree_terminals) alignment ∧
  Datatypes.length (subalignment tree_terminals alignment) ≤
    Datatypes.length alignment.
Proof.
  intros Hnd. rewrite subalignment_filter by done. split; [done|].
  apply length_filter.
Qed.

Lemma distinct_tips_select_a_sub_alignment_witness :
  let tree_terminals := [Some "A.1"; Some "C.1"; None] in
  let alignment := [ {| seq_id := "A.1"; seq_letters := "ACGT" |};
                     {| seq_id := "B.1"; seq_letters := "ACGA" |};
                     {| seq_id := "C.1"; seq_letters := "ACGC" |} ] in
  subalignment tree_terminals alignment =
    filter (λ rec, Some (seq_id rec) ∈ tree_terminals) alignment ∧
  Datatypes.length (subalignment tree_terminals alignment) ≤
    Datatypes.length alignment.
Proof.
  apply (distinct_tips_select_a_sub_alignment [Some "A.1"; Some "C.1"; None]).
  apply (bool_decide_unpack _). vm_compute. exact I.
Defined.

(** X17: when no two tips have the same name and no two sequences the same
    id, there are no more selected sequences than tips, and as many --- the
    first and the third number of the report are equal --- if and only if
    every tip has a name that is the id of a sequence of the alignment. *)
Theorem all_tips_found_iff_counts_agree (tree_terminals : list (option string))
    (alignment : list SeqRecord) :
  NoDup tree_terminals → NoDup (map seq_id alignment) →
  Datatypes.length (subalignment tree_terminals alignment) ≤
    Datatypes.length tree_terminals ∧
  (Datatypes.length (subalignment tree_terminals alignment) =
     Datatypes.length tree_terminals
   ↔ Forall (λ name, ∃ rec, rec ∈ alignment ∧ name = Some (seq_id rec))
       tree_terminals).
Proof.
  intros Hnames Hids. rewrite subalignment_filter by done.
  set (sub := filter (λ rec, Some (seq_id rec) ∈ tree_terminals) alignment).
  set (found := map (λ rec, Some (seq_id rec)) sub).
  assert (Hlen : Datatypes.length found = Datatypes.length sub)
    by apply length_map.
  assert (Hnd : NoDup found).
  { unfold found. rewrite <-(map_map seq_id Some).
    apply (NoDup_fmap_2 Some). unfold sub.
    clear -Hids. induction alignment as [|rec alignment IH]; simpl; [constructor|].
    apply NoDup_cons in Hids as [Hrec Hids]. rewrite filter_cons.
    case_decide; [|by apply IH].
    simpl. apply NoDup_cons. split; [|by apply IH].
    intros (rec' & Heq & Hin)%list_elem_of_fmap. apply Hrec.
    apply list_elem_of_fmap. exists rec'. split; [done|].
    by apply list_elem_of_filter in Hin as [_ ?]. }
  assert (Hsub : found ⊆ tree_terminals).
  { intros name (rec & -> & Hin)%list_elem_of_fmap.
    by apply list_elem_of_filter in Hin as [? _]. }
  pose proof (submseteq_length _ _ (NoDup_submseteq _ _ Hnd Hsub)) as Hle.
  split; [lia|]. rewrite <-Hlen. split.
  - intros Heq.
    assert (Hperm : found ≡ₚ tree_terminals).
    { apply submseteq_length_Permutation; [by apply NoDup_submseteq|lia]. }
    apply Forall_forall. intros name Hname. rewrite <-Hperm in Hname.
    apply list_elem_of_fmap in Hname as (rec & -> & Hin).
    exists rec. split; [|done]. by apply list_elem_of_filter in Hin as [_ ?].
  - intros Hall. apply Nat.le_antisymm; [done|].
    apply submseteq_length, NoDup_submseteq; [done|].
    intros name Hname. rewrite Forall_forall in Hall.
    destruct (Hall name Hname) as (rec & Hrec & ->).
    apply list_elem_of_fmap. exists rec. split; [done|].
    by apply list_elem_of_filter.
Qed.

Lemma all_tips_found_iff_counts_agree_witness :
  let tree_terminals := [Some "A.1"; Some "C.1"] in
  let alignment := [ {| seq_id := "A.1"; seq_letters := "ACGT" |};
                     {| seq_id := "B.1"; seq_letters := "ACGA" |};
                     {| seq_id := "C.1"; seq_letters := "ACGC" |} ] in
  Datatypes.length (subalignment tree_terminals alignment) ≤
    Datatypes.length tree_terminals ∧
  (Datatypes.length (subalignment tree_terminals alignment) =
     Datatypes.length tree_terminals
   ↔ Forall (λ name, ∃ rec, rec ∈ alignment ∧ name = Some (seq_id rec))
       tree_terminals).
Proof.
  apply (all_tips_found_iff_counts_agree [Some "A.1"; Some "C.1"]).
  - apply (bool_decide_unpack _). vm_compute. exact I.
  - apply (bool_decide_unpack _). vm_compute. exact I.
Defined.

(** * prune_paralogs_mo.parse_ingroup_and_outgroup_file *)

(** How the function ends: with the two lists, with [sys.exit(1)], or with
    the [IndexError] of [sample[1]] on a line without a tab. *)
Inductive parse_outcome : Type :=
  | parsed (ingroups outgroups : list string)
  | exit_1
  | sample_index_error.

Definition tab : Ascii.ascii := Ascii.ascii_of_nat 9.

Section parse_ingroup_and_outgroup_file.

(** Python's [str.strip()], which takes the white space off both ends of
    the line; nothing is assumed of it. *)
Variable strip : string → string.

(** Lines 322-334: the loop over the lines of the file. *)
Fixpoint parse_lines (lines : list string) (ingroups outgroups : list string)
    : parse_outcome :=
  match lines with
  | [] => parsed ingroups outgroups
  | line :: lines =>
      if bool_decide (String.length line < 3) then
        parse_lines lines ingroups outgroups
      else
        let sample := split tab (strip line) in
        match sample !! 0 with
        | None => sample_index_error
        | Some sample_0 =>
            if bool_decide (sample_0 = "IN") then
              match sample !! 1 with
              | Some sample_1 => parse_lines lines (ingroups ++ [sample_1]) outgroups
              | None => sample_index_error
              end
            else if bool_decide (sample_0 = "OUT") then
              match sample !! 1 with
              | Some sample_1 => parse_lines lines ingroups (outgroups ++ [sample_1])
              | None => sample_index_error
              end
            else exit_1
        end
  end.

(** Lines 336-344: no taxon may be designated as both ingroup and
    outgroup. *)
Definition parse_ingroup_and_outgroup_file (lines : list string) : parse_outcome :=
  match parse_lines lines [] [] with
  | parsed ingroups outgroups =>
      if bool_decide (0 < size (name_set ingroups ∩ name_set outgroups)) then exit_1
      else parsed ingroups outgroups
  | outcome => outcome
  end.

(** The taxon that a line designates as [key], if it does. *)
Definition designated (key : string) (line : string) : option string :=
  let sample := split tab (strip line) in
  if bool_decide (sample !! 0 = Some key) then sample !! 1 else None.

Definition long_enough (line : string) : Prop := 3 ≤ String.length line.

Lemma parse_lines_parsed (lines : list string) (ingroups outgroups i o : list string) :
  parse_lines lines ingroups outgroups = parsed i o →
  i = ingroups ++ omap (designated "IN") (filter long_enough lines) ∧
  o = outgroups ++ omap (designated "OUT") (filter long_enough lines) ∧
  Forall (λ line, is_Some (designated "IN" line) ∨ is_Some (designated "OUT" line))
    (filter long_enough lines).
Proof.
  revert ingroups outgroups. unfold long_enough.
  induction lines as [|line lines IH]; intros ingroups outgroups; simpl.
  - intros [= <- <-]. rewrite !app_nil_r. split; [done|]. split; [done|constructor].
  - rewrite filter_cons. case_bool_decide as Hlen.
    { rewrite decide_False by lia. apply IH. }
    rewrite decide_True by lia.
    destruct (split tab (strip line) !! 0) as [s0|] eqn:H0; [|done].
    case_bool_decide as HIN.
    { subst s0. destruct (split tab (strip line) !! 1) as [s1|] eqn:H1; [|done].
      assert (Hd1 : designated "IN" line = Some s1).
      { unfold designated. rewrite H0, H1. by rewrite bool_decide_eq_true_2. }
      assert (Hd2 : designated "OUT" line = None).
      { unfold designated. rewrite H0. by rewrite bool_decide_eq_false_2. }
      intros (-> & -> & Hall)%IH. simpl. rewrite Hd1, Hd2. simpl.
      rewrite <-(assoc_L (++)). split; [done|]. split; [done|].
      constructor; [|done]. left. eauto. }
    case_bool_decide as HOUT; [|done].
    subst s0. destruct (split tab (strip line) !! 1) as [s1|] eqn:H1; [|done].
    assert (Hd1 : designated "IN" line = None).
    { unfold designated. rewrite H0. by rewrite bool_decide_eq_false_2. }
    assert (Hd2 : designated "OUT" line = Some s1).
    { unfold designated. rewrite H0, H1. by rewrite bool_decide_eq_true_2. }
    intros (-> & -> & Hall)%IH. simpl. rewrite Hd1, Hd2. simpl.
    rewrite <-(assoc_L (++)). split; [done|]. split; [done|].
    constructor; [|done]. right. eauto.
Qed.

(** X18: when [parse_ingroup_and_outgroup_file] returns, every line of
    three characters or more designates a taxon as [IN] or as [OUT]; the
    ingroup list holds the taxa of the [IN] lines and the outgroup list
    those of the [OUT] lines, in the order of the file and as often as they
    are listed; shorter lines are left out; and no taxon is in both
    lists. *)
Theorem parsed_lists_are_the_designated_taxa (lines : list string)
    (ingroups outgroups : list string) :
  parse_ingroup_and_outgroup_file lines = parsed ingroups outgroups →
  ingroups = omap (designated "IN") (filter long_enough lines) ∧
  outgroups = omap (designated "OUT") (filter long_enough lines) ∧
  Forall (λ line, is_Some (designated "IN" line) ∨ is_Some (designated "OUT" line))
    (filter long_enough lines) ∧
  (∀ taxon, taxon ∈ ingroups → taxon ∉ outgroups).
Proof.
  unfold parse_ingroup_and_outgroup_file.
  destruct (parse_lines lines [] []) as [i o| |] eqn:Hrun; [|done|done].
  case_bool_decide as Hboth; [done|]. intros [= <- <-].
  apply parse_lines_parsed in Hrun as (Hi & Ho & Hall).
  split; [done|]. split; [done|]. split; [done|].
  intros taxon Hin Hout. apply Hboth. apply size_intersection_pos. by exists taxon.
Qed.

Lemma parse_lines_app (before rest : list string) (ingroups outgroups : list string) :
  parse_lines (before ++ rest) ingroups outgroups =
    match parse_lines before ingroups outgroups with
    | parsed i o => parse_lines rest i o
    | outcome => outcome
    end.
Proof.
  revert ingroups outgroups.
  induction before as [|line before IH]; intros ingroups outgroups; simpl; [done|].
  case_bool_decide; [apply IH|].
  destruct (split tab (strip line) !! 0) as [s0|]; [|done].
  case_bool_decide; [by destruct (split tab (strip line) !! 1)|].
  case_bool_decide; [by destruct (split tab (strip line) !! 1)|done].
Qed.

(** X19: a line of three characters or more whose stripped text is only
    [IN] or only [OUT] makes the function raise [IndexError] at [sample[1]],
    when the loop gets as far as this line. *)
Theorem designation_without_taxon_raises (before after : list string)
    (line : string) (ingroups outgroups : list string) :
  parse_lines before [] [] = parsed ingroups outgroups →
  long_enough line → strip line = "IN" ∨ strip line = "OUT" →
  parse_ingroup_and_outgroup_file (before ++ line :: after) = sample_index_error.
Proof.
  intros Hbefore Hlong Hstrip. unfold parse_ingroup_and_outgroup_file.
  rewrite parse_lines_app, Hbefore. simpl. unfold long_enough in Hlong.
  rewrite bool_decide_eq_false_2 by lia.
  by destruct Hstrip as [-> | ->].
Qed.

End parse_ingroup_and_outgroup_file.

(** A stand-in for [str.strip] in the examples: the line feed at the end of
    the line is taken off. *)
Fixpoint strip_line_feed (s : string) : string :=
  match s with
  | EmptyString => EmptyString
  | String c s' =>
      if bool_decide (s' = EmptyString) && Ascii.eqb c (Ascii.ascii_of_nat 10)
      then EmptyString else String c (strip_line_feed s')
  end.

Definition line_feed : string := String (Ascii.ascii_of_nat 10) EmptyString.
Definition in_out_line (key taxon : string) : string :=
  key +:+ String tab taxon +:+ line_feed.

Lemma parsed_lists_are_the_designated_taxa_witness :
  let lines := [in_out_line "IN" "A"; line_feed; in_out_line "OUT" "Z";
                in_out_line "IN" "B"] in
  ["A"; "B"] = omap (designated strip_line_feed "IN") (filter long_enough lines) ∧
  ["Z"] = omap (designated strip_line_feed "OUT") (filter long_enough lines) ∧
  Forall (λ line, is_Some (designated strip_line_feed "IN" line) ∨
                  is_Some (designated strip_line_feed "OUT" line))
    (filter long_enough lines) ∧
  (∀ taxon, taxon ∈ ["A"; "B"] → taxon ∉ ["Z"]).
Proof.
  apply (parsed_lists_are_the_designated_taxa strip_line_feed
           [in_out_line "IN" "A"; line_feed; in_out_line "OUT" "Z";
            in_out_line "IN" "B"] ["A"; "B"] ["Z"]).
  vm_compute. reflexivity.
Defined.

Lemma designation_without_taxon_raises_witness :
  parse_ingroup_and_outgroup_file strip_line_feed
    ([in_out_line "IN" "A"] ++ ("OUT" +:+ line_feed) :: [in_out_line "IN" "B"]) =
    sample_index_error.
Proof.
  apply (designation_without_taxon_raises strip_line_feed
           [in_out_line "IN" "A"] [in_out_line "IN" "B"] ("OUT" +:+ line_feed)
           ["A"] []).
  - vm_compute. reflexivity.
  - unfold long_enough. vm_compute. lia.
  - right. vm_compute. reflexivity.
Defined.

(** * remove_kink at a root with two children *)

Lemma tips_length_tip (t : tree) :
  subtrees t = [] → Datatypes.length (tips t) = 1.
Proof. destruct t as [n ts]. simpl. by intros ->. Qed.

(** X20: in a well-formed tree with three tips or more whose root has two
    children, [remove_kink(root, root)] moves the root to a child that is
    not a tip: if the first child is a tip, the second is not, as the code
    takes for granted. *)
Theorem root_moves_to_a_clade_when_three_tips (h : heap) (root : nat) (c0 c1 : tree) :
  repr h None (T root [c0; c1]) →
  3 ≤ Datatypes.length (tips (T root [c0; c1])) →
  ∃ target td,
    target = (if bool_decide (subtrees c0 = []) then tid c1 else tid c0) ∧
    h !! target = Some td ∧ Node.istip td = false ∧
    move_root_away h root root = phylo3.reroot h root (Some target).
Proof.
  intros Hrepr Htips.
  inversion Hrepr as [p' n' ts' rd Hroot Hp Hcs Hl Hts]; subst.
  apply Forall_cons in Hts as [H0 Hts]. apply Forall_cons in Hts as [H1 _].
  inversion H0 as [p0 n0 ts0 nd0 Hn0 Hp0 Hcs0 Hl0 Hts0]; subst.
  inversion H1 as [p1 n1 ts1 nd1 Hn1 Hp1 Hcs1 Hl1 Hts1]; subst.
  rewrite tips_cons in Htips. simpl in Htips, Hcs.
  rewrite app_nil_r, length_app in Htips.
  assert (Htip0 : Node.istip nd0 = bool_decide (ts0 = [])).
  { unfold Node.istip. rewrite Hcs0. by destruct ts0. }
  assert (Htarget : root_move_target h rd =
                    Ok (if bool_decide (ts0 = []) then n1 else n0)).
  { unfold root_move_target. rewrite Hcs. simpl.
    rewrite (deref_Some _ _ _ Hn0). simpl. rewrite Htip0.
    by case_bool_decide. }
  exists (if bool_decide (ts0 = []) then n1 else n0),
         (if bool_decide (ts0 = []) then nd1 else nd0).
  simpl. split; [done|]. split; [by case_bool_decide|]. split.
  - case_bool_decide as Hts0'.
    + subst ts0. unfold Node.istip. rewrite Hcs1.
      destruct ts1 as [|? ?]; [|done]. simpl in Htips. lia.
    + done.
  - unfold move_root_away. rewrite bool_decide_eq_true_2 by done.
    rewrite (deref_Some _ _ _ Hroot). simpl.
    unfold Node.nchildren. rewrite Hcs. simpl. by rewrite Htarget.
Qed.

Lemma root_moves_to_a_clade_when_three_tips_witness :
  ∃ target td,
    target = (if bool_decide (subtrees (T 1 []) = []) then tid (T 2 [T 3 []; T 4 []])
              else tid (T 1 [])) ∧
    tip_and_clade !! target = Some td ∧ Node.istip td = false ∧
    move_root_away tip_and_clade 0 0 = phylo3.reroot tip_and_clade 0 (Some target).
Proof.
  apply (root_moves_to_a_clade_when_three_tips tip_and_clade 0
           (T 1 []) (T 2 [T 3 []; T 4 []])).
  - solve_repr.
  - simpl. lia.
Defined.

(** * The pruned tree is a part of the tree that was given *)

(** What a run of the pruning keeps: the invariant of the loop, the root,
    the labels, and every clade at the root that has outgroup names only
    and no name twice. *)
Lemma prune_paralogs_inv (h : heap) (t : tree) (outgroups : list string)
    (fuel : nat) :
  rerooted_homotree h t outgroups → Datatypes.length (ids t) ≤ fuel →
  ∃ h' t',
    prune_paralogs_from_rerooted_homotree fuel h (tid t) outgroups =
      Ok (h', tid t) ∧
    pruning_inv h' t' ∧ tid t' = tid t ∧ pruned_from h t h' t' ∧
    (∀ x, x ∈ subtrees t → Forall (λ i, i ∈ outgroups) (names h x) →
       NoDup (names h x) → x ∈ subtrees t').
Proof.
  intros Hvalid Hfuel.
  destruct (prune_root_level_inv h t outgroups Hvalid)
    as (h1 & t1 & Hroot & Hinv1 & Htid1 & Hlen1 & Hfrom1 & Hkeep1).
  destruct Hvalid as (Hrepr & Hnd & Hbin & _).
  pose proof (repr_ids_length h None t Hrepr Hnd) as Hlenh.
  unfold prune_paralogs_from_rerooted_homotree.
  rewrite (get_front_names_repr h None t) by done. simpl.
  case_bool_decide as Hdup.
  - exists h, t. split; [done|].
    split; [|split; [done|split; [apply pruned_from_refl|done]]].
    split; [done|]. split; [done|]. split; [done|].
    destruct t as [root [|c cs]]; simpl subtrees.
    + apply names_once_nil.
    + intros x. rewrite names_children in Hdup.
      symmetry in Hdup. apply size_name_set_NoDup in Hdup.
      clear -Hdup. induction (c :: cs) as [|l ls IH]; simpl in *; [lia|].
      apply NoDup_app in Hdup as (Hl & Hdis & Hls).
      rewrite filter_cons. case_decide as Hx; [|by apply IH].
      simpl. destruct (filter (λ l0, x ∈ l0) (map (names h) ls)) as [|l' ?] eqn:Hf;
        [simpl; lia|].
      assert (Hin : l' ∈ filter (λ l0, x ∈ l0) (map (names h) ls))
        by (rewrite Hf; apply list_elem_of_here).
      apply list_elem_of_filter in Hin as [Hx' Hl'].
      exfalso. apply (Hdis x Hx). rewrite <-(map_id (map (names h) ls)).
      apply elem_of_concat_map. eauto.
  - rewrite Hroot. simpl. rewrite <-Htid1.
    destruct (prune_loop_terminates fuel h1 t1 Hinv1)
      as (h' & t' & Hloop & Hinv' & Htid' & Hfrom' & Hkeep'); [lia|].
    exists h', t'. split; [done|]. split; [done|]. split; [congruence|].
    split; [by eapply pruned_from_trans|].
    intros x Hx Hout Hndx. apply Hkeep'; [by apply Hkeep1|].
    destruct Hfrom1 as [_ Hlabel1]. by rewrite (names_same_labels h h1 x).
Qed.

(** X21: on a rerooted homotree, pruning only takes tips away.  The tree
    that [prune_paralogs_from_rerooted_homotree] hands back is a well-formed
    tree at the same root, without a shared node and with no child or two
    at every node below the root; each of its tips is a tip of the tree
    that was given, no label of any node has changed, and so each of its
    taxon names is a name of the tree that was given. *)
Theorem pruning_only_removes_tips (h : heap) (t : tree)
    (outgroups : list string) (fuel : nat) :
  rerooted_homotree h t outgroups → Datatypes.length (ids t) ≤ fuel →
  ∃ h' t',
    prune_paralogs_from_rerooted_homotree fuel h (tid t) outgroups =
      Ok (h', tid t) ∧
    repr h' None t' ∧ tid t' = tid t ∧ NoDup (ids t') ∧
    Forall binary (subtrees t') ∧
    tips t' ⊆ tips t ∧ (∀ m, label_of h' m = label_of h m) ∧
    get_front_names h' (tid t) = Ok (names h' t') ∧ names h' t' ⊆ names h t.
Proof.
  intros Hvalid Hfuel.
  destruct (prune_paralogs_inv h t outgroups fuel Hvalid Hfuel)
    as (h' & t' & Hrun & (Hrepr' & Hnd' & Hbin' & _) & Htid' & (Htips & Hlabel) & _).
  exists h', t'. split; [done|]. split; [done|]. split; [done|]. split; [done|].
  split; [done|]. split; [done|]. split; [done|].
  pose proof (repr_ids_length h' None t' Hrepr' Hnd') as Hlen'.
  split.
  - rewrite <-Htid'. by apply (get_front_names_repr h' None t').
  - rewrite (names_same_labels h h' t') by done. by apply names_subseteq.
Qed.

Lemma pruning_only_removes_tips_witness :
  ∃ h' t',
    prune_paralogs_from_rerooted_homotree 12 nested_duplicates
      (tid nested_duplicates_tree) ["OUT"] = Ok (h', tid nested_duplicates_tree) ∧
    repr h' None t' ∧ tid t' = tid nested_duplicates_tree ∧ NoDup (ids t') ∧
    Forall binary (subtrees t') ∧
    tips t' ⊆ tips nested_duplicates_tree ∧
    (∀ m, label_of h' m = label_of nested_duplicates m) ∧
    get_front_names h' (tid nested_duplicates_tree) = Ok (names h' t') ∧
    names h' t' ⊆ names nested_duplicates nested_duplicates_tree.
Proof.
  apply (pruning_only_removes_tips nested_duplicates nested_duplicates_tree
           ["OUT"] 12).
  - split; [unfold nested_duplicates_tree; solve_repr|].
    split; [apply (bool_decide_unpack _); vm_compute; exact I|].
    split; [repeat (constructor; simpl; auto)|].
    split; [reflexivity|].
    exists [T 1 [T 2 []; T 3 [T 4 []; T 5 []]];
            T 6 [T 7 []; T 8 [T 9 []; T 10 []]]], (T 11 []), [].
    split; [reflexivity|].
    split; apply (bool_decide_unpack _); vm_compute; exact I.
  - simpl. lia.
Defined.

(** * remove_kink on a node that is no kink *)

(** X22: [remove_kink] does not look at the number of children of a node
    below the root.  On a node with several children it splices the first
    child into the place of the node and takes the node off its parent; the
    other children stay children of the node, which is no longer in the
    tree, so the clades below them are lost from the tree. *)
Theorem remove_kink_keeps_the_first_child_only (h : heap) (node curroot p c0 : nat)
    (rest : list nat) (nd cd pd : Node.t) :
  node ≠ curroot →
  h !! node = Some nd → Node.children nd = c0 :: rest → Node.parent nd = Some p →
  h !! c0 = Some cd → h !! p = Some pd → node ∈ Node.children pd →
  node ≠ p → node ≠ c0 →
  ∃ h',
    remove_kink h node curroot = Ok (h', c0, curroot) ∧
    children_of h' p = Some (remove_first node (Node.children pd) ++ [c0]) ∧
    parent_of h' c0 = Some (Some p) ∧
    parent_of h' node = Some None ∧
    children_of h' node = Some (c0 :: rest) ∧
    (∀ c, c ∈ rest → c ≠ c0 → c ≠ node → c ≠ p → h' !! c = h !! c).
Proof.
  intros Hroot Hnode Hcs Hpar Hchild Hp Hin HnP Hnc.
  unfold remove_kink. rewrite move_root_away_other by done. simpl.
  rewrite (deref_Some _ _ _ Hnode). simpl. rewrite Hcs. simpl.
  rewrite (deref_Some _ _ _ Hchild). simpl. rewrite Hpar. simpl.
  rewrite (remove_child_Ok h p node pd) by eauto. simpl.
  set (h1 := alter (Node.set_parent None) node _).
  assert (Hp1 : children_of h1 p = Some (remove_first node (Node.children pd))).
  { unfold h1. rewrite children_of_set_parent, children_of_set_children.
    by rewrite Hp. }
  apply children_of_inv in Hp1 as (pd1 & Hp1 & Hcs1).
  rewrite (add_child_Ok h1 p c0 pd1); [|done|].
  2:{ unfold h1. rewrite !is_Some_alter. eauto. }
  simpl. rewrite Hcs1.
  rewrite modify_is_Some by (unfold h1; rewrite !is_Some_alter; eauto).
  eexists. split; [done|]. split; [|split; [|split; [|split]]].
  - rewrite children_of_set_length, children_of_set_parent, children_of_set_children.
    apply fmap_const_is_Some. unfold h1. rewrite !is_Some_alter. eauto.
  - rewrite parent_of_set_length, parent_of_set_parent.
    apply fmap_const_is_Some. unfold h1. rewrite !is_Some_alter. eauto.
  - rewrite parent_of_set_length, (parent_of_set_parent_ne _ c0 node) by done.
    rewrite parent_of_set_children. unfold h1. rewrite parent_of_set_parent.
    apply fmap_const_is_Some. rewrite !is_Some_alter. eauto.
  - rewrite children_of_set_length, children_of_set_parent.
    rewrite (children_of_set_children_ne _ p node) by done.
    unfold h1. rewrite children_of_set_parent.
    rewrite (children_of_set_children_ne _ p node) by done.
    unfold children_of. rewrite Hnode. simpl. by rewrite Hcs.
  - intros c Hc Hc0 Hcn Hcp. unfold h1. by rewrite !list_lookup_alter_ne.
Qed.

(** [((A.1,B.1,C.1):1.0,D.1,E.1);]: node 1 has three children. *)
Definition polytomy_below_root : heap :=
  [ Node.mk None 0%float [1; 5; 6] None;
    Node.mk None 1%float [2; 3; 4] (Some 0);
    Node.mk (Some "A.1") 0.5%float [] (Some 1);
    Node.mk (Some "B.1") 0.5%float [] (Some 1);
    Node.mk (Some "C.1") 0.5%float [] (Some 1);
    Node.mk (Some "D.1") 0.5%float [] (Some 0);
    Node.mk (Some "E.1") 0.5%float [] (Some 0) ].

Lemma remove_kink_keeps_the_first_child_only_witness :
  ∃ h',
    remove_kink polytomy_below_root 1 0 = Ok (h', 2, 0) ∧
    children_of h' 0 = Some (remove_first 1 [1; 5; 6] ++ [2]) ∧
    parent_of h' 2 = Some (Some 0) ∧
    parent_of h' 1 = Some None ∧
    children_of h' 1 = Some (2 :: [3; 4]) ∧
    (∀ c, c ∈ [3; 4] → c ≠ 2 → c ≠ 1 → c ≠ 0 →
       h' !! c = polytomy_below_root !! c).
Proof.
  apply (remove_kink_keeps_the_first_child_only polytomy_below_root 1 0 0 2 [3; 4]
           (Node.mk None 1%float [2; 3; 4] (Some 0))
           (Node.mk (Some "A.1") 0.5%float [] (Some 1))
           (Node.mk None 0%float [1; 5; 6] None));
    try reflexivity; try discriminate.
  apply list_elem_of_here.
Defined.

Example polytomy_loses_tips :
  get_front_names polytomy_below_root 0 = Ok ["A"; "B"; "C"; "D"; "E"] ∧
  (remove_kink polytomy_below_root 1 0 ≫= λ '(h', _, root), get_front_names h' root)
    = Ok ["D"; "E"; "A"].
Proof. split; vm_compute; reflexivity. Qed.

(** X23: [remove_kink] on a node without a parent raises [AttributeError]
    at [par.remove_child], unless the node is the current root and has
    exactly two children (the case that is handled by moving the root
    first); nothing has been written by then.  A root with one child, or
    with three or more, cannot be handed to [remove_kink]. *)
Theorem remove_kink_without_parent_raises (h : heap) (node curroot child : nat)
    (cs : list nat) (nd : Node.t) :
  h !! node = Some nd → Node.parent nd = None →
  Node.children nd = child :: cs → is_Some (h !! child) →
  node ≠ curroot ∨ Node.nchildren nd ≠ 2 →
  remove_kink h node curroot = Raise AttributeError.
Proof.
  intros Hnode Hpar Hcs [cd Hchild] Hcase. unfold remove_kink.
  assert (Hskip : move_root_away h node curroot = Ok (h, curroot)).
  { unfold move_root_away. case_bool_decide as Heq; [|done]. subst curroot.
    rewrite (deref_Some _ _ _ Hnode). simpl.
    destruct Hcase as [?|Hn]; [done|]. by rewrite bool_decide_eq_false_2. }
  rewrite Hskip. simpl. rewrite (deref_Some _ _ _ Hnode). simpl.
  rewrite Hcs. simpl. rewrite (deref_Some _ _ _ Hchild). simpl.
  by rewrite Hpar.
Qed.

(** [(A.1,B.1,C.1);] *)
Definition three_tips : heap :=
  [ Node.mk None 0%float [1; 2; 3] None;
    Node.mk (Some "A.1") 0.5%float [] (Some 0);
    Node.mk (Some "B.1") 0.5%float [] (Some 0);
    Node.mk (Some "C.1") 0.5%float [] (Some 0) ].

Lemma remove_kink_without_parent_raises_witness :
  remove_kink three_tips 0 0 = Raise AttributeError.
Proof.
  apply (remove_kink_without_parent_raises three_tips 0 0 1 [2; 3]
           (Node.mk None 0%float [1; 2; 3] None)).
  - reflexivity.
  - reflexivity.
  - reflexivity.
  - by eexists.
  - right. unfold Node.nchildren. simpl. lia.
Defined.

(** * The labels behind a node *)

Lemma NoDup_map_inj_on {A B} (f : A → B) (l : list A) (x y : A) :
  NoDup (map f l) → x ∈ l → y ∈ l → f x = f y → x = y.
Proof.
  induction l as [|a l IH]; simpl; [by intros _ ?%elem_of_nil|].
  intros [Ha Hnd]%NoDup_cons [->|Hx]%elem_of_cons [->|Hy]%elem_of_cons Heq.
  - done.
  - exfalso. apply Ha. rewrite Heq. by apply (list_elem_of_fmap_2 f).
  - exfalso. apply Ha. rewrite <-Heq. by apply (list_elem_of_fmap_2 f).
  - by apply IH.
Qed.

(** X24: in a well-formed tree, every label that [get_back_labels] gives
    for a node is the label of a tip that is not below the node; and if no
    two tips of the tree have the same label ("labels do not repeat"), the
    label of every tip that is not below the node is given.  A label that a
    tip below the node shares with a tip behind it is not given. *)
Theorem back_labels_are_the_labels_behind_the_node (h : heap) (t s : tree) :
  repr h None t → NoDup (ids t) → subtree s t →
  ∃ back, get_back_labels h (tid s) (tid t) = Ok back ∧
    (∀ label, label ∈ back →
       ∃ tip, tip ∈ tips t ∧ (tip ∉ tips s) ∧ label_at h tip = label) ∧
    (∀ tip tip', tip ∈ tips s → tip' ∈ tips t →
       label_at h tip = label_at h tip' → label_at h tip' ∉ back) ∧
    (NoDup (map (label_at h) (tips t)) →
       ∀ tip, tip ∈ tips t → tip ∉ tips s → label_at h tip ∈ back).
Proof.
  intros Hrepr Hnd Hsub.
  pose proof (repr_ids_length _ _ _ Hrepr Hnd) as Hlen.
  destruct (repr_subtree _ _ _ _ Hsub Hrepr) as (q & Hs & _).
  pose proof (subtree_ids_length _ _ Hsub) as Hls.
  unfold get_back_labels.
  rewrite (get_front_labels_repr _ _ _ Hrepr) by done.
  rewrite (get_front_labels_repr _ _ _ Hs) by lia. simpl.
  eexists. split; [done|]. split; [|split].
  - intros label [Hall Hfront]%elem_of_difference.
    apply elem_of_list_to_set, list_elem_of_fmap in Hall as (tip & -> & Htip).
    exists tip. split; [done|]. split; [|done].
    intros Hin. apply Hfront. apply elem_of_list_to_set.
    by apply (list_elem_of_fmap_2 (label_at h)).
  - intros tip tip' Htip Htip' Heq [_ Hfront]%elem_of_difference.
    apply Hfront. apply elem_of_list_to_set. rewrite <-Heq.
    by apply (list_elem_of_fmap_2 (label_at h)).
  - intros Hlabels tip Htip Hout. apply elem_of_difference. split.
    + apply elem_of_list_to_set. by apply (list_elem_of_fmap_2 (label_at h)).
    + intros Hfront.
      apply elem_of_list_to_set, list_elem_of_fmap in Hfront as (tip' & Heq & Htip').
      assert (tip = tip'); [|by subst].
      apply (NoDup_map_inj_on (label_at h) (tips t)); try done.
      by apply (subtree_tips s t).
Qed.

Lemma back_labels_are_the_labels_behind_the_node_witness :
  let h := nested_duplicates in
  let t := nested_duplicates_tree in
  let s := T 3 [T 4 []; T 5 []] in
  ∃ back, get_back_labels h (tid s) (tid t) = Ok back ∧
    (∀ label, label ∈ back →
       ∃ tip, tip ∈ tips t ∧ (tip ∉ tips s) ∧ label_at h tip = label) ∧
    (∀ tip tip', tip ∈ tips s → tip' ∈ tips t →
       label_at h tip = label_at h tip' → label_at h tip' ∉ back) ∧
    (NoDup (map (label_at h) (tips t)) →
       ∀ tip, tip ∈ tips t → tip ∉ tips s → label_at h tip ∈ back).
Proof.
  apply (back_labels_are_the_labels_behind_the_node nested_duplicates
           nested_duplicates_tree (T 3 [T 4 []; T 5 []])).
  - unfold nested_duplicates_tree. solve_repr.
  - apply (bool_decide_unpack _). vm_compute. exact I.
  - unfold nested_duplicates_tree.
    eapply subtree_child; [apply list_elem_of_here|].
    eapply subtree_child; [apply list_elem_of_further, list_elem_of_here|].
    constructor.
Defined.

(** * The outgroup clade is kept *)

(** X25: pruning never touches an outgroup clade without a duplicate.  On a
    rerooted homotree, a clade at the root whose names are all outgroup
    names, none of them twice, is a child of the root of the tree that
    [prune_paralogs_from_rerooted_homotree] hands back, with every node of
    it as it was: its front names are read as before, and each of them is a
    front name of the pruned tree. *)
Theorem outgroup_clade_is_kept_whole (h : heap) (t x : tree)
    (outgroups : list string) (fuel : nat) :
  rerooted_homotree h t outgroups → Datatypes.length (ids t) ≤ fuel →
  x ∈ subtrees t → Forall (λ i, i ∈ outgroups) (names h x) →
  NoDup (names h x) →
  ∃ h' cs names',
    prune_paralogs_from_rerooted_homotree fuel h (tid t) outgroups =
      Ok (h', tid t) ∧
    children_of h' (tid t) = Some cs ∧ tid x ∈ cs ∧
    repr h' (Some (tid t)) x ∧
    get_front_names h' (tid x) = Ok (names h x) ∧
    get_front_names h' (tid t) = Ok names' ∧ names h x ⊆ names'.
Proof.
  intros Hvalid Hfuel Hx Hout Hndx.
  destruct (prune_paralogs_inv h t outgroups fuel Hvalid Hfuel)
    as (h' & t' & Hrun & (Hrepr' & Hnd' & _) & Htid' & (_ & Hlabel) & Hkeep).
  specialize (Hkeep x Hx Hout Hndx).
  pose proof (repr_ids_length h' None t' Hrepr' Hnd') as Hlen'.
  rewrite <-Htid' in *.
  destruct t' as [root ts']. simpl in Hkeep. simpl tid in *.
  exists h', (map tid ts'), (names h' (T root ts')).
  split; [done|].
  destruct (child_front_names h' None root ts' x Hrepr' Hnd' Hkeep) as [Hfront _].
  pose proof (get_front_names_repr h' None _ Hrepr' Hlen') as Hall.
  apply repr_cell_inv in Hrepr' as (Hcs & _ & _ & Hts).
  rewrite Forall_forall in Hts.
  split; [done|]. split; [by apply list_elem_of_fmap_2|].
  split; [by apply Hts|].
  rewrite <-(names_same_labels h h' x) by done.
  split; [done|]. split; [done|].
  apply names_subseteq.
  intros m Hm. eapply elem_of_sublist; [exact Hm|].
  apply subtree_tips_sublist. by eapply subtree_child, subtree_refl.
Qed.

Lemma outgroup_clade_is_kept_whole_witness :
  ∃ h' cs names',
    prune_paralogs_from_rerooted_homotree 12 nested_duplicates
      (tid nested_duplicates_tree) ["OUT"] = Ok (h', tid nested_duplicates_tree) ∧
    children_of h' (tid nested_duplicates_tree) = Some cs ∧ tid (T 11 []) ∈ cs ∧
    repr h' (Some (tid nested_duplicates_tree)) (T 11 []) ∧
    get_front_names h' (tid (T 11 [])) = Ok (names nested_duplicates (T 11 [])) ∧
    get_front_names h' (tid nested_duplicates_tree) = Ok names' ∧
    names nested_duplicates (T 11 []) ⊆ names'.
Proof.
  apply (outgroup_clade_is_kept_whole nested_duplicates nested_duplicates_tree
           (T 11 []) ["OUT"] 12).
  - split; [unfold nested_duplicates_tree; solve_repr|].
    split; [apply (bool_decide_unpack _); vm_compute; exact I|].
    split; [repeat (constructor; simpl; auto)|].
    split; [reflexivity|].
    exists [T 1 [T 2 []; T 3 [T 4 []; T 5 []]];
            T 6 [T 7 []; T 8 [T 9 []; T 10 []]]], (T 11 []), [].
    split; [reflexivity|].
    split; apply (bool_decide_unpack _); vm_compute; exact I.
  - simpl. lia.
  - simpl. do 2 apply list_elem_of_further. apply list_elem_of_here.
  - apply (bool_decide_unpack _); vm_compute; exact I.
  - apply (bool_decide_unpack _); vm_compute; exact I.
Defined.

(** ** The loop of the pruning ends *)

(** C8: on every rerooted homotree (three clades at the root, every node
    below the root with no child or two) the check at the root hands the
    [while] loop of [prune_paralogs_from_rerooted_homotree] a tree [t1] of
    the invariant of the loop.  On every tree of the invariant with a name
    twice, the scan in pre-order finds an intersecting sibling pair, cuts
    one of the two clades, removes the kink and breaks, leaving a tree of
    the invariant with fewer nodes.  So the loop is left after at most as
    many passes as the tree has nodes, and when it is left no name is twice
    among the tips. *)
Theorem pruning_loop_terminates (h : heap) (t : tree) (outgroups : list string)
    (fuel : nat) :
  rerooted_homotree h t outgroups → Datatypes.length (ids t) ≤ fuel →
  ∃ h1 t1,
    prune_root_level h (tid t) outgroups = Ok h1 ∧
    pruning_inv h1 t1 ∧ tid t1 = tid t ∧
    Datatypes.length (ids t1) ≤ Datatypes.length (ids t) ∧
    (∀ h2 t2, pruning_inv h2 t2 → has_duplicates (names h2 t2) = true →
       ∃ h3 t3, prune_scan h2 (tid t2) (ids t2) = Ok (Some (h3, tid t2)) ∧
         pruning_inv h3 t3 ∧ tid t3 = tid t2 ∧
         Datatypes.length (ids t3) < Datatypes.length (ids t2)) ∧
    ∃ h' t', prune_loop fuel h1 (tid t) = Ok (h', tid t) ∧
      pruning_inv h' t' ∧ tid t' = tid t ∧
      get_front_names h' (tid t) = Ok (names h' t') ∧
      has_duplicates (names h' t') = false.
Proof.
  intros Hvalid Hfuel.
  destruct (prune_root_level_inv h t outgroups Hvalid)
    as (h1 & t1 & Hroot & Hinv & Htid & Hlen & _).
  exists h1, t1. split; [done|]. split; [done|]. split; [done|]. split; [done|].
  split.
  - intros h2 t2 Hinv2 Hdup.
    destruct (prune_scan_inv h2 t2 (ids t2) Hinv2) as [[_ Hall]|Hsome]; [done| |].
    + assert (Hno : has_duplicates (names h2 t2) = false).
      { apply has_duplicates_false, inv_clean_NoDup; [done|]. auto. }
      congruence.
    + destruct Hsome as (h3 & t3 & Hscan & Hinv3 & Htid3 & Hless & _).
      by exists h3, t3.
  - destruct (prune_loop_terminates fuel h1 t1 Hinv)
      as (h' & t' & Hloop & Hinv' & Htid' & _); [lia|].
    rewrite Htid in Hloop, Htid'.
    exists h', t'. split; [done|]. split; [done|]. split; [done|].
    destruct Hinv' as (Hrepr' & Hnd' & _).
    pose proof (repr_ids_length h' None t' Hrepr' Hnd') as Hlen'.
    pose proof (get_front_names_repr h' None t' Hrepr' Hlen') as Hnames.
    rewrite Htid' in Hnames. split; [done|].
    apply prune_loop_Ok in Hloop as (_ & names' & Hn & Hnodup).
    rewrite Hnames in Hn. injection Hn as <-.
    by apply has_duplicates_false.
Qed.

(** Decides [names_once] on concrete lists. *)
Lemma names_once_cons_check (l : list string) (ls : list (list string)) :
  names_once ls → Forall (λ x, Forall (λ l', x ∉ l') ls) l → names_once (l :: ls).
Proof.
  intros Honce Hall. apply names_once_cons; [done|].
  intros x l' Hx Hl'. rewrite Forall_forall in Hall.
  specialize (Hall x Hx). rewrite Forall_forall in Hall. by apply Hall.
Qed.

Lemma nested_duplicates_homotree :
  rerooted_homotree nested_duplicates nested_duplicates_tree ["OUT"] ∧
  pruning_inv nested_duplicates nested_duplicates_tree.
Proof.
  assert (Hrepr : repr nested_duplicates None nested_duplicates_tree)
    by (unfold nested_duplicates_tree; solve_repr).
  assert (Hnd : NoDup (ids nested_duplicates_tree))
    by (apply (bool_decide_unpack _); vm_compute; exact I).
  assert (Hbin : Forall binary (subtrees nested_duplicates_tree))
    by (repeat (constructor; simpl; auto)).
  split.
  - split; [done|]. split; [done|]. split; [done|]. split; [reflexivity|].
    exists [T 1 [T 2 []; T 3 [T 4 []; T 5 []]];
            T 6 [T 7 []; T 8 [T 9 []; T 10 []]]], (T 11 []), [].
    split; [reflexivity|].
    split; apply (bool_decide_unpack _); vm_compute; exact I.
  - split; [done|]. split; [done|]. split; [done|].
    assert (Hnames : map (names nested_duplicates) (subtrees nested_duplicates_tree) =
                     [["A"; "B"; "B"]; ["C"; "C"; "D"]; ["OUT"]])
      by (vm_compute; reflexivity).
    rewrite Hnames.
    repeat (apply names_once_cons_check;
            [|apply (bool_decide_unpack _); vm_compute; exact I]).
    apply names_once_nil.
Qed.

Lemma pruning_loop_terminates_witness :
  rerooted_homotree nested_duplicates nested_duplicates_tree ["OUT"] ∧
  (∃ h1 h' t',
     prune_root_level nested_duplicates 0 ["OUT"] = Ok h1 ∧
     prune_loop 12 h1 0 = Ok (h', 0) ∧
     get_front_names h' 0 = Ok (names h' t') ∧
     has_duplicates (names h' t') = false) ∧
  (pruning_inv nested_duplicates nested_duplicates_tree ∧
   has_duplicates (names nested_duplicates nested_duplicates_tree) = true ∧
   ∃ h3 t3, prune_scan nested_duplicates 0 (ids nested_duplicates_tree) =
              Ok (Some (h3, 0)) ∧
     pruning_inv h3 t3 ∧
     Datatypes.length (ids t3) < Datatypes.length (ids nested_duplicates_tree)).
Proof.
  destruct nested_duplicates_homotree as [Hvalid Hinv].
  assert (Hlen : Datatypes.length (ids nested_duplicates_tree) ≤ 12)
    by (vm_compute; lia).
  assert (Hdup : has_duplicates (names nested_duplicates nested_duplicates_tree) = true)
    by (vm_compute; reflexivity).
  destruct (pruning_loop_terminates nested_duplicates nested_duplicates_tree
              ["OUT"] 12 Hvalid Hlen)
    as (h1 & t1 & Hroot & _ & _ & _ & Hpass & h' & t' & Hloop & _ & _ & Hnames & Hno).
  split; [exact Hvalid|]. split.
  - exists h1, h', t'. split; [exact Hroot|]. split; [exact Hloop|].
    split; [exact Hnames|exact Hno].
  - split; [exact Hinv|]. split; [exact Hdup|].
    destruct (Hpass nested_duplicates nested_duplicates_tree Hinv Hdup)
      as (h3 & t3 & Hscan & Hinv3 & _ & Hless).
    exists h3, t3. split; [exact Hscan|]. split; [exact Hinv3|exact Hless].
Defined.

(** ** What [prune_paralogs_mo.main] writes *)

(** A file that [main] writes for one tree file: the copy of the tree file
    (line 553), the re-rooted tree (lines 590-591) and the pruned tree
    (lines 602-603).  The last two are written from [newick3.tostring] of a
    node, and hold the heap at the time of the call and the node. *)
Inductive mo_file : Type :=
  | file_1to1ortho_tre
  | file_reroot (h : heap) (curroot : nat)
  | file_ortho_tre (h : heap) (ortho : nat).

(** Lines 519-612, the body of the loop over the tree files, with the
    files it writes: the files that are written when the body is left, and
    the report dictionary the tree is put into or the exception that ends
    the run.  A file that was written before an exception stays written. *)
Definition mo_tree_files (fuel : nat) (h : heap) (intree : nat)
    (ingroups outgroups : list string) (minimum_taxa : nat)
    (ignore_1to1_orthologs : bool) : list mo_file * result mo_outcome :=
  let curroot := intree in
  match get_front_names h curroot with
  | Raise e => ([], Raise e)
  | Ok names =>
      let num_tips := Datatypes.length names in
      let num_taxa := size (name_set names) in
      let unrecognised :=
        filter (λ name, (name ∉ ingroups) ∧ (name ∉ outgroups)) names in
      if bool_decide (unrecognised ≠ []) then
        ([], Ok (unrecognised_taxon_names unrecognised))
      else if bool_decide (num_taxa < minimum_taxa) then
        ([], Ok fewer_than_minimum_taxa)
      else if bool_decide (num_tips = num_taxa) then
        (if ignore_1to1_orthologs then [] else [file_1to1ortho_tre],
         Ok (one_to_one_orthologs (negb ignore_1to1_orthologs)))
      else
        match get_front_outgroup_names h curroot outgroups with
        | Raise e => ([], Raise e)
        | Ok outgroup_names =>
            if bool_decide (Datatypes.length outgroup_names = 0) then
              ([], Ok no_outgroup_taxa)
            else if bool_decide (size (name_set outgroup_names)
                                   < Datatypes.length outgroup_names) then
              ([], Ok duplicate_taxa_in_outgroup)
            else
              match mo_reroot h curroot outgroups with
              | Raise e => ([], Raise e)
              | Ok None => ([], Ok non_monophyletic_outgroups)
              | Ok (Some (h, curroot)) =>
                  (* Write re-rooted trees with monophyletic outgroup to file *)
                  let reroot := file_reroot h curroot in
                  match mo_prune_and_filter fuel h curroot outgroups minimum_taxa with
                  | Ok (mo_output_file_above_minimum_taxa h' ortho) =>
                      ([reroot; file_ortho_tre h' ortho],
                       Ok (mo_output_file_above_minimum_taxa h' ortho))
                  | r => ([reroot], r)
                  end
              end
        end
  end.

(** The dictionary is the one [mo_tree] gives. *)
Lemma mo_tree_files_outcome (fuel : nat) (h : heap) (intree : nat)
    (ingroups outgroups : list string) (minimum_taxa : nat)
    (ignore_1to1_orthologs : bool) :
  (mo_tree_files fuel h intree ingroups outgroups minimum_taxa
     ignore_1to1_orthologs).2 =
  mo_tree fuel h intree ingroups outgroups minimum_taxa ignore_1to1_orthologs.
Proof.
  unfold mo_tree_files, mo_tree.
  destruct (get_front_names h intree) as [names|e]; simpl; [|done].
  repeat (case_bool_decide; simpl; [done|]).
  destruct (get_front_outgroup_names h intree outgroups) as [og|e]; simpl; [|done].
  repeat (case_bool_decide; simpl; [done|]).
  destruct (mo_reroot h intree outgroups) as [[[h1 curroot]|]|e]; simpl; [|done|done].
  destruct (mo_prune_and_filter fuel h1 curroot outgroups minimum_taxa)
    as [[]|e]; done.
Qed.



(** With a minimum of four taxa the re-rooted tree, in which [A] is the
    name of two tips, is the only file written. *)
Example reroot_file_with_a_duplicated_name :
  mo_tree_files 10 two_ingroup_clades 0 ["A"; "B"; "C"] ["OUT"] 4 false =
    ([file_reroot two_ingroup_clades 0],
     Ok (mo_output_file_below_minimum_taxa two_ingroup_clades_pruned 0)) ∧
  get_front_names two_ingroup_clades 0 = Ok ["A"; "B"; "A"; "C"; "OUT"].
Proof. split; vm_compute; reflexivity. Qed.

(** ** The rooting point, from the tips of the tree *)

(** The trees below a tree and the tree itself, in pre-order. *)
Fixpoint clades (t : tree) : list tree :=
  match t with T n ts => T n ts :: concat (map clades ts) end.

(** The tips of [t] that are not below [s]: the back of [s]. *)
Definition back_tips (t s : tree) : list nat :=
  filter (λ n, n ∉ tips s) (tips t).

(** The node of [s] qualifies as the new rooting point: the names of the
    tips below it are purely outgroup and non-empty while the names of all
    other tips of the tree are purely ingroup and non-empty, or the other
    way round. *)
Definition rooting_point (h : heap) (t : tree) (outgroups : list string) (s : tree)
    : Prop :=
  sides_qualify outgroups (names h s) (map (name_at h) (back_tips t s)).

#[local] Instance sides_qualify_dec og f b : Decision (sides_qualify og f b).
Proof. unfold sides_qualify, purely_outgroup, purely_ingroup. apply _. Defined.
#[local] Instance rooting_point_dec h t og s : Decision (rooting_point h t og s).
Proof. unfold rooting_point. apply _. Defined.

(** What the spec says of a tree with two or more outgroup tips: the tree
    is re-rooted at the parent of the first node in traversal order, other
    than the root, that qualifies, and [None] is handed back if there is
    none. *)
Definition first_rooting_point_is_taken (h : heap) (t : tree)
    (outgroups : list string) : Prop :=
  (Forall (λ s, tid s = tid t ∨ ¬ rooting_point h t outgroups s) (clades t) ∧
   reroot_with_monophyletic_outgroups h (tid t) outgroups = Ok None) ∨
  (∃ before s after p,
     clades t = before ++ s :: after ∧
     Forall (λ s', tid s' = tid t ∨ ¬ rooting_point h t outgroups s') before ∧
     tid s ≠ tid t ∧ rooting_point h t outgroups s ∧
     parent_of h (tid s) = Some (Some p) ∧
     reroot_with_monophyletic_outgroups h (tid t) outgroups =
       Some <$> phylo3.reroot h (tid t) (Some p)).

Lemma clades_ids (t : tree) : map tid (clades t) = ids t.
Proof.
  induction t as [n ts IH] using tree_ind'. simpl. f_equal.
  induction IH as [|c cs Hc _ IHcs]; simpl; [done|].
  by rewrite map_app, Hc, IHcs.
Qed.

Lemma clades_subtree (t s : tree) : s ∈ clades t → subtree s t.
Proof.
  induction t as [n ts IH] using tree_ind'. simpl.
  intros [->|Hin]%elem_of_cons; [constructor|].
  apply elem_of_concat_map in Hin as (c & Hc & Hs).
  rewrite Forall_forall in IH. eapply subtree_child; [done|]. by apply IH.
Qed.

Lemma mapM_result_perm {A B} (f : A → result B) (l l' : list A) (r : list B) :
  l ≡ₚ l' → mapM_result f l = Ok r →
  ∃ r', mapM_result f l' = Ok r' ∧ r ≡ₚ r'.
Proof.
  intros Hp. revert r.
  induction Hp as [|x l l' Hp IH|x y l|l l' l'' Hp IH Hp' IH']; intros r Hr; simpl in *.
  - injection Hr as <-. eauto.
  - apply bind_Ok in Hr as (y & Hy & Hr). apply bind_Ok in Hr as (ys & Hys & Hr).
    injection Hr as <-. destruct (IH _ Hys) as (r' & Hr' & Hperm).
    rewrite Hy, Hr'. simpl. eexists. split; [done|]. by constructor.
  - apply bind_Ok in Hr as (b & Hb & Hr). apply bind_Ok in Hr as (bs & Hbs & Hr).
    apply bind_Ok in Hbs as (a & Ha & Hbs). apply bind_Ok in Hbs as (as' & Has & Hbs).
    injection Hbs as <-. injection Hr as <-.
    rewrite Ha, Hb, Has. simpl. eexists. split; [done|]. apply Permutation_swap.
  - destruct (IH _ Hr) as (r' & Hr' & Hperm).
    destruct (IH' _ Hr') as (r'' & Hr'' & Hperm').
    exists r''. split; [done|]. by etrans.
Qed.

Lemma sides_qualify_perm (outgroups front back back' : list string) :
  back ≡ₚ back' →
  sides_qualify outgroups front back ↔ sides_qualify outgroups front back'.
Proof.
  assert (H : ∀ (P : string → Prop) b b', b ≡ₚ b' →
            b ≠ [] ∧ Forall P b → b' ≠ [] ∧ Forall P b').
  { intros P b b' Hp [Hne Hall]. split.
    - intros ->. by apply Permutation_nil_r in Hp.
    - rewrite Forall_forall in *. intros x Hx. apply Hall. by rewrite Hp. }
  intros Hp. unfold sides_qualify, purely_outgroup, purely_ingroup.
  split; intros [[Hf Hb]|[Hf Hb]]; [left|right|left|right]; (split; [done|]);
    revert Hb; by apply H.
Qed.

(** With labels that do not repeat, the names [get_back_names] gives are
    the names of the tips that are not below the node, in some order. *)
Lemma get_back_names_back_tips (h : heap) (t s : tree) :
  repr h None t → NoDup (ids t) → NoDup (map (label_at h) (tips t)) →
  subtree s t →
  ∃ back, get_back_names h (tid s) (tid t) = Ok back ∧
    back ≡ₚ map (name_at h) (back_tips t s).
Proof.
  intros Hrepr Hnd Hlabels Hsub.
  pose proof (repr_ids_length _ _ _ Hrepr Hnd) as Hlen.
  destruct (repr_subtree _ _ _ _ Hsub Hrepr) as (q & Hs & _).
  pose proof (subtree_ids_length _ _ Hsub) as Hls.
  unfold get_back_names, get_back_labels.
  rewrite (get_front_labels_repr _ _ _ Hrepr) by done.
  rewrite (get_front_labels_repr _ _ _ Hs) by lia. simpl.
  assert (Hback : mapM_result get_name (map (label_at h) (back_tips t s)) =
            Ok (map (name_at h) (back_tips t s))).
  { apply mapM_result_map_Ok. apply Forall_forall. intros n Hn.
    apply list_elem_of_filter in Hn as [_ Hn].
    destruct (repr_tips_labelled _ _ _ Hrepr n Hn) as (nd & l & Hnode & Hl).
    unfold name_at, label_at. rewrite Hnode. simpl. by rewrite Hl. }
  assert (Hperm : map (label_at h) (back_tips t s) ≡ₚ
            elements (list_to_set (map (label_at h) (tips t))
                        ∖ list_to_set (map (label_at h) (tips s))
                      : gset (option string))).
  { apply NoDup_Permutation.
    - eapply sublist_NoDup; [exact Hlabels|].
      change (sublist (label_at h <$> back_tips t s) (label_at h <$> tips t)).
      apply fmap_sublist, sublist_filter.
    - apply NoDup_elements.
    - intros x. rewrite elem_of_elements, elem_of_difference, !elem_of_list_to_set.
      split.
      + intros (tip & -> & [Hout Htip]%list_elem_of_filter)%list_elem_of_fmap.
        split; [by apply (list_elem_of_fmap_2 (label_at h))|].
        intros (tip' & Heq & Htip')%list_elem_of_fmap.
        assert (tip = tip'); [|by subst].
        apply (NoDup_map_inj_on (label_at h) (tips t)); try done.
        by apply (subtree_tips s t).
      + intros [(tip & -> & Htip)%list_elem_of_fmap Hfront].
        apply (list_elem_of_fmap_2 (label_at h)), list_elem_of_filter.
        split; [|done]. intros Hin. apply Hfront.
        by apply (list_elem_of_fmap_2 (label_at h)). }
  destruct (mapM_result_perm _ _ _ _ Hperm Hback) as (back & Hrun & Hp).
  exists back. split; [done|]. by symmetry.
Qed.

(** With labels that do not repeat, the test of the code on the counters
    of the front and back names is the test on the tips of the tree. *)
Lemma qualifies_rooting_point (h : heap) (t s : tree) (outgroups : list string) :
  repr h None t → NoDup (ids t) → NoDup (map (label_at h) (tips t)) →
  subtree s t →
  qualifies h (tid t) outgroups (tid s) ↔ rooting_point h t outgroups s.
Proof.
  intros Hrepr Hnd Hlabels Hsub.
  pose proof (repr_ids_length _ _ _ Hrepr Hnd) as Hlen.
  destruct (repr_subtree _ _ _ _ Hsub Hrepr) as (q & Hs & _).
  pose proof (subtree_ids_length _ _ Hsub) as Hls.
  destruct (get_back_names_back_tips h t s Hrepr Hnd Hlabels Hsub)
    as (back & Hback & Hperm).
  rewrite (qualifies_iff h (tid t) outgroups (tid s) (names h s) back);
    [|apply (get_front_names_repr _ _ _ Hs); lia|done].
  unfold rooting_point. by apply sides_qualify_perm.
Qed.

(** C3 (amended): on every well-formed tree whose tip labels do not repeat
    and which has two or more outgroup tips,
    [reroot_with_monophyletic_outgroups] re-roots at the parent of the first
    node in pre-order, other than the root, for which the names of the tips
    below it are purely outgroup and non-empty while the names of all other
    tips of the tree are purely ingroup and non-empty, or the other way
    round; if the tree has no such node, it returns [None]. *)
Theorem reroot_at_first_rooting_point (h : heap) (t : tree)
    (outgroups : list string) :
  repr h None t → NoDup (ids t) → NoDup (map (label_at h) (tips t)) →
  2 ≤ Datatypes.length (filter (λ i, i ∈ outgroups) (names h t)) →
  first_rooting_point_is_taken h t outgroups.
Proof.
  intros Hrepr Hnd Hlabels Hout.
  assert (Hbridge : ∀ l, l ⊆ clades t →
            Forall (λ m, m = tid t ∨ ¬ qualifies h (tid t) outgroups m) (map tid l) →
            Forall (λ s, tid s = tid t ∨ ¬ rooting_point h t outgroups s) l).
  { intros l Hl Hall. rewrite Forall_forall in Hall. apply Forall_forall.
    intros s Hs. destruct (Hall (tid s)) as [?|Hq]; [by apply (list_elem_of_fmap_2 tid)|by left|].
    right. rewrite <-(qualifies_rooting_point h t s); try done.
    by apply clades_subtree, Hl. }
  destruct (find_newroot_first_qualifying h t outgroups Hrepr Hnd Hout)
    as [[Hall Hrun]|(before & node & after & p & Hids & Hall & Hne & Hq & Hp & Hrun)].
  - left. split; [|done]. apply Hbridge; [done|]. by rewrite clades_ids.
  - right. rewrite <-clades_ids in Hids.
    apply fmap_app_inv in Hids as (before' & rest & -> & Hrest & Hcl).
    symmetry in Hrest.
    apply fmap_cons_inv in Hrest as (s & after' & -> & -> & ->).
    exists before', s, after', p.
    split; [done|]. split.
    { apply Hbridge; [|done]. rewrite Hcl. intros x Hx. apply elem_of_app. by left. }
    split; [done|]. split; [|done].
    rewrite <-(qualifies_rooting_point h t s); try done.
    apply clades_subtree. rewrite Hcl. apply elem_of_app. right. apply list_elem_of_here.
Qed.

Lemma reroot_at_first_rooting_point_witness :
  first_rooting_point_is_taken monophyletic_outgroup monophyletic_outgroup_tree
    ["OUT1"; "OUT2"].
Proof.
  apply (reroot_at_first_rooting_point monophyletic_outgroup
           monophyletic_outgroup_tree ["OUT1"; "OUT2"]).
  - unfold monophyletic_outgroup_tree. solve_repr.
  - apply (bool_decide_unpack _). vm_compute. exact I.
  - apply (bool_decide_unpack _). vm_compute. exact I.
  - vm_compute. lia.
Defined.

(** In [monophyletic_outgroup] the clade of the two outgroup tips, node 3,
    is the only rooting point; its parent is the root already. *)
Example monophyletic_outgroup_rooting_point :
  filter (λ s, bool_decide (tid s ≠ 0 ∧
                 rooting_point monophyletic_outgroup monophyletic_outgroup_tree
                   ["OUT1"; "OUT2"] s))
    (clades monophyletic_outgroup_tree) = [T 3 [T 6 []; T 7 []]] ∧
  parent_of monophyletic_outgroup 3 = Some (Some 0).
Proof. split; vm_compute; reflexivity. Qed.

(** [((A.1:0.5,B.1:0.5):0.5,OUT1.1:0.5,(OUT2.1:0.5,A.1:0.5):0.5);]: the
    label [A.1] is the label of two tips. *)
Definition repeated_label : heap :=
  [ Node.mk None 0%float [1; 2; 3] None;
    Node.mk None 0.5%float [4; 5] (Some 0);
    Node.mk (Some "OUT1.1") 0.5%float [] (Some 0);
    Node.mk None 0.5%float [6; 7] (Some 0);
    Node.mk (Some "A.1") 0.5%float [] (Some 1);
    Node.mk (Some "B.1") 0.5%float [] (Some 1);
    Node.mk (Some "OUT2.1") 0.5%float [] (Some 3);
    Node.mk (Some "A.1") 0.5%float [] (Some 3) ].

Definition repeated_label_tree : tree :=
  T 0 [ T 1 [T 4 []; T 5 []]; T 2 []; T 3 [T 6 []; T 7 []] ].

(** C3, as stated, fails on a tree in which a label repeats: the tree has
    two outgroup tips and no node with purely outgroup tips on one side and
    purely ingroup tips on the other, and yet it is re-rooted and handed
    back.  The set difference of [get_back_labels] takes the label [A.1] of
    tip 7 out of the back of node 1, which is then read as purely
    outgroup. *)
Lemma repeated_label_is_rerooted :
  repr repeated_label None repeated_label_tree ∧
  NoDup (ids repeated_label_tree) ∧
  Datatypes.length
    (filter (λ i, i ∈ ["OUT1"; "OUT2"]) (names repeated_label repeated_label_tree)) = 2 ∧
  Forall (λ s, tid s = tid repeated_label_tree ∨
               ¬ rooting_point repeated_label repeated_label_tree ["OUT1"; "OUT2"] s)
    (clades repeated_label_tree) ∧
  get_back_names repeated_label 1 0 = Ok ["OUT1"; "OUT2"] ∧
  map (name_at repeated_label) (back_tips repeated_label_tree (T 1 [T 4 []; T 5 []])) =
    ["OUT1"; "OUT2"; "A"] ∧
  reroot_with_monophyletic_outgroups repeated_label 0 ["OUT1"; "OUT2"] =
    Ok (Some (repeated_label, 0)) ∧
  ¬ first_rooting_point_is_taken repeated_label repeated_label_tree ["OUT1"; "OUT2"].
Proof.
  assert (Hnone : Forall (λ s, tid s = tid repeated_label_tree ∨
            ¬ rooting_point repeated_label repeated_label_tree ["OUT1"; "OUT2"] s)
            (clades repeated_label_tree)).
  { apply (bool_decide_unpack _). vm_compute. exact I. }
  assert (Hrun : reroot_with_monophyletic_outgroups repeated_label 0 ["OUT1"; "OUT2"] =
            Ok (Some (repeated_label, 0))).
  { vm_compute. reflexivity. }
  split; [unfold repeated_label_tree; solve_repr|].
  split; [apply (bool_decide_unpack _); vm_compute; exact I|].
  split; [vm_compute; reflexivity|]. split; [done|].
  split; [vm_compute; reflexivity|]. split; [vm_compute; reflexivity|].
  split; [done|].
  intros [[_ Hnull]|(before & s & after & p & Hcl & _ & Hne & Hq & _)].
  - change (tid repeated_label_tree) with 0 in Hnull.
    congruence.
  - assert (Hs : s ∈ clades repeated_label_tree).
    { rewrite Hcl. apply elem_of_app. right. apply list_elem_of_here. }
    rewrite Forall_forall in Hnone.
    destruct (Hnone s Hs) as [Heq|Hn]; [exact (Hne Heq)|exact (Hn Hq)].
Qed.

(** * cut_long_internal_branches on a well-formed tree *)

(** ** The branch that a pass cuts *)







(** ** The cut of a branch, on the heap *)






(** ** The cut of a branch at the root, on the heap *)



(** ** The cut of a branch, on the tree *)














(** ** A pass of the loop on a tree with three clades at the root *)







Lemma subtree_plug (ctx : list frame) (s : tree) : subtree s (plug ctx s).
Proof.
  induction ctx as [|[[n l] r] ctx IH]; simpl; [constructor|].
  eapply subtree_child; [|exact IH]. apply elem_of_app. right. apply list_elem_of_here.
Qed.


















(** ** The first long branch is cut *)







(** ** What main does with the subtrees *)

(** The reason recorded in [subtrees_discarded_min_taxa_filtering], with
    the value the message is formatted from. *)
Inductive min_taxa_reason : Type :=
  | post_cut_filtering (minimum_number_taxa : nat).

(** A subtree file: its name, and the tree, a root in a heap, whose newick
    string is written to it. *)
Record subtree_file : Type :=
  { file_name : string; file_heap : heap; file_root : nat }.

(** What main has recorded for a tree file: lines 221, 239 and 243-271. *)
Inductive cut_outcome : Type :=
  | skipping_tree (num_taxa : nat)
  | no_tree_generated (h : heap)
      (subtrees_discarded_during_cutting : gmap string discard_reason)
  | subtrees_written (h : heap) (count : nat) (subtree_sizes : list nat)
      (subtrees_discarded_during_cutting : gmap string discard_reason)
      (subtrees_discarded_min_taxa_filtering : gmap string min_taxa_reason).

Section cut_main.

Variable tostring : heap → nat → string.
Variable internal_branch_length_cutoff : float.
Variables output_folder tree_file_basename : string.
Variable minimum_number_taxa : nat.

(** Lines 251-252: fix bifurcating roots from cutting. *)
Definition fix_bifurcating_root (h : heap) (subtree : nat) : result (heap * nat) :=
  nd ← deref h subtree;
  if bool_decide (Node.nchildren nd = 2) then
    '(h, temp, subtree) ← remove_kink h subtree subtree; Ok (h, subtree)
  else Ok (h, subtree).

(** cut_deep_paralogs.main, lines 247-267: the loop over the subtrees that
    [cut_long_internal_branches] has returned.  The first component is the
    files that are written, in order; a file that was written before an
    exception stays written. *)
Fixpoint write_subtrees (h : heap) (subtrees : list nat) (count : nat)
    (subtree_sizes : list nat)
    (subtrees_discarded_min_taxa_filtering : gmap string min_taxa_reason)
    : list subtree_file
      * result (heap * nat * list nat * gmap string min_taxa_reason) :=
  match subtrees with
  | [] => ([], Ok (h, count, subtree_sizes, subtrees_discarded_min_taxa_filtering))
  | subtree :: subtrees =>
      match count_taxa h subtree with
      | Raise e => ([], Raise e)
      | Ok n =>
          if bool_decide (minimum_number_taxa ≤ n) then
            let count := count + 1 in
            match fix_bifurcating_root h subtree with
            | Raise e => ([], Raise e)
            | Ok (h, subtree) =>
                let file :=
                  {| file_name :=
                       output_subtree_filename output_folder tree_file_basename count;
                     file_heap := h; file_root := subtree |} in
                match phylo3.leaves h subtree with
                | Raise e => ([file], Raise e)
                | Ok leaves =>
                    let '(files, r) :=
                      write_subtrees h subtrees count
                        (subtree_sizes ++ [Datatypes.length leaves])
                        subtrees_discarded_min_taxa_filtering in
                    (file :: files, r)
                end
            end
          else
            write_subtrees h subtrees count subtree_sizes
              (<[tostring h subtree := post_cut_filtering minimum_number_taxa]>
                 subtrees_discarded_min_taxa_filtering)
      end
  end.

(** cut_deep_paralogs.main, lines 218-271: the body of the loop over the
    tree files, with the files it writes. *)
Definition cut_tree_file (fuel : nat) (h : heap) (intree : nat)
    : list subtree_file * result cut_outcome :=
  match count_taxa h intree with
  | Raise e => ([], Raise e)
  | Ok num_taxa =>
      if bool_decide (num_taxa < minimum_number_taxa) then
        ([], Ok (skipping_tree num_taxa))
      else
        match cut_long_internal_branches tostring internal_branch_length_cutoff
                fuel h intree with
        | Raise e => ([], Raise e)
        | Ok (h, subtrees, subtrees_discarded_during_cutting) =>
            if bool_decide (Datatypes.length subtrees = 0) then
              ([], Ok (no_tree_generated h subtrees_discarded_during_cutting))
            else
              let '(files, r) := write_subtrees h subtrees 0 [] ∅ in
              (files,
               '(h, count, subtree_sizes, subtrees_discarded_min_taxa_filtering) ← r;
               Ok (subtrees_written h count subtree_sizes
                     subtrees_discarded_during_cutting
                     subtrees_discarded_min_taxa_filtering))
        end
  end.




End cut_main.

(** The outcome is the one of the test and the call of lines 218-232,
    followed by the loop over the subtrees. *)
Lemma cut_tree_file_cut_tree (tostring : heap → nat → string) (cutoff : float)
    (output_folder tree_file_basename : string) (minimum_number_taxa fuel : nat)
    (h : heap) (intree : nat) :
  (cut_tree_file tostring cutoff output_folder tree_file_basename
     minimum_number_taxa fuel h intree).2 =
    (num_taxa ← count_taxa h intree;
     r ← cut_tree tostring cutoff fuel h intree minimum_number_taxa;
     match r with
     | None => Ok (skipping_tree num_taxa)
     | Some (h, kept, during) =>
         if bool_decide (Datatypes.length kept = 0) then
           Ok (no_tree_generated h during)
         else
           '(h, count, sizes, filtering) ←
             (write_subtrees tostring output_folder tree_file_basename
                minimum_number_taxa h kept 0 [] ∅).2;
           Ok (subtrees_written h count sizes during filtering)
     end).
Proof.
  unfold cut_tree_file, cut_tree.
  destruct (count_taxa h intree) as [n|e]; simpl; [|done].
  destruct (bool_decide (n < minimum_number_taxa)); simpl; [done|].
  destruct (cut_long_internal_branches tostring cutoff fuel h intree)
    as [[[h' kept] during]|e]; simpl; [|done].
  destruct (bool_decide (Datatypes.length kept = 0)); [done|].
  by destruct (write_subtrees tostring output_folder tree_file_basename
                 minimum_number_taxa h' kept 0 [] ∅) as [files r].
Qed.



(** ** The minimum number of taxa, in the function and in main *)


(** [(A.1,B.1,((C.1,D.1):1.5,(E.1,(F.1,(G.1,H.1))):1.5):5.0);]: the branch
    of node 3 is long, and so are the branches of its two children taken
    together. *)
Definition split_branch_tree : heap :=
  [ Node.mk None 0%float [1; 2; 3] None;
    Node.mk (Some "A.1") 0.5%float [] (Some 0);
    Node.mk (Some "B.1") 0.5%float [] (Some 0);
    Node.mk None 5%float [4; 5] (Some 0);
    Node.mk None 1.5%float [6; 7] (Some 3);
    Node.mk None 1.5%float [8; 9] (Some 3);
    Node.mk (Some "C.1") 0.5%float [] (Some 4);
    Node.mk (Some "D.1") 0.5%float [] (Some 4);
    Node.mk (Some "E.1") 0.5%float [] (Some 5);
    Node.mk None 0.5%float [10; 11] (Some 5);
    Node.mk (Some "F.1") 0.5%float [] (Some 9);
    Node.mk None 0.5%float [12; 13] (Some 9);
    Node.mk (Some "G.1") 0.5%float [] (Some 11);
    Node.mk (Some "H.1") 0.5%float [] (Some 11) ].




(** With a cutoff of 2 the long branch is split: the child of two taxa is
    discarded and the child of four taxa kept, and the residue of two taxa
    is discarded.  With a minimum of three taxa main writes the kept
    subtree, its root moved to node 9; with a minimum of five it writes
    nothing, and with a minimum of nine it skips the tree. *)
Example split_branch_tree_cut :
  let summary (run : list subtree_file * result cut_outcome) :=
    (map (λ f, (file_name f, file_root f)) run.1,
     run.2 ≫= λ outcome,
       match outcome with
       | subtrees_written _ count sizes _ filtering =>
           Ok (count, sizes, map_to_list filtering)
       | _ => Raise ValueError
       end) in
  (cut_long_internal_branches node_index 2%float 20 split_branch_tree 0
     ≫= λ '(_, kept, discarded), Ok (kept, map_to_list discarded)) =
    Ok ([5], [("4", child0_node_has_fewer_than_4_taxa 5 2 1.5);
              ("0", remaining_tree_has_fewer_than_4_taxa)]) ∧
  summary (cut_tree_file node_index 2%float "out" "gene.tre" 3 20 split_branch_tree 0) =
    ([("out/gene_1.subtree", 9)], Ok (1, [4], [])) ∧
  summary (cut_tree_file node_index 2%float "out" "gene.tre" 5 20 split_branch_tree 0) =
    ([], Ok (0, [], [("5", post_cut_filtering 5)])) ∧
  cut_tree_file node_index 2%float "out" "gene.tre" 9 20 split_branch_tree 0 =
    ([], Ok (skipping_tree 8)).
Proof. repeat split; vm_compute; reflexivity. Qed.

